(** * A rule-based solver for first-order ODEs: expression engine

    Shallow embedding of [scripts/parser.js], [scripts/integrator.js],
    [scripts/solver.js], of the Runge-Kutta sampler of the chart module,
    and of the editing functions of [scripts/keyboard.js].

    Numbers.  The program computes on JavaScript numbers.  They are
    embedded as exact extended rationals: a finite value is a rational, and
    the three special values [+Infinity], [-Infinity] and [NaN] are kept
    with the propagation rules of the language.  Rounding, overflow and the
    sign of zero are not represented in Part I.  Where the truth of a
    statement depends on them, the statement is made for every arithmetic
    that has the laws it needs, among them the rounded arithmetic of the
    program ([binary64], on the rounding [round64]), or it is kept, by its
    hypotheses, to the inputs on which the program computes what the
    rationals give.  Functions of the [Math] object whose results are not
    rational are a parameter of the development ([MathLib]).

    Nodes.  A node is one of the five tagged objects that the constructors
    of the program build.  The names of variables and of functions and the
    operator of a unary node are texts, as in the program; the operator of
    a binary node is one of the five binary operators of [OP_INFO], the
    only ones that the lexer produces.  [null] is [None], and an exception
    is a [Throw] of the type [result].

    Text.  The input of the lexer is a sequence of UTF-16 code units.
    Names and rendered texts are strings; the characters outside ASCII of
    the fixed texts are kept in UTF-8. *)

From Stdlib Require Import QArith Qabs Qround Qpower Qreduction Lqa.
From Stdlib Require Import ZArith NArith Lia Bool List Sorted Permutation String Ascii.
From Stdlib Require DecimalString DecimalN.
Import ListNotations.

Local Open Scope Q_scope.

(** * Part I: the program *)

(** ** Numbers *)

Inductive num : Type :=
| Fin (q : Q)
| PInf
| NInf
| NaN.

(** Finite results are kept in lowest terms, so that equal values are
    represented by equal terms. *)
Definition fin (q : Q) : num := Fin (Qred q).

Definition inf (negative : bool) : num := if negative then NInf else PInf.

Definition Qlt_bool (a b : Q) : bool := negb (Qle_bool b a).

Definition isNeg (x : num) : bool :=
  match x with
  | Fin q => Qlt_bool q 0
  | NInf => true
  | PInf | NaN => false
  end.

(** [Number.isFinite]. *)
Definition isFinite (x : num) : bool :=
  match x with Fin _ => true | _ => false end.

Definition isNaN (x : num) : bool :=
  match x with NaN => true | _ => false end.

(** [x === y] on numbers. *)
Definition num_eqb (x y : num) : bool :=
  match x, y with
  | Fin a, Fin b => Qeq_bool a b
  | PInf, PInf | NInf, NInf => true
  | _, _ => false
  end.

(** [x < y] on numbers. *)
Definition nlt (x y : num) : bool :=
  match x, y with
  | NaN, _ | _, NaN => false
  | Fin a, Fin b => Qlt_bool a b
  | NInf, NInf | PInf, _ | _, NInf => false
  | NInf, _ | _, PInf => true
  end.

Definition nneg (x : num) : num :=
  match x with
  | Fin q => fin (- q)
  | PInf => NInf
  | NInf => PInf
  | NaN => NaN
  end.

(** [Math.abs]. *)
Definition nabs (x : num) : num :=
  match x with
  | Fin q => fin (Qabs q)
  | PInf | NInf => PInf
  | NaN => NaN
  end.

Definition nadd (x y : num) : num :=
  match x, y with
  | NaN, _ | _, NaN => NaN
  | Fin a, Fin b => fin (a + b)
  | PInf, NInf | NInf, PInf => NaN
  | PInf, _ | _, PInf => PInf
  | NInf, _ | _, NInf => NInf
  end.

Definition nsub (x y : num) : num :=
  match x, y with
  | NaN, _ | _, NaN => NaN
  | Fin a, Fin b => fin (a - b)
  | PInf, PInf | NInf, NInf => NaN
  | PInf, _ | _, NInf => PInf
  | NInf, _ | _, PInf => NInf
  end.

Definition nmul (x y : num) : num :=
  match x, y with
  | NaN, _ | _, NaN => NaN
  | Fin a, Fin b => fin (a * b)
  | Fin a, _ => if Qeq_bool a 0 then NaN else inf (xorb (isNeg x) (isNeg y))
  | _, Fin b => if Qeq_bool b 0 then NaN else inf (xorb (isNeg x) (isNeg y))
  | _, _ => inf (xorb (isNeg x) (isNeg y))
  end.

(** A zero divisor counts as [+0]. *)
Definition ndiv (x y : num) : num :=
  match x, y with
  | NaN, _ | _, NaN => NaN
  | Fin a, Fin b =>
      if Qeq_bool b 0
      then (if Qeq_bool a 0 then NaN else inf (isNeg x))
      else fin (a / b)
  | Fin _, _ => Fin 0
  | _, Fin _ => inf (xorb (isNeg x) (isNeg y))
  | _, _ => NaN
  end.

(** The representation of a value in lowest terms. *)
Definition canon (x : num) : num :=
  match x with Fin q => fin q | _ => x end.

(** [Number.isInteger] on a finite value. *)
Definition Qis_int (q : Q) : bool := Qeq_bool (inject_Z (Qfloor q)) q.

Definition isInteger (x : num) : bool :=
  match x with Fin q => Qis_int q | _ => false end.

Definition isOddInteger (x : num) : bool :=
  match x with Fin q => Qis_int q && Z.odd (Qfloor q) | _ => false end.

(** The part of the [Math] object that leaves the rationals. [Math_pow_frac]
    is [Math.pow] on a positive base and a finite exponent that is not an
    integer.  These functions are always called on values in lowest
    terms. *)
Class MathLib : Type := {
  Math_sin : num -> num;
  Math_cos : num -> num;
  Math_tan : num -> num;
  Math_exp : num -> num;
  Math_log : num -> num;
  Math_sqrt : num -> num;
  Math_pow_frac : Q -> Q -> num
}.

(** A library that reports every such result as unavailable; closed
    examples that stay within the rationals are run with it. *)
Definition rationalMath : MathLib := {|
  Math_sin := fun _ => NaN;
  Math_cos := fun _ => NaN;
  Math_tan := fun _ => NaN;
  Math_exp := fun _ => NaN;
  Math_log := fun _ => NaN;
  Math_sqrt := fun _ => NaN;
  Math_pow_frac := fun _ _ => NaN
|}.

Section Pow.
Context {ML : MathLib}.

(** [Math.pow], following the case analysis of the language definition. *)
Definition Math_pow (base exponent : num) : num :=
  match exponent with
  | NaN => NaN
  | _ =>
    if num_eqb exponent (Fin 0) then Fin 1 else
    match base with
    | NaN => NaN
    | PInf => if nlt (Fin 0) exponent then PInf else Fin 0
    | NInf =>
        if nlt (Fin 0) exponent
        then (if isOddInteger exponent then NInf else PInf)
        else Fin 0
    | Fin b =>
        if Qeq_bool b 0
        then (if nlt (Fin 0) exponent then Fin 0 else PInf)
        else
          match exponent with
          | PInf =>
              if Qlt_bool 1 (Qabs b) then PInf
              else if Qeq_bool (Qabs b) 1 then NaN else Fin 0
          | NInf =>
              if Qlt_bool 1 (Qabs b) then Fin 0
              else if Qeq_bool (Qabs b) 1 then NaN else PInf
          | Fin e =>
              if Qis_int e then fin (Qpower b (Qfloor e))
              else if Qlt_bool b 0 then NaN
              else Math_pow_frac (Qred b) (Qred e)
          | NaN => NaN
          end
    end
  end.

End Pow.

(** ** Expression nodes *)

(** The binary operators of [OP_INFO]. *)
Inductive binop : Type := Add | Sub | Mul | Div | Pow.

Inductive node : Type :=
| NNumber (value : num)
| NVariable (name : string)
| NUnary (op : string) (argument : node)
| NFunction (name : string) (argument : node)
| NBinary (op : binop) (left right : node).

Definition createNumber (value : num) : node := NNumber value.
Definition createVariable (name : string) : node := NVariable name.
Definition createUnary (op : string) (argument : node) : node := NUnary op argument.
Definition createFunction (name : string) (argument : node) : node :=
  NFunction name argument.
Definition createBinary (op : binop) (left right : node) : node :=
  NBinary op left right.

Fixpoint cloneNode (n : node) : node :=
  match n with
  | NNumber value => createNumber value
  | NVariable name => createVariable name
  | NUnary op argument => NUnary op (cloneNode argument)
  | NFunction name argument => createFunction name (cloneNode argument)
  | NBinary op l r => createBinary op (cloneNode l) (cloneNode r)
  end.

(** The tolerance [1e-9] of the identity tests. *)
Definition tolerance : num := Fin (1 # 1000000000).

Definition isNumberNode (n : node) : bool :=
  match n with NNumber _ => true | _ => false end.

Definition isZeroNode (n : node) : bool :=
  match n with
  | NNumber value => nlt (nabs value) tolerance
  | _ => false
  end.

Definition isOneNode (n : node) : bool :=
  match n with
  | NNumber value => nlt (nabs (nsub value (Fin 1))) tolerance
  | _ => false
  end.

Section Simplifier.
Context {ML : MathLib}.

Definition evalBinary (op : binop) (l r : num) : num :=
  match op with
  | Add => nadd l r
  | Sub => nsub l r
  | Mul => nmul l r
  | Div => ndiv l r
  | Pow => Math_pow l r
  end.

(** The [case 'binary'] block of [simplifyNode], on the simplified
    operands.  The last test of the rules of [^], on two literals, comes
    after the folding of two literals and is never reached. *)
Definition simplifyBinary (op : binop) (left right : node) : node :=
  match left, right with
  | NNumber lv, NNumber rv => createNumber (evalBinary op lv rv)
  | _, _ =>
    match op with
    | Add =>
        if isZeroNode left then right
        else if isZeroNode right then left
        else createBinary op left right
    | Sub =>
        if isZeroNode right then left
        else createBinary op left right
    | Mul =>
        if isZeroNode left || isZeroNode right then createNumber (Fin 0)
        else if isOneNode left then right
        else if isOneNode right then left
        else createBinary op left right
    | Div =>
        if isZeroNode left then createNumber (Fin 0)
        else if isOneNode right then left
        else createBinary op left right
    | Pow =>
        if isZeroNode right then createNumber (Fin 1)
        else if isOneNode right then left
        else createBinary op left right
    end
  end.

Fixpoint simplifyNode (n : node) : node :=
  match n with
  | NNumber _ | NVariable _ => n
  | NUnary op argument =>
      let arg := simplifyNode argument in
      if String.eqb op "u-" then
        match arg with
        | NNumber value => createNumber (nneg value)
        | _ => createUnary "u-" arg
        end
      else NUnary op arg
  | NFunction name argument => createFunction name (simplifyNode argument)
  | NBinary op l r => simplifyBinary op (simplifyNode l) (simplifyNode r)
  end.

Definition makeAdd (a b : node) : node := simplifyNode (createBinary Add a b).
Definition makeSub (a b : node) : node := simplifyNode (createBinary Sub a b).
Definition makeMul (a b : node) : node := simplifyNode (createBinary Mul a b).
Definition makeDiv (a b : node) : node := simplifyNode (createBinary Div a b).
Definition makePow (a b : node) : node := simplifyNode (createBinary Pow a b).
Definition makeNeg (a : node) : node := simplifyNode (createUnary "u-" a).

End Simplifier.

(** ** Exceptions *)

(** One constructor per [throw] of the program.  [OutOfFuel] is not of the
    program: it is the answer of the lexer when its fuel is used up, which
    does not happen. *)
Inductive error : Type :=
| InvalidNumber
| UnknownSymbol (id : string)
| InvalidCharacter (char : N)
| UnmatchedParen
| UnaryLacksArgument
| BinaryLacksArgument
| FunctionLacksArgument
| UnknownToken
| InvalidStructure
| EmptyExpression
| UndefinedVariable (name : string)
| UnsupportedUnary
| UnsupportedFunction (name : string)
| MissingEquals
| BadLeftSide
| RhsNotIntegrable
| SeparableNotIntegrable
| PNotIntegrable
| OutOfFuel.

Inductive result (A : Type) : Type :=
| Ok (a : A)
| Throw (e : error).
Arguments Ok {A} a.
Arguments Throw {A} e.

Definition bind {A B : Type} (r : result A) (k : A -> result B) : result B :=
  match r with
  | Ok a => k a
  | Throw e => Throw e
  end.

Notation "'do' x <- r ; k" := (bind r (fun x => k))
  (at level 10, x name, r at level 100, k at level 200).

(** ** Evaluation *)

(** A scope object: the value bound to a name, if any. *)
Definition scope : Type := string -> option num.

Definition emptyScope : scope := fun _ => None.

(** The object [{ x, y }]. *)
Definition xyScope (x y : num) : scope :=
  fun name =>
    if String.eqb name "x" then Some x
    else if String.eqb name "y" then Some y
    else None.

Section Evaluator.
Context {ML : MathLib}.

Definition evalFunction (name : string) (value : num) : result num :=
  let arg := canon value in
  if String.eqb name "sin" then Ok (Math_sin arg)
  else if String.eqb name "cos" then Ok (Math_cos arg)
  else if String.eqb name "tan" then Ok (Math_tan arg)
  else if String.eqb name "cot" then Ok (ndiv (Fin 1) (Math_tan arg))
  else if String.eqb name "sec" then Ok (ndiv (Fin 1) (Math_cos arg))
  else if String.eqb name "csc" then Ok (ndiv (Fin 1) (Math_sin arg))
  else if String.eqb name "exp" then Ok (Math_exp arg)
  else if String.eqb name "ln" || String.eqb name "log" then Ok (Math_log arg)
  else if String.eqb name "sqrt" then Ok (Math_sqrt arg)
  else if String.eqb name "abs" then Ok (nabs arg)
  else Throw (UnsupportedFunction name).

Fixpoint evaluateNode (n : node) (sc : scope) : result num :=
  match n with
  | NNumber value => Ok value
  | NVariable name =>
      match sc name with
      | None => Throw (UndefinedVariable name)
      | Some v => Ok v
      end
  | NUnary op argument =>
      do value <- evaluateNode argument sc;
      if String.eqb op "u-" then Ok (nneg value) else Throw UnsupportedUnary
  | NFunction name argument =>
      do arg <- evaluateNode argument sc;
      evalFunction name arg
  | NBinary op l r =>
      do left <- evaluateNode l sc;
      do right <- evaluateNode r sc;
      Ok (evalBinary op left right)
  end.

(** [createDerivativeEvaluator(rhsNode)], applied to [x] and [y]. *)
Definition createDerivativeEvaluator (rhsNode : node) (x y : num) : num :=
  match evaluateNode rhsNode (xyScope x y) with
  | Ok value => if negb (isFinite value) then NaN else value
  | Throw _ => NaN
  end.

End Evaluator.

(** ** Dependence on a variable *)

Fixpoint dependsOn (n : node) (variable : string) : bool :=
  match n with
  | NNumber _ => false
  | NVariable name => String.eqb name variable
  | NUnary _ argument => dependsOn argument variable
  | NFunction _ argument => dependsOn argument variable
  | NBinary _ l r => dependsOn l variable || dependsOn r variable
  end.

Definition isConstantWithRespectTo (n : node) (variable : string) : bool :=
  negb (dependsOn n variable).

Definition isVariableNode (n : node) (variable : string) : bool :=
  match n with
  | NVariable name => String.eqb name variable
  | _ => false
  end.

(** ** The integrator *)

(** The value of a literal that depends on neither variable; [None] is
    [null]. *)
Definition extractNumericConstant (n : node) : option num :=
  if negb (dependsOn n "x") && negb (dependsOn n "y") then
    match n with
    | NNumber value => Some value
    | _ => None
    end
  else None.

(** The object [{ a, b }] of the recursive matcher. *)
Record linearForm : Type := mkLinearForm {
  lf_a : num;
  lf_b : node
}.

(** The object [{ a, b, node }] of [matchLinear]. *)
Record linearInfo : Type := mkLinearInfo {
  li_a : num;
  li_b : node;
  li_node : node
}.

Section Integrator.
Context {ML : MathLib}.

Fixpoint matchLinearRecursive (n : node) (variable : string) : option linearForm :=
  if negb (dependsOn n variable) then Some (mkLinearForm (Fin 0) n)
  else if isVariableNode n variable
  then Some (mkLinearForm (Fin 1) (createNumber (Fin 0)))
  else
    match n with
    | NUnary op argument =>
        if String.eqb op "u-" then
          match matchLinearRecursive argument variable with
          | None => None
          | Some inner => Some (mkLinearForm (nneg (lf_a inner)) (makeNeg (lf_b inner)))
          end
        else None
    | NBinary Add l r =>
        match matchLinearRecursive l variable, matchLinearRecursive r variable with
        | Some leftLinear, Some rightLinear =>
            Some (mkLinearForm (nadd (lf_a leftLinear) (lf_a rightLinear))
                               (makeAdd (lf_b leftLinear) (lf_b rightLinear)))
        | _, _ => None
        end
    | NBinary Sub l r =>
        match matchLinearRecursive l variable, matchLinearRecursive r variable with
        | Some leftLinear, Some rightLinear =>
            Some (mkLinearForm (nsub (lf_a leftLinear) (lf_a rightLinear))
                               (makeSub (lf_b leftLinear) (lf_b rightLinear)))
        | _, _ => None
        end
    | NBinary Mul l r =>
        if isConstantWithRespectTo l variable then
          match extractNumericConstant l with
          | None => None
          | Some leftConst =>
              match matchLinearRecursive r variable with
              | None => None
              | Some rightLinear =>
                  Some (mkLinearForm (nmul (lf_a rightLinear) leftConst)
                                     (makeMul (createNumber leftConst) (lf_b rightLinear)))
              end
          end
        else if isConstantWithRespectTo r variable then
          match extractNumericConstant r with
          | None => None
          | Some rightConst =>
              match matchLinearRecursive l variable with
              | None => None
              | Some leftLinear =>
                  Some (mkLinearForm (nmul (lf_a leftLinear) rightConst)
                                     (makeMul (createNumber rightConst) (lf_b leftLinear)))
              end
          end
        else None
    | NBinary Div l r =>
        if isConstantWithRespectTo r variable then
          match extractNumericConstant r with
          | None => None
          | Some constValue =>
              if nlt (nabs constValue) tolerance then None
              else
                match matchLinearRecursive l variable with
                | None => None
                | Some leftLinear =>
                    Some (mkLinearForm (ndiv (lf_a leftLinear) constValue)
                                       (makeDiv (lf_b leftLinear) (createNumber constValue)))
                end
          end
        else None
    | _ => None
    end.

Definition matchLinear (n : node) (variable : string) : option linearInfo :=
  match matchLinearRecursive n variable with
  | None => None
  | Some result =>
      if nlt (nabs (lf_a result)) tolerance
      then Some (mkLinearInfo (Fin 0) (lf_b result) (simplifyNode (lf_b result)))
      else
        let linearNode :=
          simplifyNode
            (makeAdd (makeMul (createNumber (lf_a result)) (createVariable variable))
                     (lf_b result)) in
        Some (mkLinearInfo (lf_a result) (lf_b result) linearNode)
  end.

(** [linearInfo && linearInfo.a !== 0]. *)
Definition hasSlope (info : option linearInfo) : option linearInfo :=
  match info with
  | Some i => if negb (num_eqb (li_a i) (Fin 0)) then Some i else None
  | None => None
  end.

Definition lnAbs (inside : node) : node :=
  createFunction "ln" (createFunction "abs" inside).

(** The [case] of the function switch of [integrateInternal]. *)
Definition integrateFunction (n : node) (name : string) (arg : node)
    (variable : string) : option node :=
  let linearInfo := matchLinear arg variable in
  if String.eqb name "exp" then
    match hasSlope linearInfo with
    | Some i =>
        let factor := ndiv (Fin 1) (li_a i) in
        Some (makeMul (createNumber factor) (createFunction "exp" (cloneNode arg)))
    | None => None
    end
  else if String.eqb name "sin" then
    match hasSlope linearInfo with
    | Some i =>
        let factor := ndiv (Fin (-1)) (li_a i) in
        Some (makeMul (createNumber factor) (createFunction "cos" (cloneNode arg)))
    | None => None
    end
  else if String.eqb name "cos" then
    match hasSlope linearInfo with
    | Some i =>
        let factor := ndiv (Fin 1) (li_a i) in
        Some (makeMul (createNumber factor) (createFunction "sin" (cloneNode arg)))
    | None => None
    end
  else if String.eqb name "tan" then
    match hasSlope linearInfo with
    | Some i =>
        let factor := ndiv (Fin (-1)) (li_a i) in
        Some (makeMul (createNumber factor)
                      (lnAbs (createFunction "cos" (cloneNode arg))))
    | None => None
    end
  else if String.eqb name "ln" || String.eqb name "log" then
    match matchLinear arg variable with
    | Some _ =>
        if negb (dependsOn arg variable)
        then Some (makeMul n (createVariable variable))
        else None
    | None => None
    end
  else None.

Fixpoint integrateInternal (n : node) (variable : string) : option node :=
  if negb (dependsOn n variable) then Some (makeMul n (createVariable variable))
  else
    match n with
    | NNumber _ => Some (makeMul n (createVariable variable))
    | NVariable name =>
        if String.eqb name variable then
          Some (makeMul (createNumber (Fin (1 # 2)))
                        (makePow (createVariable variable) (createNumber (Fin 2))))
        else Some (makeMul n (createVariable variable))
    | NUnary op argument =>
        if String.eqb op "u-" then
          match integrateInternal argument variable with
          | None => None
          | Some integrated => Some (makeNeg integrated)
          end
        else None
    | NBinary Add l r =>
        match integrateInternal l variable, integrateInternal r variable with
        | Some leftInt, Some rightInt => Some (makeAdd leftInt rightInt)
        | _, _ => None
        end
    | NBinary Sub l r =>
        match integrateInternal l variable, integrateInternal r variable with
        | Some leftInt, Some rightInt => Some (makeSub leftInt rightInt)
        | _, _ => None
        end
    | NBinary Mul l r =>
        if isConstantWithRespectTo l variable then
          match integrateInternal r variable with
          | None => None
          | Some rightInt => Some (makeMul l rightInt)
          end
        else if isConstantWithRespectTo r variable then
          match integrateInternal l variable with
          | None => None
          | Some leftInt => Some (makeMul r leftInt)
          end
        else None
    | NBinary Div l r =>
        if negb (dependsOn r variable) && dependsOn l variable then
          match integrateInternal l variable with
          | None => None
          | Some integral => Some (makeDiv integral r)
          end
        else if negb (dependsOn l variable) && dependsOn r variable then
          match extractNumericConstant l with
          | None => None
          | Some numeratorValue =>
              match hasSlope (matchLinear r variable) with
              | Some i =>
                  let factor := ndiv numeratorValue (li_a i) in
                  Some (makeMul (createNumber factor) (lnAbs (li_node i)))
              | None =>
                  if isVariableNode r variable && nlt (Fin 0) (nabs numeratorValue)
                  then Some (makeMul (createNumber numeratorValue)
                                     (lnAbs (createVariable variable)))
                  else None
              end
          end
        else None
    | NBinary Pow l r =>
        if isVariableNode l variable then
          match r with
          | NNumber power =>
              if nlt (nabs (nadd power (Fin 1))) tolerance
              then Some (lnAbs (createVariable variable))
              else
                let newExp := nadd power (Fin 1) in
                let coefficient := ndiv (Fin 1) newExp in
                Some (makeMul (createNumber coefficient)
                              (makePow (createVariable variable) (createNumber newExp)))
          | _ => None
          end
        else None
    | NFunction name arg => integrateFunction n name arg variable
    end.

(** [integrate(node, variable)]; [None] is the failure value [null]. *)
Definition integrate (n : node) (variable : string) : option node :=
  match integrateInternal n variable with
  | None => None
  | Some result => Some (simplifyNode result)
  end.

End Integrator.

(** ** The Runge-Kutta sampler *)


Record point : Type := mkPoint {
  pt_x : num;
  pt_y : num
}.


Section Sampler.
Variable f : num -> num -> num.






End Sampler.

(** ** Text *)

(** Input text is a sequence of UTF-16 code units. *)
Definition codeUnit : Type := N.

Local Open Scope N_scope.

(** The code units of a text written in ASCII. *)
Definition str (s : string) : list codeUnit :=
  map N_of_ascii (list_ascii_of_string s).

(** The text made of code units below 256. *)
Definition text_of (l : list codeUnit) : string :=
  string_of_list_ascii (map ascii_of_N l).

Fixpoint span (p : codeUnit -> bool) (l : list codeUnit)
    : list codeUnit * list codeUnit :=
  match l with
  | [] => ([], [])
  | c :: rest =>
      if p c then let (taken, left) := span p rest in (c :: taken, left)
      else ([], l)
  end.

Definition isDigit (c : codeUnit) : bool := (48 <=? c) && (c <=? 57).

(** [/[0-9.]/]. *)
Definition isNumberChar (c : codeUnit) : bool := isDigit c || (c =? 46).

(** [/[a-zA-Z_]/]. *)
Definition isIdentifierStart (c : codeUnit) : bool :=
  ((65 <=? c) && (c <=? 90)) || ((97 <=? c) && (c <=? 122)) || (c =? 95).

(** [/[a-zA-Z0-9_]/]. *)
Definition isIdentifierChar (c : codeUnit) : bool :=
  isIdentifierStart c || isDigit c.

(** [toLowerCase] on the letters of ASCII; the other code units are left
    as they are.  The language maps no character outside ASCII to one of
    [d], [y], [/] and [x], the only ones that texts lowered beyond
    identifiers are compared with. *)
Definition lowerUnit (c : codeUnit) : codeUnit :=
  if (65 <=? c) && (c <=? 90) then c + 32 else c.

Definition toLowerCase (s : list codeUnit) : list codeUnit := map lowerUnit s.

(** The white space of the language: [\s] and [trim]. *)
Definition isWhiteSpace (c : codeUnit) : bool :=
  ((9 <=? c) && (c <=? 13)) || (c =? 32) || (c =? 160) || (c =? 5760) ||
  ((8192 <=? c) && (c <=? 8202)) || (c =? 8232) || (c =? 8233) ||
  (c =? 8239) || (c =? 8287) || (c =? 12288) || (c =? 65279).

Fixpoint trimStart (s : list codeUnit) : list codeUnit :=
  match s with
  | c :: rest => if isWhiteSpace c then trimStart rest else s
  | [] => []
  end.

Definition trim (s : list codeUnit) : list codeUnit :=
  rev (trimStart (rev (trimStart s))).

Definition unitsEqb (a b : list codeUnit) : bool :=
  if list_eq_dec N.eq_dec a b then true else false.

(** ** The lexer *)

Local Open Scope Q_scope.

(** [parseFloat] on a text of digits with at most one point. *)
Definition digitValue (c : codeUnit) : Z := Z.of_N (c - 48).

Definition digitsValue (digits : list codeUnit) : Z :=
  fold_left (fun acc c => (10 * acc + digitValue c)%Z) digits 0%Z.

Definition parseFloat (numStr : list codeUnit) : num :=
  let (intPart, rest) := span isDigit numStr in
  let fracPart :=
    match rest with
    | c :: after => if (c =? 46)%N then fst (span isDigit after) else []
    | [] => []
    end in
  match intPart ++ fracPart with
  | [] => NaN
  | digits =>
      fin (inject_Z (digitsValue digits) /
           inject_Z (10 ^ Z.of_nat (List.length fracPart)))
  end.

(** [Math.PI] and [Math.E], the values of the two floating-point
    constants. *)
Definition Math_PI : num := Fin (884279719003555 # 281474976710656).
Definition Math_E : num := Fin (6121026514868073 # 2251799813685248).

Definition CONSTANTS (name : string) : option num :=
  if String.eqb name "pi" then Some Math_PI
  else if String.eqb name "e" then Some Math_E
  else None.

Definition FUNCTIONS : list string :=
  ["sin"; "cos"; "tan"; "cot"; "sec"; "csc"; "exp"; "ln"; "log"; "sqrt";
   "abs"]%string.

Definition isFunctionName (name : string) : bool :=
  existsb (String.eqb name) FUNCTIONS.

(** The keys of [OP_INFO]: the binary operators and the unary minus
    ['u-']. *)
Inductive operator : Type :=
| OpBinary (op : binop)
| OpNegate.

Inductive associativity : Type := LeftAssoc | RightAssoc.

Definition precedence (o : operator) : nat :=
  match o with
  | OpBinary Add | OpBinary Sub => 1
  | OpBinary Mul | OpBinary Div => 2
  | OpBinary Pow => 3
  | OpNegate => 4
  end.

Definition assoc (o : operator) : associativity :=
  match o with
  | OpBinary Pow | OpNegate => RightAssoc
  | OpBinary _ => LeftAssoc
  end.

Definition args (o : operator) : nat :=
  match o with
  | OpBinary _ => 2
  | OpNegate => 1
  end.

(** [OP_INFO[char]] on a single character. *)
Definition operatorOfChar (c : codeUnit) : option binop :=
  if (c =? 43)%N then Some Add
  else if (c =? 45)%N then Some Sub
  else if (c =? 42)%N then Some Mul
  else if (c =? 47)%N then Some Div
  else if (c =? 94)%N then Some Pow
  else None.

Inductive token : Type :=
| TNumber (value : num)
| TVariable (value : string)
| TFunction (value : string)
| TComma
| TLparen
| TRparen
| TOperator (value : operator).

(** The values of [prevType]. *)
Inductive tokenKind : Type :=
| KStart | KNumber | KVariable | KFunction | KComma | KLparen | KRparen
| KOperator.

Definition minusIsUnary (prevType : tokenKind) : bool :=
  match prevType with
  | KStart | KOperator | KLparen | KComma => true
  | _ => false
  end.

(** The loop of [tokenize] on the text from the index [i] on; every
    iteration consumes at least one character, and [fuel] bounds the
    number of iterations. *)
Fixpoint tokenizeLoop (fuel : nat) (input : list codeUnit) (prevType : tokenKind)
    (tokens : list token) : result (list token) :=
  match fuel with
  | O => Throw OutOfFuel
  | S fuel' =>
    match input with
    | [] => Ok tokens
    | char :: rest =>
      if (char =? 32)%N || (char =? 9)%N || (char =? 10)%N then
        tokenizeLoop fuel' rest prevType tokens
      else if isNumberChar char then
        let (more, after) := span isNumberChar rest in
        let numStr := char :: more in
        if (2 <? List.length (filter (N.eqb 46) numStr) + 1)%nat
        then Throw InvalidNumber
        else tokenizeLoop fuel' after KNumber
               (tokens ++ [TNumber (parseFloat numStr)])
      else if isIdentifierStart char then
        let (more, after) := span isIdentifierChar rest in
        let id := char :: more in
        let lower := text_of (toLowerCase id) in
        match CONSTANTS lower with
        | Some value =>
            tokenizeLoop fuel' after KNumber (tokens ++ [TNumber value])
        | None =>
            if isFunctionName lower then
              tokenizeLoop fuel' after KFunction (tokens ++ [TFunction lower])
            else if String.eqb lower "x" || String.eqb lower "y" then
              tokenizeLoop fuel' after KVariable (tokens ++ [TVariable lower])
            else Throw (UnknownSymbol (text_of id))
        end
      else if (char =? 44)%N then
        tokenizeLoop fuel' rest KComma (tokens ++ [TComma])
      else if (char =? 40)%N then
        tokenizeLoop fuel' rest KLparen (tokens ++ [TLparen])
      else if (char =? 41)%N then
        tokenizeLoop fuel' rest KRparen (tokens ++ [TRparen])
      else
        match operatorOfChar char with
        | Some op =>
            let value :=
              match op with
              | Sub => if minusIsUnary prevType then OpNegate else OpBinary Sub
              | _ => OpBinary op
              end in
            tokenizeLoop fuel' rest KOperator (tokens ++ [TOperator value])
        | None => Throw (InvalidCharacter char)
        end
    end
  end.

Definition tokenize (input : list codeUnit) : result (list token) :=
  tokenizeLoop (S (List.length input)) input KStart [].

(** ** The parser *)

(** In [toRPN] and [buildAST] a stack is a list whose head is the top. *)

(** The loop of the [operator] case: operators and functions on top of the
    stack that bind at least as tightly as [o1] go to the output. *)
Fixpoint popOperators (o1 : operator) (stack output : list token)
    : list token * list token :=
  match stack with
  | [] => (stack, output)
  | top :: below =>
      match top with
      | TFunction _ => popOperators o1 below (output ++ [top])
      | TOperator o2 =>
          if match assoc o1 with
             | LeftAssoc => (precedence o1 <=? precedence o2)%nat
             | RightAssoc => (precedence o1 <? precedence o2)%nat
             end
          then popOperators o1 below (output ++ [top])
          else (stack, output)
      | _ => (stack, output)
      end
  end.

(** The loop of the [comma] case: up to the nearest left parenthesis, which
    stays on the stack. *)
Fixpoint popToLparen (stack output : list token) : list token * list token :=
  match stack with
  | [] => (stack, output)
  | TLparen :: _ => (stack, output)
  | top :: below => popToLparen below (output ++ [top])
  end.

(** The loop of the [rparen] case: up to the nearest left parenthesis, which
    is removed; [None] when there is none. *)
Fixpoint popThroughLparen (stack output : list token)
    : option (list token * list token) :=
  match stack with
  | [] => None
  | TLparen :: below => Some (below, output)
  | top :: below => popThroughLparen below (output ++ [top])
  end.

(** The final loop of [toRPN]. *)
Fixpoint drainStack (stack output : list token) : result (list token) :=
  match stack with
  | [] => Ok output
  | TLparen :: _ | TRparen :: _ => Throw UnmatchedParen
  | top :: below => drainStack below (output ++ [top])
  end.

Fixpoint toRPNLoop (tokens stack output : list token) : result (list token) :=
  match tokens with
  | [] => drainStack stack output
  | tok :: rest =>
      match tok with
      | TNumber _ | TVariable _ => toRPNLoop rest stack (output ++ [tok])
      | TFunction _ => toRPNLoop rest (tok :: stack) output
      | TComma =>
          let (stack', output') := popToLparen stack output in
          match stack' with
          | [] => Throw UnmatchedParen
          | _ => toRPNLoop rest stack' output'
          end
      | TOperator o1 =>
          let (stack', output') := popOperators o1 stack output in
          toRPNLoop rest (tok :: stack') output'
      | TLparen => toRPNLoop rest (tok :: stack) output
      | TRparen =>
          match popThroughLparen stack output with
          | None => Throw UnmatchedParen
          | Some (stack', output') =>
              match stack' with
              | (TFunction _ as fn) :: below =>
                  toRPNLoop rest below (output' ++ [fn])
              | _ => toRPNLoop rest stack' output'
              end
          end
      end
  end.

Definition toRPN (tokens : list token) : result (list token) :=
  toRPNLoop tokens [] [].

Section Parser.
Context {ML : MathLib}.

Fixpoint buildASTLoop (rpn : list token) (stack : list node) : result (list node) :=
  match rpn with
  | [] => Ok stack
  | tok :: rest =>
      match tok with
      | TNumber value => buildASTLoop rest (createNumber value :: stack)
      | TVariable value => buildASTLoop rest (createVariable value :: stack)
      | TOperator OpNegate =>
          match stack with
          | arg :: below => buildASTLoop rest (createUnary "u-" arg :: below)
          | [] => Throw UnaryLacksArgument
          end
      | TOperator (OpBinary op) =>
          match stack with
          | r :: l :: below =>
              buildASTLoop rest (createBinary op l r :: below)
          | _ => Throw BinaryLacksArgument
          end
      | TFunction value =>
          match stack with
          | arg :: below => buildASTLoop rest (createFunction value arg :: below)
          | [] => Throw FunctionLacksArgument
          end
      | TComma | TLparen | TRparen => Throw UnknownToken
      end
  end.

Definition buildAST (rpn : list token) : result node :=
  do stack <- buildASTLoop rpn [];
  match stack with
  | [top] => Ok (simplifyNode top)
  | _ => Throw InvalidStructure
  end.

(** [input.replace(/−/g, '-')]: the minus sign U+2212. *)
Definition replaceMinusSign (input : list codeUnit) : list codeUnit :=
  map (fun c => if (c =? 8722)%N then 45%N else c) input.

Definition parseExpression (input : list codeUnit) : result node :=
  match trim input with
  | [] => Throw EmptyExpression
  | _ =>
      let sanitized := replaceMinusSign input in
      do tokens <- tokenize sanitized;
      do rpn <- toRPN tokens;
      buildAST rpn
  end.

End Parser.

(** ** Rendering *)

Local Open Scope string_scope.

Definition digitsOfN (n : N) : string :=
  DecimalString.NilZero.string_of_uint (N.to_uint n).

Fixpoint dropZeros (l : list ascii) : list ascii :=
  match l with
  | "0"%char :: rest => dropZeros rest
  | _ => l
  end.

Definition stripTrailingZeros (s : string) : string :=
  string_of_list_ascii (rev (dropZeros (rev (list_ascii_of_string s)))).

(** [value.toString()] on an integer: its decimal digits below [10^21]
    and the exponent notation from there on. *)
Definition integerToString (z : Z) : string :=
  let digits := digitsOfN (Z.abs_N z) in
  let sign := if (z <? 0)%Z then "-" else "" in
  if (Z.abs z <? 10 ^ 21)%Z then sign ++ digits
  else
    let exponent := digitsOfN (N.of_nat (String.length digits - 1)) in
    match stripTrailingZeros digits with
    | String first EmptyString => sign ++ String first "e+" ++ exponent
    | String first more => sign ++ String first ("." ++ more) ++ "e+" ++ exponent
    | EmptyString => sign ++ digits
    end.

Definition digitChar (d : N) : ascii := ascii_of_N (48 + d).

(** The [width] digits that [toFixed] writes after the point for the
    numerator [n] of a fraction [n / 10^width]. *)
Fixpoint fixedDigits (width : nat) (n : N) : string :=
  match width with
  | O => ""
  | S w => fixedDigits w (n / 10) ++ String (digitChar (n mod 10)) ""
  end.

(** The integer [n] of [toFixed(6)]: [n / 10^6] is nearest to the absolute
    value, the larger one of two. *)
Definition roundMicro (q : Q) : Z := Qfloor (Qabs q * 1000000 + (1 # 2)).

(** [parseFloat(value.toFixed(6)).toString()] on a finite value: the
    rounded value, written without the zeros that end its fraction. *)
Definition fixed6ToString (q : Q) : string :=
  let n := roundMicro q in
  let sign := if Qlt_bool q 0 then "-" else "" in
  let whole := (n / 1000000)%Z in
  let fraction := (n mod 1000000)%Z in
  if (n =? 0)%Z then "0"
  else if (fraction =? 0)%Z then sign ++ integerToString whole
  else sign ++ digitsOfN (Z.to_N whole) ++ "." ++
       stripTrailingZeros (fixedDigits 6 (Z.to_N fraction)).

Definition formatNumber (value : num) : string :=
  match value with
  | Fin q =>
      if Qis_int q then integerToString (Qfloor q) else fixed6ToString q
  | PInf => "Infinity"
  | NInf => "-Infinity"
  | NaN => "NaN"
  end.

Definition opSymbol (op : binop) : string :=
  match op with
  | Add => "+"
  | Sub => "-"
  | Mul => "*"
  | Div => "/"
  | Pow => "^"
  end.

(** [PREC_MAP] on the binary operators. *)
Definition PREC_MAP (op : binop) : nat :=
  match op with
  | Pow => 3
  | Mul | Div => 2
  | Add | Sub => 1
  end.

Definition getPrecedence (n : node) : nat :=
  match n with
  | NBinary op _ _ => PREC_MAP op
  | NUnary _ _ => 4
  | _ => 5
  end.

Definition needsParens (n : node) : bool :=
  match n with NBinary _ _ _ => true | _ => false end.

Inductive side : Type := LeftSide | RightSide.

Definition isRightSide (position : side) : bool :=
  match position with RightSide => true | LeftSide => false end.

Definition shouldWrap (n : node) (parentPrec : nat) (position : side)
    (parentOp : binop) : bool :=
  match n with
  | NBinary _ _ _ =>
      let childPrec := getPrecedence n in
      if (childPrec <? parentPrec)%nat then true
      else if (childPrec =? parentPrec)%nat then
        match parentOp with
        | Pow => isRightSide position
        | Sub | Div => isRightSide position
        | _ => false
        end
      else false
  | _ => false
  end.

(** [nodeToString]; its two optional parameters are not read by its
    body. *)
Fixpoint nodeToString (n : node) : string :=
  match n with
  | NNumber value => formatNumber value
  | NVariable name => name
  | NUnary op argument =>
      let inner := nodeToString argument in
      if String.eqb op "u-" then
        "-" ++ (if needsParens argument then "(" ++ inner ++ ")" else inner)
      else op ++ inner
  | NFunction name argument => name ++ "(" ++ nodeToString argument ++ ")"
  | NBinary op l r =>
      let currentPrec := getPrecedence n in
      let leftStr := nodeToString l in
      let rightStr := nodeToString r in
      let leftNeeds := shouldWrap l currentPrec LeftSide op in
      let rightNeeds := shouldWrap r currentPrec RightSide op in
      let leftText := if leftNeeds then "(" ++ leftStr ++ ")" else leftStr in
      let rightText := if rightNeeds then "(" ++ rightStr ++ ")" else rightStr in
      leftText ++ " " ++ opSymbol op ++ " " ++ rightText
  end.

(** ** Products and sums *)

Section Solver.
Context {ML : MathLib}.

(** The factors of a product with their position: [true] marks a factor of
    the denominator. *)
Fixpoint flattenProductFrom (current : node) (denominator : bool)
    : list (node * bool) :=
  match current with
  | NBinary Mul l r =>
      flattenProductFrom l denominator ++ flattenProductFrom r denominator
  | NBinary Div l r =>
      flattenProductFrom l denominator ++ flattenProductFrom r (negb denominator)
  | _ => [(current, denominator)]
  end.

Definition flattenProduct (n : node) : list (node * bool) :=
  flattenProductFrom n false.

(** The terms of a sum; [negative] is the sign [-1]. *)
Fixpoint flattenSumFrom (current : node) (negative : bool) : list node :=
  match current with
  | NBinary Add l r => flattenSumFrom l negative ++ flattenSumFrom r negative
  | NBinary Sub l r => flattenSumFrom l negative ++ flattenSumFrom r (negb negative)
  | _ =>
      if negative then [makeMul (createNumber (Fin (-1))) current]
      else [current]
  end.

Definition flattenSum (n : node) : list node := flattenSumFrom n false.

(** [nodes.reduce((acc, node) => (acc ? op(acc, node) : node), null)]. *)
Definition reduceNodes (op : node -> node -> node) (nodes : list node)
    : option node :=
  fold_left
    (fun acc n => match acc with Some a => Some (op a n) | None => Some n end)
    nodes None.

Definition productOf (nodes : list node) : node :=
  match reduceNodes makeMul nodes with
  | Some n => n
  | None => createNumber (Fin 1)
  end.

Definition sumNodes (nodes : list node) : node :=
  match reduceNodes makeAdd nodes with
  | Some n => n
  | None => createNumber (Fin 0)
  end.

Definition buildProduct (numeratorNodes denominatorNodes : list node) : node :=
  simplifyNode (fold_left makeDiv denominatorNodes (productOf numeratorNodes)).

(** ** Classification *)

(** The six lists filled by the loop of [detectSeparable]. *)
Record factorGroups : Type := mkGroups {
  xNum : list node; xDen : list node;
  yNum : list node; yDen : list node;
  cNum : list node; cDen : list node
}.

Fixpoint groupFactors (factors : list (node * bool)) (g : factorGroups)
    : option factorGroups :=
  match factors with
  | [] => Some g
  | (n, inDenominator) :: rest =>
      let hasX := dependsOn n "x" in
      let hasY := dependsOn n "y" in
      if hasX && hasY then None
      else if hasY then
        if inDenominator
        then groupFactors rest (mkGroups (xNum g) (xDen g) (yNum g) (yDen g ++ [n]) (cNum g) (cDen g))
        else groupFactors rest (mkGroups (xNum g) (xDen g) (yNum g ++ [n]) (yDen g) (cNum g) (cDen g))
      else if hasX then
        if inDenominator
        then groupFactors rest (mkGroups (xNum g) (xDen g ++ [n]) (yNum g) (yDen g) (cNum g) (cDen g))
        else groupFactors rest (mkGroups (xNum g ++ [n]) (xDen g) (yNum g) (yDen g) (cNum g) (cDen g))
      else
        if inDenominator
        then groupFactors rest (mkGroups (xNum g) (xDen g) (yNum g) (yDen g) (cNum g) (cDen g ++ [n]))
        else groupFactors rest (mkGroups (xNum g) (xDen g) (yNum g) (yDen g) (cNum g ++ [n]) (cDen g))
  end.

Definition isEmpty {A : Type} (l : list A) : bool :=
  match l with [] => true | _ => false end.

(** [detectSeparable]: the pair [(xPart, yPart)], or [None] for [null]. *)
Definition detectSeparable (rhs : node) : option (node * node) :=
  let factors := flattenProduct rhs in
  match groupFactors factors (mkGroups [] [] [] [] [] []) with
  | None => None
  | Some g =>
      if isEmpty (yNum g) && isEmpty (yDen g) then None
      else
        let xPart := buildProduct (xNum g ++ cNum g) (xDen g ++ cDen g) in
        let yPart := buildProduct (yNum g) (yDen g) in
        if negb (dependsOn yPart "y") then None
        else Some (xPart, yPart)
  end.

(** The loop of [extractLinearCoefficient]. *)
Fixpoint coefficientFactors (factors : list (node * bool))
    (numerator denominator : list node) (yCount : nat)
    : option (list node * list node * nat) :=
  match factors with
  | [] => Some (numerator, denominator, yCount)
  | (n, inDenominator) :: rest =>
      if inDenominator then
        if dependsOn n "y" then None
        else coefficientFactors rest numerator (denominator ++ [n]) yCount
      else if isVariableNode n "y" then
        coefficientFactors rest numerator denominator (S yCount)
      else
        match n with
        | NBinary Pow l (NNumber value) =>
            if isVariableNode l "y" then
              if nlt (nabs (nsub value (Fin 1))) tolerance
              then coefficientFactors rest numerator denominator (S yCount)
              else None
            else if dependsOn n "y" then None
            else coefficientFactors rest (numerator ++ [n]) denominator yCount
        | _ =>
            if dependsOn n "y" then None
            else coefficientFactors rest (numerator ++ [n]) denominator yCount
        end
  end.

Definition extractLinearCoefficient (term : node) : option node :=
  match coefficientFactors (flattenProduct term) [] [] 0 with
  | Some (numerator, denominator, yCount) =>
      if (yCount =? 1)%nat then Some (buildProduct numerator denominator)
      else None
  | None => None
  end.

(** The loop of [detectLinear]. *)
Fixpoint splitTerms (terms coefficientTerms freeTerms : list node)
    : option (list node * list node) :=
  match terms with
  | [] => Some (coefficientTerms, freeTerms)
  | term :: rest =>
      if dependsOn term "y" then
        match extractLinearCoefficient term with
        | None => None
        | Some coeff => splitTerms rest (coefficientTerms ++ [coeff]) freeTerms
        end
      else splitTerms rest coefficientTerms (freeTerms ++ [term])
  end.

(** [detectLinear]: the pair [(aNode, bNode)], or [None] for [null]. *)
Definition detectLinear (rhs : node) : option (node * node) :=
  match splitTerms (flattenSum rhs) [] [] with
  | None => None
  | Some (coefficientTerms, freeTerms) =>
      if isEmpty coefficientTerms then None
      else
        let aNode := simplifyNode (sumNodes coefficientTerms) in
        let bNode := simplifyNode (sumNodes freeTerms) in
        if dependsOn aNode "y" || dependsOn bNode "y" then None
        else Some (aNode, bNode)
  end.

Inductive classification : Type :=
| Direct (rhs : node)
| Separable (rhs xPart yPart : node)
| Linear (rhs aNode bNode : node)
| Unsupported (rhs : node).

Definition classifyEquation (rhs : node) : classification :=
  if negb (dependsOn rhs "y") then Direct rhs
  else
    match detectSeparable rhs with
    | Some (xPart, yPart) => Separable rhs xPart yPart
    | None =>
        match detectLinear rhs with
        | Some (aNode, bNode) => Linear rhs aNode bNode
        | None => Unsupported rhs
        end
    end.

End Solver.

(** ** Solutions *)

(** The object returned with the status ['ok'].  Of each step the equation
    line is kept; the titles, the descriptions and the hint are fixed
    texts. *)
Record solved : Type := mkSolved {
  classificationName : string;
  normalizedEquation : string;
  equationLines : list (option string);
  finalSolution : string;
  rhsNode : node
}.

(** The objects returned by [processEquation], by status. *)
Inductive outcome : Type :=
| StatusOk (solution : solved)
| StatusUnsupported
| StatusError (e : error).

Definition status (o : outcome) : string :=
  match o with
  | StatusOk _ => "ok"
  | StatusUnsupported => "unsupported"
  | StatusError _ => "error"
  end.

(** The fixed text of the message of each exception; an identifier, a
    character or a name that the program appends is the argument of the
    constructor. *)
Definition errorMessage (e : error) : string :=
  match e with
  | InvalidNumber => "عدد نامعتبر است."
  | UnknownSymbol _ => "نماد ناشناخته: "
  | InvalidCharacter _ => "کاراکتر نامعتبر: "
  | UnmatchedParen => "پرانتز جفت نشده است."
  | UnaryLacksArgument => "عملگر یکتا آرگومان کافی ندارد."
  | BinaryLacksArgument => "عملگر دودویی آرگومان کافی ندارد."
  | FunctionLacksArgument => "تابع بدون آرگومان است."
  | UnknownToken => "توکن ناشناخته در ساخت AST"
  | InvalidStructure => "ساختار معادله نامعتبر است."
  | EmptyExpression => "عبارت خالی است."
  | UndefinedVariable _ => "مقدار تعریف نشده است."
  | UnsupportedUnary => "عملگر یکتا پشتیبانی نمی‌شود."
  | UnsupportedFunction _ => "تابع پشتیبانی نمی‌شود."
  | MissingEquals => "معادله باید شامل علامت = باشد."
  | BadLeftSide => "سمت چپ معادله باید به صورت dy/dx باشد."
  | RhsNotIntegrable => "انتگرال سمت راست به سادگی قابل محاسبه نیست."
  | SeparableNotIntegrable => "انتگرال‌های لازم برای حل جداشدنی در دسترس نبودند."
  | PNotIntegrable => "انتگرال P(x) به سادگی محاسبه نشد."
  | OutOfFuel => ""
  end.

Record parsedEquation : Type := mkParsed {
  parsed_rhs : node;
  parsed_normalizedEquation : string
}.

Section Solutions.
Context {ML : MathLib}.

Definition buildDirectSolution (parsed : parsedEquation) (rhs : node)
    : result solved :=
  match integrate rhs "x" with
  | None => Throw RhsNotIntegrable
  | Some integral =>
      let rhsText := nodeToString rhs in
      let integralText := nodeToString integral in
      let steps :=
        [None;
         Some ("∫ dy = ∫ (" ++ rhsText ++ ") dx");
         Some ("y(x) = " ++ integralText ++ " + C")] in
      Ok (mkSolved "direct" (parsed_normalizedEquation parsed) steps
            ("y(x) = " ++ integralText ++ " + C") rhs)
  end.

Definition deriveExplicitFromSeparable (leftIntegral rightIntegral : node)
    : option string :=
  match leftIntegral with
  | NFunction name (NFunction inner argument) =>
      if String.eqb name "ln" && String.eqb inner "abs" && isVariableNode argument "y"
      then Some ("y = C · exp(" ++ nodeToString rightIntegral ++ ")")
      else None
  | _ => None
  end.

Definition buildSeparableSolution (parsed : parsedEquation) (rhs xPart yPart : node)
    : result solved :=
  let xText := nodeToString xPart in
  let yText := nodeToString yPart in
  let leftIntegrand := simplifyNode (makeDiv (createNumber (Fin 1)) yPart) in
  let rightIntegrand := simplifyNode xPart in
  match integrate leftIntegrand "y", integrate rightIntegrand "x" with
  | Some leftIntegral, Some rightIntegral =>
      let leftText := nodeToString leftIntegral in
      let rightText := nodeToString rightIntegral in
      let implicitSolution := leftText ++ " = " ++ rightText ++ " + C" in
      let explicit := deriveExplicitFromSeparable leftIntegral rightIntegral in
      let steps :=
        List.app
          [None;
           Some ("1/(" ++ yText ++ ") dy = (" ++ xText ++ ") dx");
           Some ("∫ 1/(" ++ yText ++ ") dy = ∫ (" ++ xText ++ ") dx");
           Some implicitSolution]
          match explicit with
          | Some text => [Some text]
          | None => []
          end in
      Ok (mkSolved "separable" (parsed_normalizedEquation parsed) steps
            (match explicit with Some text => text | None => implicitSolution end)
            rhs)
  | _, _ => Throw SeparableNotIntegrable
  end.

(** The text of the solution when the integral of [mu * Q] is found, and
    when it is not. *)
Definition explicitLinearText (integratedMuQText muText : string) : string :=
  "y(x) = (" ++ integratedMuQText ++ " + C) / " ++ muText.

Definition implicitLinearText (muText muQText : string) : string :=
  "y(x) = (1/" ++ muText ++ ") * (∫ (" ++ muQText ++ ") dx + C)".

Definition buildLinearSolution (parsed : parsedEquation) (rhs aNode bNode : node)
    : result solved :=
  let P := simplifyNode (makeNeg aNode) in
  let Q := simplifyNode bNode in
  let pText := nodeToString P in
  let qText := nodeToString Q in
  match integrate P "x" with
  | None => Throw PNotIntegrable
  | Some integralP =>
      let muNode := simplifyNode (createFunction "exp" (cloneNode integralP)) in
      let muText := nodeToString muNode in
      let integralPText := nodeToString integralP in
      let muQNode := simplifyNode (makeMul muNode Q) in
      let integralMuQ := integrate muQNode "x" in
      let muQText := nodeToString muQNode in
      let finalExpression :=
        match integralMuQ with
        | Some integrated => explicitLinearText (nodeToString integrated) muText
        | None => implicitLinearText muText muQText
        end in
      let steps :=
        [None;
         Some ("P(x) = " ++ pText ++ "   ،   Q(x) = " ++ qText);
         Some ("μ(x) = exp(" ++ integralPText ++ ") = " ++ muText);
         Some ("d/dx [μ(x) · y] = μ(x) · Q(x) = " ++ muQText);
         Some ("μ(x) · y = ∫ (" ++ muQText ++ ") dx + C");
         Some finalExpression] in
      Ok (mkSolved "linear" (parsed_normalizedEquation parsed) steps
            finalExpression rhs)
  end.

(** ** The entry point *)

(** [replace(/\s+/g, ' ')]. *)
Fixpoint collapseWhiteSpace (s : list codeUnit) : list codeUnit :=
  match s with
  | [] => []
  | c :: rest =>
      if isWhiteSpace c then
        match rest with
        | d :: _ => if isWhiteSpace d then collapseWhiteSpace rest
                    else 32%N :: collapseWhiteSpace rest
        | [] => [32%N]
        end
      else c :: collapseWhiteSpace rest
  end.

(** [replace(/،/g, ',')]: the comma U+060C. *)
Definition replaceArabicComma (s : list codeUnit) : list codeUnit :=
  map (fun c => if (c =? 1548)%N then 44%N else c) s.

(** [replace(/\s+/g, '')]. *)
Definition removeWhiteSpace (s : list codeUnit) : list codeUnit :=
  filter (fun c => negb (isWhiteSpace c)) s.

(** The first two parts of [split('=')]. *)
Definition splitEquals (s : list codeUnit) : list codeUnit * list codeUnit :=
  let (lhs, rest) := span (fun c => negb (c =? 61)%N) s in
  match rest with
  | _ :: after => (lhs, fst (span (fun c => negb (c =? 61)%N) after))
  | [] => (lhs, [])
  end.

Definition parseDifferentialEquation (rawInput : list codeUnit)
    : result parsedEquation :=
  let cleaned := trim (replaceArabicComma (collapseWhiteSpace rawInput)) in
  if negb (existsb (N.eqb 61) cleaned) then Throw MissingEquals
  else
    let (lhsPart, rhsPart) := splitEquals cleaned in
    let lhsRaw := trim lhsPart in
    let rhsRaw := trim rhsPart in
    let lhsNormalized := toLowerCase (removeWhiteSpace lhsRaw) in
    if negb (unitsEqb lhsNormalized (str "dy/dx")) then Throw BadLeftSide
    else
      do rhsAst <- parseExpression rhsRaw;
      Ok (mkParsed rhsAst ("dy/dx = " ++ nodeToString rhsAst)).

Definition solve (parsed : parsedEquation) : result outcome :=
  match classifyEquation (parsed_rhs parsed) with
  | Direct rhs =>
      do solution <- buildDirectSolution parsed rhs; Ok (StatusOk solution)
  | Separable rhs xPart yPart =>
      do solution <- buildSeparableSolution parsed rhs xPart yPart;
      Ok (StatusOk solution)
  | Linear rhs aNode bNode =>
      do solution <- buildLinearSolution parsed rhs aNode bNode;
      Ok (StatusOk solution)
  | Unsupported _ => Ok StatusUnsupported
  end.

(** [processEquation]: the body of the [try] block, and the object of the
    [catch] clause when it throws. *)
Definition processEquation (rawInput : list codeUnit) : outcome :=
  match (do parsed <- parseDifferentialEquation rawInput; solve parsed) with
  | Ok o => o
  | Throw e => StatusError e
  end.

End Solutions.

(** ** The virtual keyboard *)

(** The text field that the keys edit: its value and the two ends of its
    selection, in code units.  The browser keeps the ends within the value,
    the start not after the end. *)
Record textField : Type := mkField {
  fieldValue : list codeUnit;
  selectionStart : nat;
  selectionEnd : nat
}.

(** A key of [KEY_LAYOUT]; a key without [cursorOffset] has [None]. *)
Record key : Type := mkKey {
  keyLabel : string;
  keyValue : list codeUnit;
  cursorOffset : option nat
}.

Definition KEY_LAYOUT : list (list key) :=
  [ [ mkKey "dy/dx" (str "dy/dx") (Some 0%nat);
      mkKey "=" (str " = ") None;
      mkKey "+" (str " + ") None;
      mkKey "-" (str " - ") None;
      mkKey "×" (str " * ") None;
      mkKey "÷" (str " / ") None ];
    [ mkKey "x" (str "x") None;
      mkKey "y" (str "y") None;
      mkKey "^" (str "^") None;
      mkKey "(" (str "(") None;
      mkKey ")" (str ")") None;
      mkKey "," (str ",") None ];
    [ mkKey "sin" (str "sin()") (Some 1%nat);
      mkKey "cos" (str "cos()") (Some 1%nat);
      mkKey "tan" (str "tan()") (Some 1%nat);
      mkKey "exp" (str "exp()") (Some 1%nat);
      mkKey "ln" (str "ln()") (Some 1%nat);
      mkKey "√" (str "sqrt()") (Some 1%nat) ];
    [ mkKey "π" (str "pi") None;
      mkKey "e" (str "e") None;
      mkKey "|y|" (str "abs(y)") None;
      mkKey "y′" (str "dy/dx = ") None;
      mkKey "←" (str "BACKSPACE") None ] ].

(** [key.cursorOffset || 0]. *)
Definition offsetOf (k : key) : nat :=
  match cursorOffset k with Some offset => offset | None => 0%nat end.

(** The two assignments of [setSelection]: the position is read as an
    unsigned number of 32 bits, and a position after the end of the value
    is the end of the value. *)
Definition setSelection (target : textField) (position : Z) : textField :=
  let p := Nat.min (Z.to_nat (position mod 2 ^ 32))
                   (List.length (fieldValue target)) in
  mkField (fieldValue target) p p.

(** The assignment to [target.value]. *)
Definition setValue (target : textField) (value : list codeUnit) : textField :=
  mkField value (List.length value) (List.length value).

Definition insertText (target : textField) (text : list codeUnit)
    (offset : nat) : textField :=
  let start := selectionStart target in
  let before := firstn start (fieldValue target) in
  let after := skipn (selectionEnd target) (fieldValue target) in
  let newPosition :=
    (Z.of_nat start + Z.of_nat (List.length text) - Z.of_nat offset)%Z in
  setSelection (setValue target (before ++ text ++ after)) newPosition.

Definition handleKeyPress (target : textField) (k : key) : textField :=
  if unitsEqb (keyValue k) (str "BACKSPACE") then
    let start := selectionStart target in
    let finish := selectionEnd target in
    if (start =? finish)%nat && (0 <? start)%nat then
      let before := firstn (start - 1) (fieldValue target) in
      let after := skipn finish (fieldValue target) in
      setSelection (setValue target (before ++ after)) (Z.of_nat start - 1)
    else
      let before := firstn start (fieldValue target) in
      let after := skipn finish (fieldValue target) in
      setSelection (setValue target (before ++ after)) (Z.of_nat start)
  else insertText target (keyValue k) (offsetOf k).

(** * Part II: properties *)

Local Close Scope string_scope.
Local Close Scope N_scope.

(** ** The simplifier is idempotent *)

Section SimplifierFacts.
Context {ML : MathLib}.

Lemma simplifyBinary_fixed (op : binop) (l r : node) :
  simplifyNode l = l -> simplifyNode r = r ->
  simplifyNode (simplifyBinary op l r) = simplifyBinary op l r.
Proof.
  intros Hl Hr.
  assert (Hkeep : simplifyBinary op l r = NBinary op l r ->
                  simplifyNode (simplifyBinary op l r) = simplifyBinary op l r).
  { intros E. rewrite E at 1. simpl. rewrite Hl, Hr. reflexivity. }
  unfold simplifyBinary in *.
  destruct l as [lv|lx|lo la|lf la|lo ll lr];
    destruct r as [rv|rx|ro ra|rf ra|ro rl rr];
    try reflexivity;
    destruct op; cbn [isZeroNode isOneNode orb] in *;
    repeat match goal with
    | |- context [if ?b then _ else _] => destruct b eqn:?; cbn [orb] in *
    end;
    try reflexivity; try assumption; try (apply Hkeep; reflexivity).
Qed.

Lemma simplifyNode_simplified (n : node) :
  simplifyNode (simplifyNode n) = simplifyNode n.
Proof.
  induction n as [v|x|op a IHa|f a IHa|op l IHl r IHr]; simpl.
  - reflexivity.
  - reflexivity.
  - destruct (String.eqb op "u-") eqn:Hop.
    + destruct (simplifyNode a) eqn:Ha; simpl; try reflexivity;
        simpl in IHa; rewrite ?IHa; reflexivity.
    + simpl. rewrite Hop, IHa. reflexivity.
  - unfold createFunction. simpl. rewrite IHa. reflexivity.
  - apply simplifyBinary_fixed; assumption.
Qed.

(** C2: simplifying an already simplified node changes nothing. *)
Theorem simplifyNode_idempotent (n : node) :
  simplifyNode (simplifyNode n) = simplifyNode n.
Proof. exact (simplifyNode_simplified n). Qed.

End SimplifierFacts.

Section EvaluatorFacts.
Context {ML : MathLib}.

(** C8: the derivative evaluator is a total function into the numbers; its
    result is finite or [NaN], and it is [NaN] exactly when the evaluation of
    the node throws or yields a value that is not finite. *)
Theorem createDerivativeEvaluator_fails_closed (rhsNode : node) (x y : num) :
  (isFinite (createDerivativeEvaluator rhsNode x y) = true \/
   createDerivativeEvaluator rhsNode x y = NaN) /\
  (createDerivativeEvaluator rhsNode x y = NaN <->
   (exists e, evaluateNode rhsNode (xyScope x y) = Throw e) \/
   (exists v, evaluateNode rhsNode (xyScope x y) = Ok v /\ isFinite v = false)).
Proof.
  unfold createDerivativeEvaluator.
  destruct (evaluateNode rhsNode (xyScope x y)) as [v|e].
  - destruct (isFinite v) eqn:Hv; simpl; split.
    + left. exact Hv.
    + split.
      * intros ->. discriminate Hv.
      * intros [[e He]|[w [Hw Hf]]]; [discriminate He|].
        injection Hw as <-. congruence.
    + right. reflexivity.
    + split; [|reflexivity].
      intros _. right. exists v. split; [reflexivity|assumption].
  - split; [right; reflexivity|].
    split; [|reflexivity].
    intros _. left. exists e. reflexivity.
Qed.

End EvaluatorFacts.

(** The three outcomes: a finite value, an exception (the name [t] is not
    bound in the scope), and a value that is not finite ([1 / 0]). *)
Example evaluator_finite :
  createDerivativeEvaluator (ML := rationalMath)
    (NBinary Add (NVariable "x") (NVariable "y")) (Fin 1) (Fin 2) = Fin 3.
Proof. reflexivity. Qed.

Example evaluator_unbound_variable :
  evaluateNode (ML := rationalMath) (NVariable "t") (xyScope (Fin 1) (Fin 2)) =
    Throw (UndefinedVariable "t") /\
  createDerivativeEvaluator (ML := rationalMath) (NVariable "t") (Fin 1) (Fin 2) = NaN.
Proof. split; reflexivity. Qed.

Example evaluator_division_by_zero :
  evaluateNode (ML := rationalMath)
    (NBinary Div (NNumber (Fin 1)) (NVariable "x")) (xyScope (Fin 0) (Fin 2)) =
    Ok PInf /\
  createDerivativeEvaluator (ML := rationalMath)
    (NBinary Div (NNumber (Fin 1)) (NVariable "x")) (Fin 0) (Fin 2) = NaN.
Proof. split; reflexivity. Qed.

(** ** Values up to representation *)

(** Two numbers denote the same value. *)
Definition num_equiv (x y : num) : Prop :=
  match x, y with
  | Fin a, Fin b => a == b
  | PInf, PInf | NInf, NInf | NaN, NaN => True
  | _, _ => False
  end.

Infix "=~=" := num_equiv (at level 70, no associativity).

Lemma num_equiv_refl (x : num) : x =~= x.
Proof. destruct x; simpl; auto. reflexivity. Qed.

Lemma num_equiv_sym (x y : num) : x =~= y -> y =~= x.
Proof. destruct x, y; simpl; auto. intros H. symmetry. exact H. Qed.

Lemma num_equiv_trans (x y z : num) : x =~= y -> y =~= z -> x =~= z.
Proof.
  destruct x, y, z; simpl; auto; try contradiction.
  intros H1 H2. rewrite H1. exact H2.
Qed.

Lemma fin_equiv (a b : Q) : a == b -> fin a =~= Fin b.
Proof. intros H. unfold fin. simpl. rewrite Qred_correct. exact H. Qed.

Lemma fin_comp (a b : Q) : a == b -> fin a = fin b.
Proof. intros H. unfold fin. f_equal. apply Qred_complete. exact H. Qed.

Lemma canon_comp (x y : num) : x =~= y -> canon x = canon y.
Proof.
  destruct x, y; simpl; try contradiction; auto. apply fin_comp.
Qed.

Lemma Qlt_bool_iff (a b : Q) : Qlt_bool a b = true <-> a < b.
Proof.
  unfold Qlt_bool. rewrite negb_true_iff.
  split.
  - intros H. apply Qnot_le_lt. intros Hle.
    apply Qle_bool_iff in Hle. congruence.
  - intros H. destruct (Qle_bool b a) eqn:E; [|reflexivity].
    apply Qle_bool_iff in E. exfalso. revert E. apply Qlt_not_le. exact H.
Qed.

Lemma Qlt_bool_false_iff (a b : Q) : Qlt_bool a b = false <-> b <= a.
Proof.
  unfold Qlt_bool. rewrite negb_false_iff. apply Qle_bool_iff.
Qed.

Lemma Qeq_bool_false_iff (a b : Q) : Qeq_bool a b = false <-> ~ a == b.
Proof.
  split.
  - intros H E. apply Qeq_bool_iff in E. congruence.
  - intros H. destruct (Qeq_bool a b) eqn:E; [|reflexivity].
    apply Qeq_bool_iff in E. contradiction.
Qed.

Lemma Qeq_bool_comp (a a' b b' : Q) :
  a == a' -> b == b' -> Qeq_bool a b = Qeq_bool a' b'.
Proof.
  intros Ha Hb.
  destruct (Qeq_bool a b) eqn:E; symmetry.
  - apply Qeq_bool_iff. apply Qeq_bool_iff in E. rewrite <- Ha, <- Hb. exact E.
  - apply Qeq_bool_false_iff. apply Qeq_bool_false_iff in E.
    rewrite <- Ha, <- Hb. exact E.
Qed.

Lemma Qlt_bool_comp (a a' b b' : Q) :
  a == a' -> b == b' -> Qlt_bool a b = Qlt_bool a' b'.
Proof.
  intros Ha Hb.
  destruct (Qlt_bool a b) eqn:E; symmetry.
  - apply Qlt_bool_iff. apply Qlt_bool_iff in E. rewrite <- Ha, <- Hb. exact E.
  - apply Qlt_bool_false_iff. apply Qlt_bool_false_iff in E.
    rewrite <- Ha, <- Hb. exact E.
Qed.

Lemma Qis_int_comp (a a' : Q) : a == a' -> Qis_int a = Qis_int a'.
Proof.
  intros Ha. unfold Qis_int.
  rewrite (Qfloor_comp _ _ Ha). apply Qeq_bool_comp; [reflexivity|exact Ha].
Qed.

Section ArithmeticFacts.
Context {ML : MathLib}.

Lemma Math_pow_comp (a a' b b' : Q) :
  a == a' -> b == b' ->
  Math_pow (Fin a) (Fin b) =~= Math_pow (Fin a') (Fin b').
Proof.
  intros Ha Hb. unfold Math_pow, num_eqb, nlt.
  rewrite (Qeq_bool_comp b b' 0 0 Hb (Qeq_refl 0)).
  destruct (Qeq_bool b' 0); [reflexivity|].
  rewrite (Qeq_bool_comp a a' 0 0 Ha (Qeq_refl 0)).
  rewrite (Qlt_bool_comp 0 0 b b' (Qeq_refl 0) Hb).
  destruct (Qeq_bool a' 0).
  - destruct (Qlt_bool 0 b'); apply num_equiv_refl.
  - rewrite (Qis_int_comp b b' Hb).
    destruct (Qis_int b').
    + rewrite (Qfloor_comp _ _ Hb).
      rewrite (fin_comp (a ^ Qfloor b') (a' ^ Qfloor b')).
      * apply num_equiv_refl.
      * rewrite Ha. reflexivity.
    + rewrite (Qlt_bool_comp a a' 0 0 Ha (Qeq_refl 0)).
      destruct (Qlt_bool a' 0); [exact I|].
      rewrite (Qred_complete _ _ Ha), (Qred_complete _ _ Hb).
      apply num_equiv_refl.
Qed.

Lemma ndiv_comp (a a' b b' : Q) :
  a == a' -> b == b' -> ndiv (Fin a) (Fin b) =~= ndiv (Fin a') (Fin b').
Proof.
  intros Ha Hb. unfold ndiv.
  rewrite (Qeq_bool_comp b b' 0 0 Hb (Qeq_refl 0)).
  rewrite (Qeq_bool_comp a a' 0 0 Ha (Qeq_refl 0)).
  destruct (Qeq_bool b' 0).
  - destruct (Qeq_bool a' 0); [exact I|].
    unfold isNeg. rewrite (Qlt_bool_comp a a' 0 0 Ha (Qeq_refl 0)).
    apply num_equiv_refl.
  - rewrite (fin_comp (a / b) (a' / b')).
    + apply num_equiv_refl.
    + rewrite Ha, Hb. reflexivity.
Qed.

Lemma evalBinary_comp (op : binop) (a a' b b' : Q) :
  a == a' -> b == b' ->
  evalBinary op (Fin a) (Fin b) =~= evalBinary op (Fin a') (Fin b').
Proof.
  intros Ha Hb. destruct op; unfold evalBinary, nadd, nsub, nmul.
  - rewrite (fin_comp (a + b) (a' + b')).
    + apply num_equiv_refl.
    + rewrite Ha, Hb. reflexivity.
  - rewrite (fin_comp (a - b) (a' - b')).
    + apply num_equiv_refl.
    + rewrite Ha, Hb. reflexivity.
  - rewrite (fin_comp (a * b) (a' * b')).
    + apply num_equiv_refl.
    + rewrite Ha, Hb. reflexivity.
  - apply ndiv_comp; assumption.
  - apply Math_pow_comp; assumption.
Qed.

End ArithmeticFacts.

(** ** The simplifier and evaluation *)

(** The numbers of the program are the binary64 numbers, and its
    arithmetic rounds to them; the arithmetic of Part I computes with the
    rationals and does not round.  [round64 q] is the binary64 number
    nearest to [q], the even one of two that are as near, for [q] below the
    overflow threshold: the number that the program has for the decimal
    [q]. *)
Definition floorLog2 (q : Q) : Z :=
  let guess := (Z.log2 (Qnum q) - Z.log2 (Zpos (Qden q)))%Z in
  if Qle_bool (2 ^ guess) q then guess else (guess - 1)%Z.

Definition roundHalfEven (q : Q) : Z :=
  let below := Qfloor q in
  let rest := q - inject_Z below in
  if Qlt_bool rest (1 # 2) then below
  else if Qlt_bool (1 # 2) rest then (below + 1)%Z
  else if Z.even below then below else (below + 1)%Z.

Definition round64 (q : Q) : Q :=
  let lowest := Qred q in
  if Qeq_bool lowest 0 then 0
  else
    let size := Qabs lowest in
    let exponent := Z.max (floorLog2 size - 52) (-1074) in
    let digits := roundHalfEven (size / 2 ^ exponent) in
    Qred ((if Qlt_bool lowest 0 then -1 else 1) * inject_Z digits * 2 ^ exponent).

(** [q] is a finite binary64 number. *)
Definition isBinary64 (q : Q) : bool :=
  Qeq_bool (round64 q) q && Qlt_bool (Qabs q) (2 ^ 1024).

(** An arithmetic: its numbers, the operations of [evalBinary], the unary
    minus, the functions of [evaluateFunction], and the two tests of the
    simplifier, [Math.abs(value) < 1e-9] and [Math.abs(value - 1) < 1e-9]. *)
Record arithmetic : Type := mkArithmetic {
  ar_number : num -> bool;
  ar_binary : binop -> num -> num -> num;
  ar_negate : num -> num;
  ar_function : string -> num -> result num;
  ar_isZero : num -> bool;
  ar_isOne : num -> bool
}.

(** The result of an operation of the program: the binary64 number nearest
    to the result on the rationals, or an infinity past the largest
    one. *)
Definition into64 (value : num) : num :=
  match value with
  | Fin q =>
      let nearest := round64 q in
      if isBinary64 nearest then Fin nearest else inf (Qlt_bool q 0)
  | PInf | NInf | NaN => value
  end.

Definition isNumber64 (value : num) : bool :=
  match value with
  | Fin q => isBinary64 q
  | PInf | NInf | NaN => true
  end.

Section Arithmetics.
Context {ML : MathLib}.

(** The arithmetic of Part I, on the rationals. *)
Definition exact : arithmetic := {|
  ar_number := fun _ => true;
  ar_binary := evalBinary;
  ar_negate := nneg;
  ar_function := evalFunction;
  ar_isZero := fun value => nlt (nabs value) tolerance;
  ar_isOne := fun value => nlt (nabs (nsub value (Fin 1))) tolerance
|}.

(** The arithmetic of the program, but for the sign of zero: every
    operation is rounded, and so is the tolerance. *)
Definition binary64 : arithmetic := {|
  ar_number := isNumber64;
  ar_binary := fun op left right => into64 (evalBinary op left right);
  ar_negate := fun value => into64 (nneg value);
  ar_function := fun name value =>
    match evalFunction name value with
    | Ok result => Ok (into64 result)
    | Throw e => Throw e
    end;
  ar_isZero := fun value => nlt (nabs value) (into64 tolerance);
  ar_isOne := fun value =>
    nlt (nabs (into64 (nsub value (Fin 1)))) (into64 tolerance)
|}.

End Arithmetics.

Section WithArithmetic.
Variable A : arithmetic.

Definition isZeroWith (n : node) : bool :=
  match n with
  | NNumber value => ar_isZero A value
  | _ => false
  end.

Definition isOneWith (n : node) : bool :=
  match n with
  | NNumber value => ar_isOne A value
  | _ => false
  end.

(** [simplifyBinary] in the arithmetic [A]. *)
Definition simplifyBinaryWith (op : binop) (left right : node) : node :=
  match left, right with
  | NNumber lv, NNumber rv => createNumber (ar_binary A op lv rv)
  | _, _ =>
    match op with
    | Add =>
        if isZeroWith left then right
        else if isZeroWith right then left
        else createBinary op left right
    | Sub =>
        if isZeroWith right then left
        else createBinary op left right
    | Mul =>
        if isZeroWith left || isZeroWith right then createNumber (Fin 0)
        else if isOneWith left then right
        else if isOneWith right then left
        else createBinary op left right
    | Div =>
        if isZeroWith left then createNumber (Fin 0)
        else if isOneWith right then left
        else createBinary op left right
    | Pow =>
        if isZeroWith right then createNumber (Fin 1)
        else if isOneWith right then left
        else createBinary op left right
    end
  end.

(** [simplifyNode] in the arithmetic [A]. *)
Fixpoint simplifyWith (n : node) : node :=
  match n with
  | NNumber _ | NVariable _ => n
  | NUnary op argument =>
      let arg := simplifyWith argument in
      if String.eqb op "u-" then
        match arg with
        | NNumber value => createNumber (ar_negate A value)
        | _ => createUnary "u-" arg
        end
      else NUnary op arg
  | NFunction name argument => createFunction name (simplifyWith argument)
  | NBinary op l r => simplifyBinaryWith op (simplifyWith l) (simplifyWith r)
  end.

(** [evaluateNode] in the arithmetic [A]. *)
Fixpoint evaluateWith (n : node) (sc : scope) : result num :=
  match n with
  | NNumber value => Ok value
  | NVariable name =>
      match sc name with
      | None => Throw (UndefinedVariable name)
      | Some v => Ok v
      end
  | NUnary op argument =>
      do value <- evaluateWith argument sc;
      if String.eqb op "u-" then Ok (ar_negate A value) else Throw UnsupportedUnary
  | NFunction name argument =>
      do arg <- evaluateWith argument sc;
      ar_function A name arg
  | NBinary op l r =>
      do left <- evaluateWith l sc;
      do right <- evaluateWith r sc;
      Ok (ar_binary A op left right)
  end.

(** A finite number of the arithmetic. *)
Definition finiteNumber (r : result num) : bool :=
  match r with
  | Ok v => isFinite v && ar_number A v
  | Throw _ => false
  end.

(** [n] is defined in [sc], as an expression of real arithmetic is: it
    and all its subexpressions have values, which are finite numbers of
    the arithmetic.  The numbers of this development have one zero where
    the program has two, which differ in the infinite quotients by them
    only; where every subexpression is finite no such quotient is taken.
    In the program the node [1 / (2 ^ (1 / (x * 0)) + 1)] has the value [1]
    at [x = -1], where [x * 0] is the negative zero and its inverse the
    negative infinity, and its simplification, which takes [x * 0] for the
    literal [0], is the literal [0]. *)
Fixpoint definedIn (n : node) (sc : scope) : bool :=
  finiteNumber (evaluateWith n sc) &&
  match n with
  | NNumber _ | NVariable _ => true
  | NUnary _ argument | NFunction _ argument => definedIn argument sc
  | NBinary _ l r => definedIn l sc && definedIn r sc
  end.

Definition exactZero (n : node) : bool :=
  match n with
  | NNumber value => num_eqb value (Fin 0)
  | _ => false
  end.

Definition exactOne (n : node) : bool :=
  match n with
  | NNumber value => num_eqb value (Fin 1)
  | _ => false
  end.

(** An operand that the simplifier takes for [0] is the literal [0]. *)
Definition zeroIsExact (n : node) : bool := negb (isZeroWith n) || exactZero n.

(** An operand that the simplifier takes for [1] is the literal [1]. *)
Definition oneIsExact (n : node) : bool := negb (isOneWith n) || exactOne n.

(** On the simplified operands [l] and [r] of a binary node: the rules of
    [op] are applied to the literals [0] and [1] only.  Two literals are
    folded, and no rule is applied. *)
Definition ruleExactWith (op : binop) (l r : node) : bool :=
  isNumberNode l && isNumberNode r ||
  match op with
  | Add => zeroIsExact l && zeroIsExact r
  | Sub => zeroIsExact r
  | Mul => zeroIsExact l && zeroIsExact r && oneIsExact l && oneIsExact r
  | Div => zeroIsExact l && oneIsExact r
  | Pow => zeroIsExact r && oneIsExact r
  end.

(** [ruleExactWith] at every binary node of [n]. *)
Fixpoint rulesExact (n : node) : bool :=
  match n with
  | NNumber _ | NVariable _ => true
  | NUnary _ argument | NFunction _ argument => rulesExact argument
  | NBinary op l r =>
      rulesExact l && rulesExact r &&
      ruleExactWith op (simplifyWith l) (simplifyWith r)
  end.

End WithArithmetic.

(** The laws of an arithmetic that the simplifier relies on, on finite
    numbers: the results are numbers of the arithmetic, equal operands
    give equal results, and [0] and [1] are neutral or absorbing where the
    rules of the simplifier take them to be. *)
Record lawful (A : arithmetic) : Prop := mkLawful {
  law_zero : ar_number A (Fin 0) = true;
  law_one : ar_number A (Fin 1) = true;
  law_binary_number :
    forall op v w, ar_number A (ar_binary A op v w) = true;
  law_negate_number : forall v, ar_number A (ar_negate A v) = true;
  law_function_number :
    forall name v w, ar_function A name v = Ok w -> ar_number A w = true;
  law_binary_comp :
    forall op a a' b b', a == a' -> b == b' ->
    ar_binary A op (Fin a) (Fin b) =~= ar_binary A op (Fin a') (Fin b');
  law_negate_comp :
    forall a a', a == a' -> ar_negate A (Fin a) =~= ar_negate A (Fin a');
  law_function_comp :
    forall name a a', a == a' ->
    ar_function A name (Fin a) = ar_function A name (Fin a');
  law_add_zero_l :
    forall z w, z == 0 -> ar_number A (Fin w) = true ->
    ar_binary A Add (Fin z) (Fin w) =~= Fin w;
  law_add_zero_r :
    forall z w, z == 0 -> ar_number A (Fin w) = true ->
    ar_binary A Add (Fin w) (Fin z) =~= Fin w;
  law_sub_zero_r :
    forall z w, z == 0 -> ar_number A (Fin w) = true ->
    ar_binary A Sub (Fin w) (Fin z) =~= Fin w;
  law_mul_zero_l :
    forall z w, z == 0 -> ar_binary A Mul (Fin z) (Fin w) =~= Fin 0;
  law_mul_zero_r :
    forall z w, z == 0 -> ar_binary A Mul (Fin w) (Fin z) =~= Fin 0;
  law_mul_one_l :
    forall o w, o == 1 -> ar_number A (Fin w) = true ->
    ar_binary A Mul (Fin o) (Fin w) =~= Fin w;
  law_mul_one_r :
    forall o w, o == 1 -> ar_number A (Fin w) = true ->
    ar_binary A Mul (Fin w) (Fin o) =~= Fin w;
  law_div_zero_l :
    forall z w, z == 0 -> isFinite (ar_binary A Div (Fin z) (Fin w)) = true ->
    ar_binary A Div (Fin z) (Fin w) =~= Fin 0;
  law_div_one_r :
    forall o w, o == 1 -> ar_number A (Fin w) = true ->
    ar_binary A Div (Fin w) (Fin o) =~= Fin w;
  law_pow_zero_r :
    forall z w, z == 0 -> ar_binary A Pow (Fin w) (Fin z) =~= Fin 1;
  law_pow_one_r :
    forall o w, o == 1 -> ar_number A (Fin w) = true ->
    ar_binary A Pow (Fin w) (Fin o) =~= Fin w
}.

Lemma equiv_Fin_inv (v : num) (q : Q) :
  v =~= Fin q -> exists p, v = Fin p /\ p == q.
Proof.
  destruct v; simpl; try contradiction. intros H. eauto.
Qed.

Lemma isFinite_equiv (v w : num) : v =~= w -> isFinite v = isFinite w.
Proof. destruct v, w; simpl; try contradiction; reflexivity. Qed.

Lemma exactZero_literal (n : node) :
  exactZero n = true -> exists q, n = NNumber (Fin q) /\ q == 0.
Proof.
  destruct n as [[q| | |]| | | |]; try discriminate.
  intros H. exists q. split; [reflexivity|]. apply Qeq_bool_iff. exact H.
Qed.

Lemma exactOne_literal (n : node) :
  exactOne n = true -> exists q, n = NNumber (Fin q) /\ q == 1.
Proof.
  destruct n as [[q| | |]| | | |]; try discriminate.
  intros H. exists q. split; [reflexivity|]. apply Qeq_bool_iff. exact H.
Qed.

Section SimplifierSound.
Variable A : arithmetic.
Hypothesis laws : lawful A.

(** The value of a defined node. *)
Lemma definedIn_value (n : node) (sc : scope) :
  definedIn A n sc = true ->
  exists p, evaluateWith A n sc = Ok (Fin p) /\ ar_number A (Fin p) = true.
Proof.
  intros H.
  assert (F : finiteNumber A (evaluateWith A n sc) = true)
    by (destruct n; cbn [definedIn] in H; apply andb_true_iff in H; apply H).
  destruct (evaluateWith A n sc) as [[p| | |]|e]; try discriminate F.
  exists p. split; [reflexivity|]. exact F.
Qed.

Lemma definedIn_number (v : num) (sc : scope) :
  isFinite v = true -> ar_number A v = true ->
  definedIn A (NNumber v) sc = true.
Proof. intros F N. cbn. rewrite F, N. reflexivity. Qed.

Lemma zero_operand (n : node) (sc : scope) (p : Q) :
  zeroIsExact A n = true -> isZeroWith A n = true ->
  evaluateWith A n sc = Ok (Fin p) -> p == 0.
Proof.
  unfold zeroIsExact. intros X Z E. rewrite Z in X. cbn [negb orb] in X.
  destruct (exactZero_literal n X) as [q [-> Hq]].
  cbn in E. injection E as <-. exact Hq.
Qed.

Lemma one_operand (n : node) (sc : scope) (p : Q) :
  oneIsExact A n = true -> isOneWith A n = true ->
  evaluateWith A n sc = Ok (Fin p) -> p == 1.
Proof.
  unfold oneIsExact. intros X Z E. rewrite Z in X. cbn [negb orb] in X.
  destruct (exactOne_literal n X) as [q [-> Hq]].
  cbn in E. injection E as <-. exact Hq.
Qed.

(** The rule cascade keeps the value of the node. *)
Lemma simplifyBinaryWith_sound (op : binop) (l r : node) (sc : scope) (pl pr : Q) :
  ruleExactWith A op l r = true ->
  definedIn A l sc = true -> definedIn A r sc = true ->
  evaluateWith A l sc = Ok (Fin pl) -> evaluateWith A r sc = Ok (Fin pr) ->
  ar_number A (Fin pl) = true -> ar_number A (Fin pr) = true ->
  isFinite (ar_binary A op (Fin pl) (Fin pr)) = true ->
  definedIn A (simplifyBinaryWith A op l r) sc = true /\
  exists v,
    evaluateWith A (simplifyBinaryWith A op l r) sc = Ok v /\
    v =~= ar_binary A op (Fin pl) (Fin pr).
Proof.
  intros X Dl Dr El Er Nl Nr F.
  set (value := ar_binary A op (Fin pl) (Fin pr)) in *.
  assert (Keep : definedIn A (NBinary op l r) sc = true /\
                 exists v, evaluateWith A (NBinary op l r) sc = Ok v /\
                           v =~= value).
  { split.
    - cbn [definedIn evaluateWith]. rewrite El, Er, Dl, Dr. cbn [bind finiteNumber].
      fold value. rewrite F. unfold value. rewrite (law_binary_number A laws).
      reflexivity.
    - exists value. split; [|apply num_equiv_refl].
      cbn [evaluateWith]. rewrite El, Er. reflexivity. }
  assert (Left : value =~= Fin pl ->
                 definedIn A l sc = true /\
                 exists v, evaluateWith A l sc = Ok v /\ v =~= value).
  { intros H. split; [exact Dl|]. exists (Fin pl).
    split; [exact El|apply num_equiv_sym; exact H]. }
  assert (Right : value =~= Fin pr ->
                  definedIn A r sc = true /\
                  exists v, evaluateWith A r sc = Ok v /\ v =~= value).
  { intros H. split; [exact Dr|]. exists (Fin pr).
    split; [exact Er|apply num_equiv_sym; exact H]. }
  assert (Const : forall c, ar_number A (Fin c) = true -> value =~= Fin c ->
            definedIn A (NNumber (Fin c)) sc = true /\
            exists v, evaluateWith A (NNumber (Fin c)) sc = Ok v /\ v =~= value).
  { intros c N H. split; [apply definedIn_number; [reflexivity|exact N]|].
    exists (Fin c). split; [reflexivity|apply num_equiv_sym; exact H]. }
  destruct (isNumberNode l && isNumberNode r) eqn:Both.
  { apply andb_true_iff in Both. destruct Both as [Bl Br].
    destruct l as [lv| | | |]; try discriminate Bl.
    destruct r as [rv| | | |]; try discriminate Br.
    cbn in El, Er. injection El as ->. injection Er as ->.
    cbn [simplifyBinaryWith]. unfold createNumber. fold value. split.
    - apply definedIn_number; [exact F|apply (law_binary_number A laws)].
    - exists value. split; [reflexivity|apply num_equiv_refl]. }
  unfold ruleExactWith in X. rewrite Both in X. cbn [orb] in X.
  pose proof (zero_operand l sc pl) as Zl. pose proof (zero_operand r sc pr) as Zr.
  pose proof (one_operand l sc pl) as Ol. pose proof (one_operand r sc pr) as Or.
  assert (Rules :
    match op with
    | Add =>
        if isZeroWith A l then value =~= Fin pr
        else if isZeroWith A r then value =~= Fin pl
        else True
    | Sub => if isZeroWith A r then value =~= Fin pl else True
    | Mul =>
        if isZeroWith A l || isZeroWith A r then value =~= Fin 0
        else if isOneWith A l then value =~= Fin pr
        else if isOneWith A r then value =~= Fin pl
        else True
    | Div =>
        if isZeroWith A l then value =~= Fin 0
        else if isOneWith A r then value =~= Fin pl
        else True
    | Pow =>
        if isZeroWith A r then value =~= Fin 1
        else if isOneWith A r then value =~= Fin pl
        else True
    end).
  { unfold value. destruct op.
    - apply andb_true_iff in X. destruct X as [Xl Xr].
      destruct (isZeroWith A l); [|destruct (isZeroWith A r)]; auto.
      + apply (law_add_zero_l A laws); auto.
      + apply (law_add_zero_r A laws); auto.
    - destruct (isZeroWith A r); auto.
      apply (law_sub_zero_r A laws); auto.
    - apply andb_true_iff in X. destruct X as [X X1r].
      apply andb_true_iff in X. destruct X as [X X1l].
      apply andb_true_iff in X. destruct X as [Xl Xr].
      destruct (isZeroWith A l); [|destruct (isZeroWith A r)]; cbn [orb].
      { apply (law_mul_zero_l A laws); auto. }
      { apply (law_mul_zero_r A laws); auto. }
      destruct (isOneWith A l); [|destruct (isOneWith A r)]; auto.
      + apply (law_mul_one_l A laws); auto.
      + apply (law_mul_one_r A laws); auto.
    - apply andb_true_iff in X. destruct X as [Xl Xr].
      destruct (isZeroWith A l).
      { apply (law_div_zero_l A laws); auto. }
      destruct (isOneWith A r); auto.
      apply (law_div_one_r A laws); auto.
    - apply andb_true_iff in X. destruct X as [X0 X1].
      destruct (isZeroWith A r).
      { apply (law_pow_zero_r A laws); auto. }
      destruct (isOneWith A r); auto.
      apply (law_pow_one_r A laws); auto. }
  pose proof (Const 0 (law_zero A laws)) as Const0.
  pose proof (Const 1 (law_one A laws)) as Const1.
  clear Zl Zr Ol Or X Const.
  unfold simplifyBinaryWith, createNumber, createBinary.
  destruct l as [lv|lx|lo la|lf la|lo ll lr];
    destruct r as [rv|rx|ro ra|rf ra|ro rl rr];
    try discriminate Both;
    destruct op;
    repeat match goal with
    | |- context [if ?b then _ else _] => destruct b
    end;
    solve [ exact Keep | exact (Left Rules) | exact (Right Rules)
          | exact (Const0 Rules) | exact (Const1 Rules) ].
Qed.

(** The simplified node is defined where the node is, and has its value. *)
Lemma simplifyWith_sound (n : node) (sc : scope) :
  rulesExact A n = true -> definedIn A n sc = true ->
  definedIn A (simplifyWith A n) sc = true /\
  exists v v',
    evaluateWith A n sc = Ok v /\
    evaluateWith A (simplifyWith A n) sc = Ok v' /\
    v' =~= v.
Proof.
  induction n as [v|x|op a IHa|f a IHa|op l IHl r IHr]; intros X D.
  - split; [exact D|]. destruct (definedIn_value _ _ D) as [p [E _]].
    exists (Fin p), (Fin p). split; [exact E|]. split; [exact E|apply num_equiv_refl].
  - split; [exact D|]. destruct (definedIn_value _ _ D) as [p [E _]].
    exists (Fin p), (Fin p). split; [exact E|]. split; [exact E|apply num_equiv_refl].
  - destruct (definedIn_value _ _ D) as [p [E N]].
    cbn [rulesExact] in X. cbn [definedIn] in D.
    apply andb_true_iff in D. destruct D as [_ Da].
    destruct (IHa X Da) as [Da' [va [va' [Ea [Ea' Eq]]]]].
    destruct (definedIn_value _ _ Da) as [pa [Ea0 Na]].
    rewrite Ea0 in Ea. injection Ea as <-.
    apply equiv_Fin_inv in Eq. destruct Eq as [pa' [-> Eq]].
    cbn [evaluateWith] in E. rewrite Ea0 in E. cbn [bind] in E.
    destruct (String.eqb op "u-") eqn:Hop; [|discriminate E].
    injection E as E.
    assert (Same : ar_negate A (Fin pa') =~= Fin p).
    { rewrite <- E. apply (law_negate_comp A laws). exact Eq. }
    cbn [simplifyWith]. rewrite Hop.
    assert (G : definedIn A (NUnary "u-" (simplifyWith A a)) sc = true /\
                exists v v',
                  evaluateWith A (NUnary op a) sc = Ok v /\
                  evaluateWith A (NUnary "u-" (simplifyWith A a)) sc = Ok v' /\
                  v' =~= v).
    { split.
      - cbn [definedIn evaluateWith]. rewrite Ea', Da'. cbn [bind String.eqb].
        cbn. rewrite (isFinite_equiv _ _ Same), (law_negate_number A laws).
        reflexivity.
      - exists (Fin p), (ar_negate A (Fin pa')). split.
        + cbn [evaluateWith]. rewrite Ea0. cbn [bind]. rewrite Hop, E. reflexivity.
        + split; [|exact Same]. cbn [evaluateWith]. rewrite Ea'. reflexivity. }
    destruct (simplifyWith A a) as [w| | | |] eqn:Sa; try exact G.
    cbn in Ea'. injection Ea' as ->. unfold createNumber. split.
    + apply definedIn_number; [|apply (law_negate_number A laws)].
      rewrite (isFinite_equiv _ _ Same). reflexivity.
    + exists (Fin p), (ar_negate A (Fin pa')). split.
      * cbn [evaluateWith]. rewrite Ea0. cbn [bind]. rewrite Hop, E. reflexivity.
      * split; [reflexivity|exact Same].
  - destruct (definedIn_value _ _ D) as [p [E N]].
    cbn [rulesExact] in X. cbn [definedIn] in D.
    apply andb_true_iff in D. destruct D as [_ Da].
    destruct (IHa X Da) as [Da' [va [va' [Ea [Ea' Eq]]]]].
    destruct (definedIn_value _ _ Da) as [pa [Ea0 Na]].
    rewrite Ea0 in Ea. injection Ea as <-.
    apply equiv_Fin_inv in Eq. destruct Eq as [pa' [-> Eq]].
    assert (Same : evaluateWith A (NFunction f (simplifyWith A a)) sc = Ok (Fin p)).
    { cbn [evaluateWith]. rewrite Ea'. cbn [bind].
      rewrite (law_function_comp A laws f pa' pa Eq).
      cbn [evaluateWith] in E. rewrite Ea0 in E. exact E. }
    cbn [simplifyWith]. unfold createFunction. split.
    + cbn [definedIn]. rewrite Same, Da'. cbn [finiteNumber isFinite].
      rewrite N. reflexivity.
    + exists (Fin p), (Fin p). split; [exact E|]. split; [exact Same|apply num_equiv_refl].
  - destruct (definedIn_value _ _ D) as [p [E N]].
    cbn [rulesExact] in X. cbn [definedIn] in D.
    apply andb_true_iff in X. destruct X as [X Xr].
    apply andb_true_iff in X. destruct X as [Xl' Xr'].
    apply andb_true_iff in D. destruct D as [_ D].
    apply andb_true_iff in D. destruct D as [Dl Dr].
    destruct (IHl Xl' Dl) as [Dl' [vl [vl' [El [El' Eql]]]]].
    destruct (IHr Xr' Dr) as [Dr' [vr [vr' [Er [Er' Eqr]]]]].
    destruct (definedIn_value _ _ Dl) as [pl [El0 Nl]].
    destruct (definedIn_value _ _ Dr) as [pr [Er0 Nr]].
    rewrite El0 in El. injection El as <-. rewrite Er0 in Er. injection Er as <-.
    destruct (definedIn_value _ _ Dl') as [pl' [El0' Nl']].
    destruct (definedIn_value _ _ Dr') as [pr' [Er0' Nr']].
    rewrite El0' in El'. injection El' as <-. rewrite Er0' in Er'. injection Er' as <-.
    assert (Ev : ar_binary A op (Fin pl) (Fin pr) = Fin p).
    { cbn [evaluateWith] in E. rewrite El0, Er0 in E. cbn [bind] in E.
      injection E as E. exact E. }
    assert (Same : ar_binary A op (Fin pl') (Fin pr') =~= Fin p).
    { rewrite <- Ev. apply (law_binary_comp A laws); assumption. }
    destruct (simplifyBinaryWith_sound op _ _ sc pl' pr' Xr Dl' Dr' El0' Er0' Nl' Nr')
      as [G1 [v [G2 G3]]].
    { rewrite (isFinite_equiv _ _ Same). reflexivity. }
    cbn [simplifyWith]. split; [exact G1|].
    exists (Fin p), v. split; [exact E|]. split; [exact G2|].
    eapply num_equiv_trans; [exact G3|exact Same].
Qed.

End SimplifierSound.

Section Lawful.
Context {ML : MathLib}.

Lemma fin_equiv_inv (a q : Q) : fin a =~= Fin q -> a == q.
Proof. unfold fin, num_equiv. rewrite Qred_correct. auto. Qed.

Lemma evalFunction_comp (name : string) (v w : num) :
  v =~= w -> evalFunction name v = evalFunction name w.
Proof.
  intros H. unfold evalFunction. rewrite (canon_comp v w H). reflexivity.
Qed.

Lemma nneg_comp (v w : num) : v =~= w -> nneg v =~= nneg w.
Proof.
  destruct v, w; try contradiction; try exact (fun H => H).
  intros H. unfold nneg. rewrite (fin_comp (- q) (- q0)).
  - apply num_equiv_refl.
  - change (q == q0) in H. rewrite H. reflexivity.
Qed.

Lemma pow_one (w : Q) : Math_pow (Fin w) (Fin 1) =~= Fin w.
Proof.
  unfold Math_pow, num_eqb, nlt.
  change (Qeq_bool 1 0) with false.
  change (Qlt_bool 0 1) with true.
  change (Qis_int 1) with true.
  change (Qfloor 1) with 1%Z.
  destruct (Qeq_bool w 0) eqn:E.
  - apply Qeq_bool_iff in E. cbn. rewrite E. reflexivity.
  - apply fin_equiv. apply Qpower_1_r.
Qed.

Lemma exact_lawful : lawful exact.
Proof.
  constructor; cbn [exact ar_number ar_binary ar_negate ar_function]; try reflexivity.
  - intros op a a' b b' Ha Hb. apply evalBinary_comp; assumption.
  - intros a a' Ha. apply nneg_comp. exact Ha.
  - intros name a a' Ha. apply evalFunction_comp. exact Ha.
  - intros z w Z _. apply fin_equiv. rewrite Z. ring.
  - intros z w Z _. apply fin_equiv. rewrite Z. ring.
  - intros z w Z _. apply fin_equiv. rewrite Z. ring.
  - intros z w Z. apply fin_equiv. rewrite Z. ring.
  - intros z w Z. apply fin_equiv. rewrite Z. ring.
  - intros o w O _. apply fin_equiv. rewrite O. ring.
  - intros o w O _. apply fin_equiv. rewrite O. ring.
  - intros z w Z. unfold evalBinary, ndiv.
    rewrite (Qeq_bool_comp z 0 0 0 Z (Qeq_refl 0)).
    destruct (Qeq_bool w 0); [discriminate|].
    intros _. apply fin_equiv. rewrite Z. unfold Qdiv. ring.
  - intros o w O _. unfold evalBinary, ndiv.
    rewrite (Qeq_bool_comp o 1 0 0 O (Qeq_refl 0)).
    change (Qeq_bool 1 0) with false. apply fin_equiv. rewrite O. field.
  - intros z w Z. unfold evalBinary, Math_pow, num_eqb.
    rewrite (Qeq_bool_comp z 0 0 0 Z (Qeq_refl 0)). reflexivity.
  - intros o w O _.
    eapply num_equiv_trans; [|apply pow_one].
    apply Math_pow_comp; [reflexivity|exact O].
Qed.

(** Rounding, on equal rationals and on the numbers of the program. *)
Lemma round64_comp (a b : Q) : a == b -> round64 a = round64 b.
Proof.
  intros H. unfold round64. rewrite (Qred_complete a b H). reflexivity.
Qed.

Lemma isBinary64_comp (a b : Q) : a == b -> isBinary64 a = isBinary64 b.
Proof.
  intros H. unfold isBinary64. rewrite (round64_comp a b H).
  rewrite (Qeq_bool_comp (round64 b) (round64 b) a b (Qeq_refl _) H).
  rewrite (Qlt_bool_comp (Qabs a) (Qabs b) (2 ^ 1024) (2 ^ 1024));
    [reflexivity|apply Qabs_wd; exact H|reflexivity].
Qed.

Lemma into64_comp (v w : num) : v =~= w -> into64 v =~= into64 w.
Proof.
  destruct v, w; try contradiction; try exact (fun H => H).
  intros H. change (q == q0) in H. unfold into64.
  rewrite (round64_comp q q0 H).
  rewrite (Qlt_bool_comp q q0 0 0 H (Qeq_refl 0)).
  apply num_equiv_refl.
Qed.

Lemma into64_number (v : num) : isNumber64 (into64 v) = true.
Proof.
  destruct v as [q| | |]; try reflexivity. unfold into64.
  destruct (isBinary64 (round64 q)) eqn:E; [exact E|].
  destruct (Qlt_bool q 0); reflexivity.
Qed.

(** A number of the program is not changed by rounding. *)
Lemma into64_member (v w : num) :
  isNumber64 w = true -> v =~= w -> into64 v =~= w.
Proof.
  intros N H. destruct w as [q| | |];
    try (destruct v; try contradiction; exact I).
  apply equiv_Fin_inv in H. destruct H as [p [-> H]].
  cbn [isNumber64] in N. unfold into64.
  rewrite (round64_comp p q H).
  assert (R : round64 q == q).
  { unfold isBinary64 in N. apply andb_true_iff in N.
    apply Qeq_bool_iff. apply N. }
  rewrite (isBinary64_comp (round64 q) q R), N. exact R.
Qed.

Lemma into64_finite (v : num) : isFinite (into64 v) = true -> isFinite v = true.
Proof. destruct v; try discriminate. reflexivity. Qed.

Lemma binary64_lawful : lawful binary64.
Proof.
  pose proof exact_lawful as E.
  constructor; cbn [binary64 ar_number ar_binary ar_negate ar_function].
  - reflexivity.
  - reflexivity.
  - intros. apply into64_number.
  - intros. apply into64_number.
  - intros name v w H. destruct (evalFunction name v); [|discriminate H].
    injection H as <-. apply into64_number.
  - intros op a a' b b' Ha Hb. apply into64_comp, evalBinary_comp; assumption.
  - intros a a' Ha. apply into64_comp, nneg_comp. exact Ha.
  - intros name a a' Ha.
    rewrite (evalFunction_comp name (Fin a) (Fin a') Ha). reflexivity.
  - intros z w Z N. apply into64_member; [exact N|].
    apply (law_add_zero_l exact E); auto.
  - intros z w Z N. apply into64_member; [exact N|].
    apply (law_add_zero_r exact E); auto.
  - intros z w Z N. apply into64_member; [exact N|].
    apply (law_sub_zero_r exact E); auto.
  - intros z w Z. apply into64_member; [reflexivity|].
    apply (law_mul_zero_l exact E); auto.
  - intros z w Z. apply into64_member; [reflexivity|].
    apply (law_mul_zero_r exact E); auto.
  - intros o w O N. apply into64_member; [exact N|].
    apply (law_mul_one_l exact E); auto.
  - intros o w O N. apply into64_member; [exact N|].
    apply (law_mul_one_r exact E); auto.
  - intros z w Z F. apply into64_member; [reflexivity|].
    apply (law_div_zero_l exact E); [exact Z|].
    apply into64_finite. exact F.
  - intros o w O N. apply into64_member; [exact N|].
    apply (law_div_one_r exact E); auto.
  - intros z w Z. apply into64_member; [reflexivity|].
    apply (law_pow_zero_r exact E); auto.
  - intros o w O N. apply into64_member; [exact N|].
    apply (law_pow_one_r exact E); auto.
Qed.

End Lawful.

Section Bridge.
Context {ML : MathLib}.

(** At the arithmetic of Part I the simplifier and the evaluator are those
    of Part I. *)
Lemma simplifyBinaryWith_exact (op : binop) (l r : node) :
  simplifyBinaryWith exact op l r = simplifyBinary op l r.
Proof. destruct l, r; reflexivity. Qed.

Lemma simplifyWith_exact (n : node) : simplifyWith exact n = simplifyNode n.
Proof.
  induction n as [v|x|op a IHa|f a IHa|op l IHl r IHr]; cbn [simplifyWith simplifyNode].
  - reflexivity.
  - reflexivity.
  - rewrite IHa. reflexivity.
  - rewrite IHa. reflexivity.
  - rewrite IHl, IHr. apply simplifyBinaryWith_exact.
Qed.

Lemma evaluateWith_exact (n : node) (sc : scope) :
  evaluateWith exact n sc = evaluateNode n sc.
Proof.
  induction n as [v|x|op a IHa|f a IHa|op l IHl r IHr]; cbn [evaluateWith evaluateNode].
  - reflexivity.
  - reflexivity.
  - rewrite IHa. reflexivity.
  - rewrite IHa. reflexivity.
  - rewrite IHl, IHr. reflexivity.
Qed.

(** C1 (as amended): the simplifier and the evaluator are those of the
    program at the arithmetic of Part I, and that arithmetic and the
    rounded arithmetic of the program are lawful.  In every lawful
    arithmetic, on a node where the rules of the simplifier are applied to
    the literals [0] and [1] only, and in a scope where the node is
    defined, which is to say that it and its subexpressions have finite
    values, the simplified node is defined as well and has the value of the
    node. *)
Theorem simplifyNode_preserves_value (n : node) (sc : scope) :
  (simplifyWith exact n = simplifyNode n /\
   evaluateWith exact n sc = evaluateNode n sc) /\
  (lawful exact /\ lawful binary64) /\
  forall (A : arithmetic) (v : num),
    lawful A ->
    rulesExact A n = true ->
    definedIn A n sc = true ->
    evaluateWith A n sc = Ok v ->
    definedIn A (simplifyWith A n) sc = true /\
    exists v', evaluateWith A (simplifyWith A n) sc = Ok v' /\ v' =~= v.
Proof.
  split; [split; [apply simplifyWith_exact|apply evaluateWith_exact]|].
  split; [split; [apply exact_lawful|apply binary64_lawful]|].
  intros A v L X D E.
  destruct (simplifyWith_sound A L n sc X D) as [D' [w [w' [Ew [Ew' Eq]]]]].
  split; [exact D'|]. exists w'. split; [exact Ew'|].
  rewrite Ew in E. injection E as <-. exact Eq.
Qed.

End Bridge.

(** The node [(x * 0.1 + 0) * 1 + 1.5 * 2] at [x = 3] in the arithmetic of
    the program, with the literal [0.1] as the program has it: the
    simplified node is [x * 0.1 + 3], and both have for value the number
    that the program has for [3.3]. *)
Lemma simplifyNode_preserves_value_witness :
  let tenth := Fin (round64 (1 # 10)) in
  let n := NBinary Add
             (NBinary Mul
                (NBinary Add (NBinary Mul (NVariable "x") (NNumber tenth))
                             (NNumber (Fin 0)))
                (NNumber (Fin 1)))
             (NBinary Mul (NNumber (Fin (3 # 2))) (NNumber (Fin 2))) in
  let sc := xyScope (Fin 3) (Fin 0) in
  let A := binary64 (ML := rationalMath) in
  simplifyWith A n =
    NBinary Add (NBinary Mul (NVariable "x") (NNumber tenth)) (NNumber (Fin 3)) /\
  definedIn A (simplifyWith A n) sc = true /\
  exists v',
    evaluateWith A (simplifyWith A n) sc = Ok v' /\
    v' =~= Fin (round64 (33 # 10)).
Proof.
  intros tenth n sc A.
  split; [vm_compute; reflexivity|].
  destruct (simplifyNode_preserves_value (ML := rationalMath) n sc) as [_ [[_ L] H]].
  apply (H A (Fin (round64 (33 # 10))) L).
  - vm_compute. reflexivity.
  - vm_compute. reflexivity.
  - vm_compute. reflexivity.
Defined.

(** ** The simplifier in the arithmetic of Part I *)

(** The statements of the sections that follow are on the functions of
    Part I, which compute on the rationals.  They are kept to the nodes on
    which the program, which rounds, applies the same rules to the same
    literals. *)
Definition machineLiteral (n : node) : bool :=
  match n with
  | NNumber value => isNumber64 value
  | _ => true
  end.

(** The literal as the program has it: the binary64 number nearest to
    it. *)
Definition programLiteral (n : node) : node :=
  match n with
  | NNumber (Fin q) => NNumber (Fin (round64 q))
  | _ => n
  end.

(** The comparison of the operand [n] with [0] is decided: [n] is the
    literal [0], or the comparison fails, on [n] and on the literal that
    the program has for it.  An operand that is no literal is never found
    to be [0]. *)
Definition decidedZero (n : node) : bool :=
  exactZero n || negb (isZeroNode n || isZeroNode (programLiteral n)).

(** The same for the comparison with [1]. *)
Definition decidedOne (n : node) : bool :=
  exactOne n || negb (isOneNode n || isOneNode (programLiteral n)).

Section ExactRules.
Context {ML : MathLib}.



End ExactRules.



(** [n] evaluates in [sc] to the finite value [q]. *)
Definition evaluatesTo {ML : MathLib} (n : node) (sc : scope) (q : Q) : Prop :=
  exists v, evaluateNode n sc = Ok v /\ v =~= Fin q.

Section ExactSound.
Context {ML : MathLib}.















End ExactSound.

(** The node [x + 1e-10] is simplified to [x]: at [x = 0] the node has the
    value [1e-10] and its simplification the value [0]. *)
Lemma simplifyNode_tolerance_counterexample :
  ~ exists ML : MathLib,
      forall (n : node) (x y p q : Q),
        evaluatesTo n (xyScope (Fin x) (Fin y)) p ->
        evaluatesTo (simplifyNode n) (xyScope (Fin x) (Fin y)) q ->
        p == q.
Proof.
  intros [ML H].
  specialize (H
    (NBinary Add (NVariable "x") (NNumber (Fin (1 # 10000000000))))
    0 0 (1 # 10000000000) 0).
  assert (E : (1 # 10000000000) == 0 -> False) by discriminate.
  apply E. apply H.
  - exists (Fin (1 # 10000000000)). split; [reflexivity|apply num_equiv_refl].
  - exists (Fin 0). split; [reflexivity|apply num_equiv_refl].
Qed.

(** The tolerance of the program is the binary64 number next to [1e-9],
    and the program reads the literal [0.999999999] as a number within
    that tolerance of [1], which the decimal is not: the program
    simplifies [x * 0.999999999] to [x].  The comparison of this literal
    with [1] is not decided; that of the literal [1e-9] with [0] is. *)
Remark tolerance_binary64 :
  (1 # 1000000000) < round64 (1 # 1000000000) /\
  Qabs (round64 (999999999 # 1000000000) - 1) < round64 (1 # 1000000000) /\
  Qabs ((999999999 # 1000000000) - 1) == 1 # 1000000000 /\
  isOneNode (NNumber (Fin (999999999 # 1000000000))) = false /\
  isOneNode (programLiteral (NNumber (Fin (999999999 # 1000000000)))) = true /\
  decidedOne (NNumber (Fin (999999999 # 1000000000))) = false /\
  decidedZero (NNumber (Fin (1 # 1000000000))) = true.
Proof. repeat split; vm_compute; reflexivity. Qed.

(** The program folds two literals with a rounding: it folds
    [0.1 + 0.2 - 0.3] to a literal that is not [0] and is within the
    tolerance of [0], where the sum of the decimals is [0]. *)
Remark folding_binary64 :
  let folded :=
    round64 (round64 (round64 (1 # 10) + round64 (2 # 10)) - round64 (3 # 10)) in
  ~ folded == 0 /\
  Qabs folded < round64 (1 # 1000000000) /\
  (1 # 10) + (2 # 10) - (3 # 10) == 0 /\
  isBinary64 (1 # 10) = false.
Proof. repeat split; try (vm_compute; reflexivity). vm_compute. discriminate. Qed.

(** ** Nodes built with the simplifying constructors *)

Section MakeFacts.
Context {ML : MathLib}.

Lemma simplifyBinary_cases (op : binop) (l r : node) :
  simplifyBinary op l r = NBinary op l r \/
  simplifyBinary op l r = l \/
  simplifyBinary op l r = r \/
  (exists lv rv, l = NNumber lv /\ r = NNumber rv /\
                 simplifyBinary op l r = NNumber (evalBinary op lv rv)) \/
  ((isNumberNode l && isNumberNode r = false) /\
   (simplifyBinary op l r = NNumber (Fin 0) \/
    simplifyBinary op l r = NNumber (Fin 1))).
Proof.
  unfold simplifyBinary, createNumber, createBinary.
  destruct l as [lv|lx|lo la|lf la|lo ll lr];
    destruct r as [rv|rx|ro ra|rf ra|ro rl rr];
    try (right; right; right; left; eauto; fail);
    destruct op;
    repeat match goal with
    | |- context [if ?b then _ else _] => destruct b
    end; auto 10.
Qed.



Lemma num_eqb_comp (v w c : num) : v =~= w -> num_eqb v c = num_eqb w c.
Proof.
  destruct v, w, c; simpl; try contradiction; auto.
  intros H. apply Qeq_bool_comp; [exact H|reflexivity].
Qed.

Lemma nabs_comp (v w : num) : v =~= w -> nabs v =~= nabs w.
Proof.
  destruct v, w; try contradiction; try exact (fun H => H).
  intros H. unfold nabs. rewrite (fin_comp (Qabs q) (Qabs q0)).
  - apply num_equiv_refl.
  - apply Qabs_wd. exact H.
Qed.

Lemma nlt_comp (v w c : num) : v =~= w -> nlt v c = nlt w c.
Proof.
  destruct v, w, c; simpl; try contradiction; auto.
  intros H. apply Qlt_bool_comp; [exact H|reflexivity].
Qed.

End MakeFacts.

(** ** The affine matcher *)

(** The node [a * variable + b]. *)
Definition affine (a : num) (variable : string) (b : node) : node :=
  NBinary Add (NBinary Mul (NNumber a) (NVariable variable)) b.

(** [n] is affine in [variable], in the words of the specification: it is
    free of the variable, or it is the variable, or it is built from
    affine nodes with [+], [-], the unary minus, the product with a
    numeric literal and the quotient by a numeric literal that is not
    within the tolerance of zero. *)
Fixpoint affineIn (variable : string) (n : node) : bool :=
  negb (dependsOn n variable) ||
  match n with
  | NVariable name => String.eqb name variable
  | NUnary op argument => String.eqb op "u-" && affineIn variable argument
  | NBinary Add l r | NBinary Sub l r =>
      affineIn variable l && affineIn variable r
  | NBinary Mul l r =>
      (isNumberNode l && affineIn variable r) ||
      (isNumberNode r && affineIn variable l)
  | NBinary Div l r =>
      match r with
      | NNumber c => negb (nlt (nabs c) tolerance) && affineIn variable l
      | _ => false
      end
  | _ => false
  end.

(** The coefficient of [variable] in an affine node. *)
Fixpoint slope (variable : string) (n : node) : num :=
  if negb (dependsOn n variable) then Fin 0
  else
    match n with
    | NVariable _ => Fin 1
    | NUnary _ argument => nneg (slope variable argument)
    | NBinary Add l r => nadd (slope variable l) (slope variable r)
    | NBinary Sub l r => nsub (slope variable l) (slope variable r)
    | NBinary Mul l r =>
        match l with
        | NNumber c => nmul (slope variable r) c
        | _ =>
            match r with
            | NNumber c => nmul (slope variable l) c
            | _ => Fin 0
            end
        end
    | NBinary Div l r =>
        match r with
        | NNumber c => ndiv (slope variable l) c
        | _ => Fin 0
        end
    | _ => Fin 0
    end.

(** The rest of an affine node: the node with the variable taken out,
    before any simplification. *)
Fixpoint intercept (variable : string) (n : node) : node :=
  if negb (dependsOn n variable) then n
  else
    match n with
    | NVariable _ => NNumber (Fin 0)
    | NUnary _ argument => NUnary "u-" (intercept variable argument)
    | NBinary Add l r =>
        NBinary Add (intercept variable l) (intercept variable r)
    | NBinary Sub l r =>
        NBinary Sub (intercept variable l) (intercept variable r)
    | NBinary Mul l r =>
        match l with
        | NNumber c => NBinary Mul (NNumber c) (intercept variable r)
        | _ =>
            match r with
            | NNumber c => NBinary Mul (NNumber c) (intercept variable l)
            | _ => n
            end
        end
    | NBinary Div l r => NBinary Div (intercept variable l) r
    | _ => n
    end.

(** The node [slope * variable + intercept], before any simplification. *)
Definition rebuilt (variable : string) (n : node) : node :=
  affine (slope variable n) variable (intercept variable n).


(** The coefficients of [n] and of the nodes it is built from are
    computed without rounding: they are binary64 numbers. *)
Fixpoint slopesExact (variable : string) (n : node) : bool :=
  machineLiteral (NNumber (slope variable n)) &&
  (negb (dependsOn n variable) ||
   match n with
   | NUnary _ argument => slopesExact variable argument
   | NBinary _ l r => slopesExact variable l && slopesExact variable r
   | _ => true
   end).

(** The variable with a literal coefficient: [v], [c * v], [v * c], and
    their opposites. *)
Fixpoint directTerm (variable : string) (n : node) : bool :=
  match n with
  | NVariable name => String.eqb name variable
  | NUnary op argument => String.eqb op "u-" && directTerm variable argument
  | NBinary Mul l r =>
      (isNumberNode l && isVariableNode r variable) ||
      (isVariableNode l variable && isNumberNode r)
  | _ => false
  end.

(** A term, or the sum or difference of a term and a node free of the
    variable, or the opposite of such a node.  On these nodes the node
    [a * v + b] repeats the operations of [n], up to the order of a sum and
    to signs, which binary64 arithmetic keeps. *)
Fixpoint direct (variable : string) (n : node) : bool :=
  directTerm variable n ||
  match n with
  | NUnary op argument => String.eqb op "u-" && direct variable argument
  | NBinary Add l r | NBinary Sub l r =>
      (directTerm variable l && negb (dependsOn r variable)) ||
      (negb (dependsOn l variable) && directTerm variable r)
  | _ => false
  end.

Section Rounding.
Context {ML : MathLib}.

(** No operation rounds when [n] is evaluated in [sc]: the value of every
    subexpression, in the arithmetic of this development, is a binary64
    number. *)
Fixpoint unrounded (n : node) (sc : scope) : bool :=
  match evaluateNode n sc with
  | Ok (Fin q) => isBinary64 q
  | _ => false
  end &&
  match n with
  | NNumber _ | NVariable _ => true
  | NUnary _ argument | NFunction _ argument => unrounded argument sc
  | NBinary _ l r => unrounded l sc && unrounded r sc
  end.

(** The program computes [n] and the node [a * v + b] with the same
    roundings: [n] is [direct] and defined in the arithmetic of the
    program, or nothing is rounded. *)
Definition sameRounding (variable : string) (n : node) (sc : scope) : bool :=
  (direct variable n && definedIn binary64 n sc) ||
  (slopesExact variable n && unrounded n sc && unrounded (rebuilt variable n) sc).

End Rounding.

Section MatchLinearFacts.
Context {ML : MathLib}.

Lemma matchLinearRecursive_constant (n : node) (variable : string) :
  dependsOn n variable = false ->
  matchLinearRecursive n variable = Some (mkLinearForm (Fin 0) n).
Proof.
  intros H. destruct n as [v|x|op a|f a|op l r];
    cbn [matchLinearRecursive]; rewrite H; reflexivity.
Qed.

Lemma dependsOn_simplifyNode (n : node) (variable : string) :
  dependsOn n variable = false -> dependsOn (simplifyNode n) variable = false.
Proof.
  induction n as [v|x|op a IHa|f a IHa|op l IHl r IHr]; intros H.
  - exact H.
  - exact H.
  - simpl in *. destruct (String.eqb op "u-").
    + destruct (simplifyNode a); simpl in *; auto.
    + simpl. auto.
  - simpl in *. auto.
  - simpl in H. apply orb_false_iff in H. destruct H as [Hl Hr].
    specialize (IHl Hl). specialize (IHr Hr).
    change (simplifyNode (NBinary op l r))
      with (simplifyBinary op (simplifyNode l) (simplifyNode r)).
    destruct (simplifyBinary_cases op (simplifyNode l) (simplifyNode r))
      as [E|[E|[E|[[lv [rv [_ [_ E]]]]|[_ [E|E]]]]]]; rewrite E; auto.
    simpl. rewrite IHl, IHr. reflexivity.
Qed.




Lemma affineIn_constant (n : node) (variable : string) :
  dependsOn n variable = false -> affineIn variable n = true.
Proof.
  intros H. destruct n; cbn [affineIn]; rewrite H; reflexivity.
Qed.





















End MatchLinearFacts.

(** The program computes the nodes [x / 3] and [(x + 1) + 2] and the nodes
    [a * x + b] of their slopes and intercepts with different roundings:
    at [x = 5] the first is [round64 (5 / 3)] and its [a * x + b] is
    [round64 (round64 (1 / 3) * 5)]; at [x = 1e16] the second is
    [1e16 + 2] and its [a * x + b] is [1e16 + 4]. *)
Remark rebuilt_binary64 :
  ~ round64 (5 / 3) == round64 (round64 (1 / 3) * 5) /\
  ~ round64 (round64 (10000000000000000 + 1) + 2) ==
    round64 (10000000000000000 + round64 (1 + 2)) /\
  sameRounding (ML := rationalMath) "x"
    (NBinary Div (NVariable "x") (NNumber (Fin 3)))
    (xyScope (Fin 5) (Fin 0)) = false /\
  sameRounding (ML := rationalMath) "x"
    (NBinary Add (NBinary Add (NVariable "x") (NNumber (Fin 1))) (NNumber (Fin 2)))
    (xyScope (Fin 10000000000000000) (Fin 0)) = false.
Proof.
  repeat split; try (vm_compute; reflexivity); vm_compute; discriminate.
Qed.



(** ** The integrator on quotients *)




Section QuotientRule.
Context {ML : MathLib}.












End QuotientRule.



(** ** The sampler *)

Section Orbit.
Variable f : num -> num -> num.


End Orbit.


(** [x <= y] on numbers. *)
Definition nle (x y : num) : bool := nlt x y || num_eqb x y.

(** [p] does not come after [q] on the axis of the independent
    variable. *)
Definition before (p q : point) : Prop := nle (pt_x p) (pt_x q) = true.


Section SamplerFacts.
Variable f : num -> num -> num.














End SamplerFacts.

(** At [x0 = 1e17] and with the span [4] the step is [0.025], and the
    binary64 sum of the abscissa and the step is the abscissa. *)
Remark step_binary64 :
  round64 (4 / 160) * 1 == round64 (1 # 40) /\
  round64 (100000000000000000 + round64 (1 # 40)) == 100000000000000000.
Proof. split; vm_compute; reflexivity. Qed.


Local Open Scope string_scope.

(** ** The lexer and the parser terminate *)

Lemma span_length (p : codeUnit -> bool) (l : list codeUnit) :
  (List.length (snd (span p l)) <= List.length l)%nat.
Proof.
  induction l as [|c rest IH]; simpl.
  - apply Nat.le_refl.
  - destruct (p c); simpl.
    + destruct (span p rest) as [taken left]. simpl in *.
      apply Nat.le_trans with (List.length rest); [exact IH|apply Nat.le_succ_diag_r].
    + apply Nat.le_refl.
Qed.

(** The fuel given by [tokenize] is never used up. *)
Lemma tokenizeLoop_fuel (fuel : nat) (input : list codeUnit) (prevType : tokenKind)
    (tokens : list token) :
  (List.length input < fuel)%nat ->
  tokenizeLoop fuel input prevType tokens <> Throw OutOfFuel.
Proof.
  revert input prevType tokens.
  induction fuel as [|fuel IH]; intros input prevType tokens Hlen.
  - inversion Hlen.
  - destruct input as [|char rest]; [discriminate|].
    simpl in Hlen. apply Nat.succ_lt_mono in Hlen.
    assert (Hspan : forall p, (List.length (snd (span p rest)) < fuel)%nat).
    { intros p. eapply Nat.le_lt_trans; [apply span_length|exact Hlen]. }
    cbn [tokenizeLoop].
    destruct ((char =? 32)%N || (char =? 9)%N || (char =? 10)%N);
      [apply IH; exact Hlen|].
    destruct (isNumberChar char).
    { specialize (Hspan isNumberChar).
      destruct (span isNumberChar rest) as [more after]. simpl in Hspan.
      match goal with |- context [if ?b then _ else _] => destruct b end;
        [discriminate|apply IH; exact Hspan]. }
    destruct (isIdentifierStart char).
    { specialize (Hspan isIdentifierChar).
      destruct (span isIdentifierChar rest) as [more after]. simpl in Hspan.
      destruct (CONSTANTS _); [apply IH; exact Hspan|].
      destruct (isFunctionName _); [apply IH; exact Hspan|].
      match goal with |- context [if ?b then _ else _] => destruct b end;
        [apply IH; exact Hspan|discriminate]. }
    destruct (char =? 44)%N; [apply IH; exact Hlen|].
    destruct (char =? 40)%N; [apply IH; exact Hlen|].
    destruct (char =? 41)%N; [apply IH; exact Hlen|].
    destruct (operatorOfChar char); [apply IH; exact Hlen|discriminate].
Qed.

Lemma tokenize_fuel (input : list codeUnit) : tokenize input <> Throw OutOfFuel.
Proof. apply tokenizeLoop_fuel. apply Nat.lt_succ_diag_r. Qed.

Lemma drainStack_fuel (stack output : list token) :
  drainStack stack output <> Throw OutOfFuel.
Proof.
  revert output. induction stack as [|top below IH]; intros output; simpl.
  - discriminate.
  - destruct top; try apply IH; discriminate.
Qed.

Lemma toRPNLoop_fuel (tokens stack output : list token) :
  toRPNLoop tokens stack output <> Throw OutOfFuel.
Proof.
  revert stack output. induction tokens as [|tok rest IH]; intros stack output.
  - apply drainStack_fuel.
  - destruct tok; cbn [toRPNLoop]; try apply IH.
    + destruct (popToLparen stack output) as [[|s stack'] output'];
        [discriminate|apply IH].
    + destruct (popThroughLparen stack output) as [[stack' output']|];
        [|discriminate].
      destruct stack' as [|[] below]; apply IH.
    + destruct (popOperators value stack output) as [stack' output']. apply IH.
Qed.

Section ParserTotal.
Context {ML : MathLib}.

Lemma buildASTLoop_fuel (rpn : list token) (stack : list node) :
  buildASTLoop rpn stack <> Throw OutOfFuel.
Proof.
  revert stack. induction rpn as [|tok rest IH]; intros stack; simpl.
  - discriminate.
  - destruct tok as [v|v|v| | | |[op|]]; try apply IH; try discriminate.
    + destruct stack; [discriminate|apply IH].
    + destruct stack as [|r [|l below]]; try discriminate. apply IH.
    + destruct stack; [discriminate|apply IH].
Qed.

Lemma parseExpression_fuel (input : list codeUnit) :
  parseExpression input <> Throw OutOfFuel.
Proof.
  unfold parseExpression. destruct (trim input); [discriminate|].
  pose proof (tokenize_fuel (replaceMinusSign input)) as Ht.
  destruct (tokenize (replaceMinusSign input)) as [tokens|e]; simpl;
    [|congruence].
  pose proof (toRPNLoop_fuel tokens [] []) as Hr. unfold toRPN.
  destruct (toRPNLoop tokens [] []) as [rpn|e]; simpl; [|congruence].
  unfold buildAST. pose proof (buildASTLoop_fuel rpn []) as Hb.
  destruct (buildASTLoop rpn []) as [stack|e]; simpl; [|congruence].
  destruct stack as [|top [|]]; discriminate.
Qed.

Lemma parseDifferentialEquation_fuel (rawInput : list codeUnit) :
  parseDifferentialEquation rawInput <> Throw OutOfFuel.
Proof.
  unfold parseDifferentialEquation.
  destruct (negb (existsb _ _)); [discriminate|].
  destruct (splitEquals _) as [lhsPart rhsPart].
  destruct (negb (unitsEqb _ _)); [discriminate|].
  pose proof (parseExpression_fuel (trim rhsPart)) as H.
  destruct (parseExpression (trim rhsPart)); simpl; [discriminate|congruence].
Qed.

End ParserTotal.

(** ** Direct integration: [dy/dx = 2*x] *)

Definition twoX : node := NBinary Mul (NNumber (Fin 2)) (NVariable "x").

(** The node [2 * (0.5 * x ^ 2)]. *)
Definition integralTwoX : node :=
  NBinary Mul (NNumber (Fin 2))
    (NBinary Mul (NNumber (Fin (1 # 2)))
       (NBinary Pow (NVariable "x") (NNumber (Fin 2)))).

Section DirectExample.
Context {ML : MathLib}.

Lemma square_value (x : Q) : Math_pow (Fin x) (Fin 2) =~= Fin (x ^ 2).
Proof.
  unfold Math_pow, num_eqb, nlt.
  change (Qeq_bool 2 0) with false.
  change (Qlt_bool 0 2) with true.
  change (Qis_int 2) with true.
  change (Qfloor 2) with 2%Z.
  destruct (Qeq_bool x 0) eqn:E.
  - apply Qeq_bool_iff in E. unfold num_equiv. rewrite E. reflexivity.
  - apply fin_equiv. reflexivity.
Qed.

(** C5: [processEquation("dy/dx = 2*x")] has the status [ok] and the
    classification [direct]; its solution is written from the integral
    [2 * (0.5 * x ^ 2)] of the right side, whose value is [x^2] at every
    [x]. *)
Theorem processEquation_direct :
  processEquation (str "dy/dx = 2*x") =
    StatusOk (mkSolved "direct" "dy/dx = 2 * x"
                [None; Some "∫ dy = ∫ (2 * x) dx";
                 Some "y(x) = 2 * 0.5 * x ^ 2 + C"]
                "y(x) = 2 * 0.5 * x ^ 2 + C" twoX) /\
  parseExpression (str "2*x") = Ok twoX /\
  integrate twoX "x" = Some integralTwoX /\
  "y(x) = 2 * 0.5 * x ^ 2 + C" = "y(x) = " ++ nodeToString integralTwoX ++ " + C" /\
  forall (x : Q) (y : num), evaluatesTo integralTwoX (xyScope (Fin x) y) (x ^ 2).
Proof.
  split; [reflexivity|].
  split; [reflexivity|].
  split; [reflexivity|].
  split; [reflexivity|].
  intros x y.
  destruct (equiv_Fin_inv _ _ (square_value x)) as [p [Hp Ep]].
  exists (nmul (Fin 2) (nmul (Fin (1 # 2)) (Math_pow (Fin x) (Fin 2)))).
  split; [reflexivity|].
  rewrite Hp. unfold nmul. apply fin_equiv.
  unfold fin. rewrite Qred_correct, Ep. field.
Qed.

End DirectExample.

(** ** Linear equations: [dy/dx = x + y] *)

Definition xPlusY : node := NBinary Add (NVariable "x") (NVariable "y").

(** The node [exp(-1 * x)]. *)
Definition muXPlusY : node :=
  NFunction "exp" (NBinary Mul (NNumber (Fin (-1))) (NVariable "x")).

Section LinearExample.
Context {ML : MathLib}.

(** C6: [processEquation("dy/dx = x + y")] has the status [ok] and the
    classification [linear], with [P(x) = -1], [Q(x) = x] and the
    integrating factor [exp(-1 * x)], which has the value of [exp(-x)]; the
    integral of [mu * Q] is not found, and the solution is the implicit
    form.  In general, when the integral of [P] is found and that of
    [mu * Q] is not, the linear solution is built without an exception and
    is the implicit form. *)
Theorem processEquation_linear :
  processEquation (str "dy/dx = x + y") =
    StatusOk (mkSolved "linear" "dy/dx = x + y"
                [None;
                 Some "P(x) = -1   ،   Q(x) = x";
                 Some "μ(x) = exp(-1 * x) = exp(-1 * x)";
                 Some "d/dx [μ(x) · y] = μ(x) · Q(x) = exp(-1 * x) * x";
                 Some "μ(x) · y = ∫ (exp(-1 * x) * x) dx + C";
                 Some "y(x) = (1/exp(-1 * x)) * (∫ (exp(-1 * x) * x) dx + C)"]
                "y(x) = (1/exp(-1 * x)) * (∫ (exp(-1 * x) * x) dx + C)"
                xPlusY) /\
  classifyEquation xPlusY = Linear xPlusY (NNumber (Fin 1)) (NVariable "x") /\
  simplifyNode (makeNeg (NNumber (Fin 1))) = NNumber (Fin (-1)) /\
  integrate (NNumber (Fin (-1))) "x" =
    Some (NBinary Mul (NNumber (Fin (-1))) (NVariable "x")) /\
  (forall x y : num,
     evaluateNode muXPlusY (xyScope x y) =
     evaluateNode (NFunction "exp" (NUnary "u-" (NVariable "x"))) (xyScope x y)) /\
  integrate (NBinary Mul muXPlusY (NVariable "x")) "x" = None /\
  (forall (s : list codeUnit) (parsed : parsedEquation)
          (rhs aNode bNode integralP : node),
     parseDifferentialEquation s = Ok parsed ->
     classifyEquation (parsed_rhs parsed) = Linear rhs aNode bNode ->
     integrate (simplifyNode (makeNeg aNode)) "x" = Some integralP ->
     let muNode := simplifyNode (createFunction "exp" (cloneNode integralP)) in
     let muQNode := simplifyNode (makeMul muNode (simplifyNode bNode)) in
     integrate muQNode "x" = None ->
     exists solution,
       processEquation s = StatusOk solution /\
       classificationName solution = "linear" /\
       finalSolution solution =
         implicitLinearText (nodeToString muNode) (nodeToString muQNode)).
Proof.
  split; [reflexivity|].
  split; [reflexivity|].
  split; [reflexivity|].
  split; [reflexivity|].
  split.
  { intros x y. simpl. apply evalFunction_comp.
    destruct x as [q| | |]; try exact I.
    unfold nmul, nneg. rewrite (fin_comp (-1 * q) (- q)) by ring.
    apply num_equiv_refl. }
  split; [reflexivity|].
  intros s parsed rhs aNode bNode integralP Hparse Hclass HP muNode muQNode HQ.
  unfold processEquation. rewrite Hparse. cbn [bind].
  unfold solve. rewrite Hclass.
  unfold buildLinearSolution. rewrite HP.
  fold muNode. fold muQNode. rewrite HQ.
  eexists. split; [reflexivity|]. split; reflexivity.
Qed.

End LinearExample.

(** The equation [dy/dx = x + y] itself. *)
Lemma processEquation_linear_witness :
  exists solution,
    processEquation (ML := rationalMath) (str "dy/dx = x + y") = StatusOk solution /\
    classificationName solution = "linear" /\
    finalSolution solution =
      "y(x) = (1/exp(-1 * x)) * (∫ (exp(-1 * x) * x) dx + C)".
Proof.
  destruct (processEquation_linear (ML := rationalMath))
    as [_ [_ [_ [_ [_ [_ H]]]]]].
  exact (H (str "dy/dx = x + y") (mkParsed xPlusY "dy/dx = x + y") xPlusY
           (NNumber (Fin 1)) (NVariable "x")
           (NBinary Mul (NNumber (Fin (-1))) (NVariable "x"))
           eq_refl eq_refl eq_refl eq_refl).
Defined.

(** ** The status of [processEquation] *)

Section Status.
Context {ML : MathLib}.

Lemma errorMessage_nonempty (e : error) : e <> OutOfFuel -> errorMessage e <> "".
Proof. destruct e; intros H; try discriminate. contradiction H. reflexivity. Qed.

Lemma processEquation_parsed (s : list codeUnit) (parsed : parsedEquation) :
  parseDifferentialEquation s = Ok parsed ->
  processEquation s =
  match solve parsed with
  | Ok o => o
  | Throw e => StatusError e
  end.
Proof. intros H. unfold processEquation. rewrite H. reflexivity. Qed.

(** C7 (as amended): [processEquation] is a total function into the three
    statuses.  An input that is not parsed has the status [error], with the
    exception of the parser and its message.  A parsed right side that is
    in none of the three families has the status [unsupported].  A parsed
    right side in a family has the status [ok] when the integrator finds
    the integrals that the family needs, and the status [error] of that
    family when it does not. *)
Theorem processEquation_status :
  (forall s : list codeUnit,
     (forall e, parseDifferentialEquation s = Throw e ->
        processEquation s = StatusError e /\ errorMessage e <> "") /\
     (forall parsed, parseDifferentialEquation s = Ok parsed ->
        match classifyEquation (parsed_rhs parsed) with
        | Unsupported _ => processEquation s = StatusUnsupported
        | Direct rhs =>
            match integrate rhs "x" with
            | Some _ => status (processEquation s) = "ok"
            | None => processEquation s = StatusError RhsNotIntegrable
            end
        | Separable rhs xPart yPart =>
            match integrate (simplifyNode (makeDiv (createNumber (Fin 1)) yPart)) "y",
                  integrate (simplifyNode xPart) "x" with
            | Some _, Some _ => status (processEquation s) = "ok"
            | _, _ => processEquation s = StatusError SeparableNotIntegrable
            end
        | Linear rhs aNode bNode =>
            match integrate (simplifyNode (makeNeg aNode)) "x" with
            | Some _ => status (processEquation s) = "ok"
            | None => processEquation s = StatusError PNotIntegrable
            end
        end)) /\
  processEquation (str "dy/dx = x +") = StatusError BinaryLacksArgument /\
  processEquation (str "dy/dx x") = StatusError MissingEquals /\
  processEquation (str "dx/dy = x") = StatusError BadLeftSide /\
  processEquation (str "dy/dx = sin(x*y)") = StatusUnsupported.
Proof.
  split; [|repeat split; reflexivity].
  intros s. split.
  - intros e H. split.
    + unfold processEquation. rewrite H. reflexivity.
    + apply errorMessage_nonempty. intros ->.
      exact (parseDifferentialEquation_fuel s H).
  - intros parsed H. rewrite (processEquation_parsed s parsed H).
    unfold solve.
    destruct (classifyEquation (parsed_rhs parsed)) as [rhs|rhs xPart yPart|rhs a b|rhs].
    + unfold buildDirectSolution.
      destruct (integrate rhs "x"); reflexivity.
    + unfold buildSeparableSolution.
      destruct (integrate (simplifyNode (makeDiv (createNumber (Fin 1)) yPart)) "y");
        [|reflexivity].
      destruct (integrate (simplifyNode xPart) "x"); reflexivity.
    + unfold buildLinearSolution.
      destruct (integrate (simplifyNode (makeNeg a)) "x"); reflexivity.
    + reflexivity.
Qed.

End Status.

(** The input [dy/dx = x +]. *)
Lemma processEquation_status_witness :
  processEquation (ML := rationalMath) (str "dy/dx = x +") =
    StatusError BinaryLacksArgument /\
  errorMessage BinaryLacksArgument <> "".
Proof.
  exact (proj1 (proj1 (processEquation_status (ML := rationalMath))
                  (str "dy/dx = x +"))
           BinaryLacksArgument eq_refl).
Defined.

(** The input [dy/dx = x*x] is parsed and its right side is in the direct
    family; its integral is not found and the status is [error]. *)
Lemma processEquation_status_counterexample :
  ~ exists ML : MathLib,
      forall (s : list codeUnit) (parsed : parsedEquation),
        parseDifferentialEquation s = Ok parsed ->
        (forall rhs, classifyEquation (parsed_rhs parsed) <> Unsupported rhs) ->
        status (processEquation s) = "ok".
Proof.
  intros [ML H].
  specialize (H (str "dy/dx = x*x")
                (mkParsed (NBinary Mul (NVariable "x") (NVariable "x"))
                          "dy/dx = x * x") eq_refl).
  assert (E : status (processEquation (str "dy/dx = x*x")) = "error")
    by reflexivity.
  rewrite H in E; [discriminate E|].
  intros rhs C. discriminate C.
Qed.

(** ** The text of a number *)

(** The multiple of [10^-6] that [toFixed(6)] gives for [q]. *)
Definition round6 (q : Q) : Q :=
  (if Qlt_bool q 0 then -1 else 1) * inject_Z (roundMicro q) / 1000000.

Definition hasPoint (s : string) : bool :=
  existsb (Ascii.eqb ".") (list_ascii_of_string s).

Lemma string_of_uint_no_point (d : Decimal.uint) :
  hasPoint (DecimalString.NilEmpty.string_of_uint d) = false.
Proof. induction d; simpl; auto. Qed.

Lemma digitsOfN_no_point (n : N) : hasPoint (digitsOfN n) = false.
Proof.
  unfold digitsOfN, DecimalString.NilZero.string_of_uint.
  destruct (N.to_uint n); try reflexivity; apply string_of_uint_no_point.
Qed.

Lemma integerToString_small (z : Z) :
  (Z.abs z < 10 ^ 21)%Z ->
  integerToString z = DecimalString.NilZero.string_of_int (Z.to_int z).
Proof.
  intros H. unfold integerToString.
  apply Z.ltb_lt in H. rewrite H.
  destruct z; reflexivity.
Qed.

Lemma integerToString_opp (w : Z) :
  (0 < w)%Z -> integerToString (- w) = "-" ++ integerToString w.
Proof.
  intros H. unfold integerToString.
  assert (Hn : (- w <? 0)%Z = true) by (apply Z.ltb_lt; lia).
  assert (Hp : (w <? 0)%Z = false) by (apply Z.ltb_ge; lia).
  rewrite Hn, Hp, Z.abs_opp.
  replace (Z.abs_N (- w)) with (Z.abs_N w) by (destruct w; reflexivity).
  destruct (Z.abs w <? 10 ^ 21)%Z; [reflexivity|].
  destruct (stripTrailingZeros (digitsOfN (Z.abs_N w))) as [|first [|c more]];
    reflexivity.
Qed.

Lemma Qfloor_half (n : Z) : Qfloor (inject_Z n + (1 # 2)) = n.
Proof.
  pose proof (Qfloor_le (inject_Z n + (1 # 2))) as Hle.
  pose proof (Qlt_floor (inject_Z n + (1 # 2))) as Hlt.
  set (f := Qfloor (inject_Z n + (1 # 2))) in *.
  assert (H1 : inject_Z f < inject_Z (n + 1)).
  { rewrite inject_Z_plus. change (inject_Z 1) with 1. lra. }
  assert (H2 : inject_Z n < inject_Z (f + 1)) by lra.
  rewrite <- Zlt_Qlt in H1, H2. lia.
Qed.

Lemma roundMicro_bounds (q : Q) :
  inject_Z (roundMicro q) <= Qabs q * 1000000 + (1 # 2) /\
  Qabs q * 1000000 + (1 # 2) < inject_Z (roundMicro q) + 1.
Proof.
  unfold roundMicro. split.
  - apply Qfloor_le.
  - pose proof (Qlt_floor (Qabs q * 1000000 + (1 # 2))) as H.
    rewrite inject_Z_plus in H. exact H.
Qed.

Lemma roundMicro_nonneg (q : Q) : (0 <= roundMicro q)%Z.
Proof.
  unfold roundMicro. change 0%Z with (Qfloor 0).
  apply Qfloor_resp_le.
  pose proof (Qabs_nonneg q). lra.
Qed.

Lemma Qabs_round6 (q : Q) : Qabs (round6 q) == inject_Z (roundMicro q) / 1000000.
Proof.
  pose proof (roundMicro_nonneg q) as H.
  assert (Hq : 0 <= inject_Z (roundMicro q)).
  { change 0 with (inject_Z 0). rewrite <- Zle_Qle. exact H. }
  unfold round6. destruct (Qlt_bool q 0).
  - rewrite Qabs_neg; [field|].
    unfold Qdiv. change (/ 1000000) with (1 # 1000000). lra.
  - rewrite Qabs_pos; [field|].
    unfold Qdiv. change (/ 1000000) with (1 # 1000000). lra.
Qed.

Lemma roundMicro_round6 (q : Q) : roundMicro (round6 q) = roundMicro q.
Proof.
  unfold roundMicro at 1. rewrite Qabs_round6.
  rewrite <- (Qfloor_half (roundMicro q)) at 2.
  apply Qfloor_comp. field.
Qed.

Lemma sign_round6 (q : Q) :
  (0 < roundMicro q)%Z -> Qlt_bool (round6 q) 0 = Qlt_bool q 0.
Proof.
  intros H.
  assert (Hq : 0 < inject_Z (roundMicro q)).
  { change 0 with (inject_Z 0). rewrite <- Zlt_Qlt. exact H. }
  unfold round6. destruct (Qlt_bool q 0).
  - apply Qlt_bool_iff. unfold Qdiv. change (/ 1000000) with (1 # 1000000). lra.
  - apply Qlt_bool_false_iff. unfold Qdiv. change (/ 1000000) with (1 # 1000000). lra.
Qed.

(** The rounded value is within half a unit of the sixth digit. *)
Lemma round6_near (q : Q) : Qabs (q - round6 q) <= 1 # 2000000.
Proof.
  destruct (roundMicro_bounds q) as [H1 H2].
  unfold round6. destruct (Qlt_bool q 0) eqn:S.
  - apply Qlt_bool_iff in S. rewrite (Qabs_neg q) in H1, H2 by lra.
    apply Qabs_case; intros _; unfold Qdiv;
      change (/ 1000000) with (1 # 1000000); lra.
  - apply Qlt_bool_false_iff in S. rewrite (Qabs_pos q) in H1, H2 by lra.
    apply Qabs_case; intros _; unfold Qdiv;
      change (/ 1000000) with (1 # 1000000); lra.
Qed.

Lemma fixed6ToString_ext (a b : Q) :
  roundMicro a = roundMicro b -> Qlt_bool a 0 = Qlt_bool b 0 ->
  fixed6ToString a = fixed6ToString b.
Proof. intros Hn Hs. unfold fixed6ToString. rewrite Hn, Hs. reflexivity. Qed.

Lemma Qis_int_inject_Z (z : Z) : Qis_int (inject_Z z) = true.
Proof.
  unfold Qis_int. rewrite Qfloor_Z. apply Qeq_bool_iff. reflexivity.
Qed.

Lemma Qis_int_spec (q : Q) : Qis_int q = true -> inject_Z (Qfloor q) == q.
Proof. unfold Qis_int. apply Qeq_bool_iff. Qed.

(** A value and its rounding to six digits have the same text. *)
Lemma formatNumber_round6 (q : Q) :
  Qis_int q = false -> formatNumber (Fin q) = formatNumber (Fin (round6 q)).
Proof.
  intros Hq. unfold formatNumber. rewrite Hq.
  pose proof (roundMicro_nonneg q) as Hn.
  destruct (Z.eq_dec (roundMicro q) 0) as [Z0|NZ].
  - assert (R0 : round6 q == 0).
    { unfold round6. rewrite Z0. destruct (Qlt_bool q 0); reflexivity. }
    rewrite (Qis_int_comp _ _ R0), (Qfloor_comp _ _ R0).
    unfold fixed6ToString. rewrite Z0. reflexivity.
  - assert (Hpos : (0 < roundMicro q)%Z) by lia.
    rewrite <- (fixed6ToString_ext (round6 q) q
                  (roundMicro_round6 q) (sign_round6 q Hpos)).
    destruct (Qis_int (round6 q)) eqn:Hr; [|reflexivity].
    apply Qis_int_spec in Hr.
    unfold fixed6ToString. rewrite roundMicro_round6, (sign_round6 q Hpos).
    apply Z.eqb_neq in NZ. rewrite NZ.
    set (k := Qfloor (round6 q)) in *. set (n := roundMicro q) in *.
    unfold round6 in Hr. fold n in Hr.
    destruct (Qlt_bool q 0).
    + assert (E : (n = - k * 1000000)%Z).
      { apply inject_Z_injective. rewrite inject_Z_mult, inject_Z_opp.
        change (inject_Z 1000000) with 1000000. rewrite Hr. field. }
      assert (Hk : (0 < - k)%Z) by lia.
      rewrite E, Z_mod_mult, Z_div_mult by lia. cbn [Z.eqb].
      rewrite <- (integerToString_opp (- k) Hk), Z.opp_involutive.
      reflexivity.
    + assert (E : (n = k * 1000000)%Z).
      { apply inject_Z_injective. rewrite inject_Z_mult.
        change (inject_Z 1000000) with 1000000. rewrite Hr. field. }
      rewrite E, Z_mod_mult, Z_div_mult by lia. reflexivity.
Qed.

Lemma round6_micro (q : Q) : Qis_int (round6 q * 1000000) = true.
Proof.
  assert (E : round6 q * 1000000 ==
              inject_Z ((if Qlt_bool q 0 then -1 else 1) * roundMicro q)).
  { unfold round6. rewrite inject_Z_mult.
    destruct (Qlt_bool q 0); change (inject_Z (-1)) with (-1);
      change (inject_Z 1) with 1; field. }
  rewrite (Qis_int_comp _ _ E). apply Qis_int_inject_Z.
Qed.

Lemma round6_inexact (q : Q) :
  Qis_int (q * 1000000) = false -> ~ round6 q == q.
Proof.
  intros H E.
  assert (E' : q * 1000000 == round6 q * 1000000) by (rewrite E; reflexivity).
  rewrite (Qis_int_comp _ _ E'), round6_micro in H. discriminate H.
Qed.

(** ** Reading a decimal text *)

Local Open Scope N_scope.

(** The number written by a text of digits, after the digits of [acc]. *)
Fixpoint readDigitsFrom (s : string) (acc : N) : option N :=
  match s with
  | EmptyString => Some acc
  | String c rest =>
      let d := N_of_ascii c in
      if (48 <=? d) && (d <=? 57) then readDigitsFrom rest (10 * acc + (d - 48))
      else None
  end.

(** The texts before and after the first point. *)
Fixpoint splitAtPoint (s : string) : string * option string :=
  match s with
  | EmptyString => (EmptyString, None)
  | String c rest =>
      if Ascii.eqb "." c then (EmptyString, Some rest)
      else let (before, after) := splitAtPoint rest in (String c before, after)
  end.

Local Open Scope Q_scope.

(** The value of a decimal text, with the number of its digits after the
    point. *)
Definition readUnsigned (s : string) : option (Q * nat) :=
  let (before, after) := splitAtPoint s in
  match readDigitsFrom before 0, after with
  | Some whole, None => Some (inject_Z (Z.of_N whole), O)
  | Some whole, Some digits =>
      match readDigitsFrom digits 0 with
      | Some fraction =>
          Some (inject_Z (Z.of_N whole) +
                inject_Z (Z.of_N fraction) / inject_Z (10 ^ Z.of_nat (String.length digits)),
                String.length digits)
      | None => None
      end
  | None, _ => None
  end.

Definition readDecimal (s : string) : option (Q * nat) :=
  match s with
  | String "-" rest =>
      match readUnsigned rest with
      | Some (v, k) => Some (- v, k)
      | None => None
      end
  | _ => readUnsigned s
  end.

Local Open Scope N_scope.

Fixpoint uintValue (d : Decimal.uint) (acc : N) : N :=
  match d with
  | Decimal.Nil => acc
  | Decimal.D0 l => uintValue l (10 * acc)
  | Decimal.D1 l => uintValue l (10 * acc + 1)
  | Decimal.D2 l => uintValue l (10 * acc + 2)
  | Decimal.D3 l => uintValue l (10 * acc + 3)
  | Decimal.D4 l => uintValue l (10 * acc + 4)
  | Decimal.D5 l => uintValue l (10 * acc + 5)
  | Decimal.D6 l => uintValue l (10 * acc + 6)
  | Decimal.D7 l => uintValue l (10 * acc + 7)
  | Decimal.D8 l => uintValue l (10 * acc + 8)
  | Decimal.D9 l => uintValue l (10 * acc + 9)
  end.

Lemma readDigitsFrom_digit (c : ascii) (rest : string) (acc k : N) :
  N_of_ascii c = 48 + k -> k <= 9 ->
  readDigitsFrom (String c rest) acc = readDigitsFrom rest (10 * acc + k).
Proof.
  intros Hc Hk. cbn [readDigitsFrom]. rewrite Hc.
  assert (H1 : (48 <=? 48 + k) = true) by (apply N.leb_le; lia).
  assert (H2 : (48 + k <=? 57) = true) by (apply N.leb_le; lia).
  rewrite H1, H2. cbn [andb]. f_equal. lia.
Qed.

Lemma readDigits_string_of_uint (d : Decimal.uint) (acc : N) :
  readDigitsFrom (DecimalString.NilEmpty.string_of_uint d) acc = Some (uintValue d acc).
Proof.
  revert acc.
  induction d; intros acc;
    cbn [DecimalString.NilEmpty.string_of_uint uintValue];
    [ reflexivity
    | rewrite (readDigitsFrom_digit _ _ _ 0) by (reflexivity || lia)
    | rewrite (readDigitsFrom_digit _ _ _ 1) by (reflexivity || lia)
    | rewrite (readDigitsFrom_digit _ _ _ 2) by (reflexivity || lia)
    | rewrite (readDigitsFrom_digit _ _ _ 3) by (reflexivity || lia)
    | rewrite (readDigitsFrom_digit _ _ _ 4) by (reflexivity || lia)
    | rewrite (readDigitsFrom_digit _ _ _ 5) by (reflexivity || lia)
    | rewrite (readDigitsFrom_digit _ _ _ 6) by (reflexivity || lia)
    | rewrite (readDigitsFrom_digit _ _ _ 7) by (reflexivity || lia)
    | rewrite (readDigitsFrom_digit _ _ _ 8) by (reflexivity || lia)
    | rewrite (readDigitsFrom_digit _ _ _ 9) by (reflexivity || lia) ];
    rewrite ?N.add_0_r; apply IHd.
Qed.

Lemma of_uint_acc_value (d : Decimal.uint) (acc : positive) :
  N.pos (Pos.of_uint_acc d acc) = uintValue d (N.pos acc).
Proof.
  revert acc. induction d; intros acc; cbn [Pos.of_uint_acc uintValue];
    try reflexivity; rewrite IHd; f_equal; lia.
Qed.

Lemma of_uint_value (d : Decimal.uint) : N.of_uint d = uintValue d 0.
Proof.
  unfold N.of_uint.
  induction d; cbn [Pos.of_uint uintValue]; try reflexivity;
    try (rewrite of_uint_acc_value; f_equal; lia).
  exact IHd.
Qed.

Lemma readDigits_digitsOfN (n : N) : readDigitsFrom (digitsOfN n) 0 = Some n.
Proof.
  unfold digitsOfN, DecimalString.NilZero.string_of_uint.
  rewrite <- (DecimalN.Unsigned.of_to n) at 2. rewrite of_uint_value.
  destruct (N.to_uint n) as [|u|u|u|u|u|u|u|u|u|u];
    try apply readDigits_string_of_uint.
  reflexivity.
Qed.

Lemma readDigitsFrom_app (s t : string) (acc : N) :
  readDigitsFrom (s ++ t) acc =
  match readDigitsFrom s acc with
  | Some a => readDigitsFrom t a
  | None => None
  end.
Proof.
  revert acc. induction s as [|c s IH]; intros acc; cbn [append readDigitsFrom].
  - reflexivity.
  - destruct ((48 <=? N_of_ascii c) && (N_of_ascii c <=? 57)); [apply IH|reflexivity].
Qed.

Lemma digitChar_code (d : N) : d <= 9 -> N_of_ascii (digitChar d) = 48 + d.
Proof.
  intros H. unfold digitChar. apply N_ascii_embedding. lia.
Qed.

Lemma length_append (s t : string) :
  String.length (s ++ t) = (String.length s + String.length t)%nat.
Proof. induction s as [|c s IH]; simpl; [reflexivity|rewrite IH; reflexivity]. Qed.

Lemma length_fixedDigits (width : nat) (n : N) :
  String.length (fixedDigits width n) = width.
Proof.
  revert n. induction width as [|w IH]; intros n; cbn [fixedDigits].
  - reflexivity.
  - rewrite length_append, IH. cbn. lia.
Qed.

Lemma read_fixedDigits (width : nat) (n acc : N) :
  n < 10 ^ N.of_nat width ->
  readDigitsFrom (fixedDigits width n) acc = Some (acc * 10 ^ N.of_nat width + n).
Proof.
  revert n acc. induction width as [|w IH]; intros n acc Hn.
  - cbn [fixedDigits readDigitsFrom]. f_equal. cbn in Hn. lia.
  - cbn [fixedDigits]. rewrite readDigitsFrom_app.
    assert (Hd : n / 10 < 10 ^ N.of_nat w).
    { apply N.Div0.div_lt_upper_bound. rewrite <- N.pow_succ_r'.
      replace (N.succ (N.of_nat w)) with (N.of_nat (S w)) by lia. exact Hn. }
    rewrite (IH _ _ Hd).
    rewrite (readDigitsFrom_digit _ _ _ (n mod 10)).
    + cbn [readDigitsFrom]. f_equal.
      replace (N.of_nat (S w)) with (N.succ (N.of_nat w)) by lia.
      rewrite N.pow_succ_r'.
      pose proof (N.div_mod n 10). lia.
    + apply digitChar_code. pose proof (N.mod_upper_bound n 10). lia.
    + pose proof (N.mod_upper_bound n 10). lia.
Qed.

Fixpoint zerosText (count : nat) : string :=
  match count with
  | O => ""
  | S c => String "0" (zerosText c)
  end.

Lemma dropZeros_spec (l : list ascii) :
  exists j, l = (repeat "0"%char j ++ dropZeros l)%list.
Proof.
  induction l as [|c l [j IH]].
  - exists O. reflexivity.
  - destruct (Ascii.eqb c "0") eqn:E.
    + apply Ascii.eqb_eq in E. subst c. exists (S j).
      cbn [dropZeros repeat List.app]. rewrite <- IH. reflexivity.
    + exists O. cbn [repeat List.app].
      assert (H : dropZeros (c :: l) = c :: l).
      { apply Ascii.eqb_neq in E.
        destruct c as [[] [] [] [] [] [] [] []]; try reflexivity.
        contradiction E. reflexivity. }
      rewrite H. reflexivity.
Qed.

Lemma string_of_list_app (a b : list ascii) :
  string_of_list_ascii (a ++ b) = string_of_list_ascii a ++ string_of_list_ascii b.
Proof. induction a as [|c a IH]; simpl; [reflexivity|rewrite IH; reflexivity]. Qed.

Lemma string_of_repeat_zero (j : nat) :
  string_of_list_ascii (repeat "0"%char j) = zerosText j.
Proof. induction j as [|j IH]; simpl; [reflexivity|rewrite IH; reflexivity]. Qed.

Lemma stripTrailingZeros_spec (s : string) :
  exists j, s = stripTrailingZeros s ++ zerosText j.
Proof.
  unfold stripTrailingZeros.
  destruct (dropZeros_spec (rev (list_ascii_of_string s))) as [j H].
  exists j.
  rewrite <- string_of_repeat_zero, <- string_of_list_app.
  rewrite <- (rev_repeat j "0"%char), <- rev_app_distr, <- H, rev_involutive.
  symmetry. apply string_of_list_ascii_of_string.
Qed.

Lemma read_zerosText (j : nat) (acc : N) :
  readDigitsFrom (zerosText j) acc = Some (acc * 10 ^ N.of_nat j).
Proof.
  revert acc. induction j as [|j IH]; intros acc.
  - cbn. f_equal. lia.
  - cbn [zerosText]. rewrite (readDigitsFrom_digit _ _ _ 0) by (reflexivity || lia).
    rewrite IH. f_equal.
    replace (N.of_nat (S j)) with (N.succ (N.of_nat j)) by lia.
    rewrite N.pow_succ_r'. lia.
Qed.

Lemma length_zerosText (j : nat) : String.length (zerosText j) = j.
Proof. induction j as [|j IH]; simpl; [reflexivity|rewrite IH; reflexivity]. Qed.

(** The digits after the point: their number, and the fraction read with
    and without its last zeros. *)
Lemma read_stripped_fixedDigits (F : N) :
  F < 10 ^ 6 ->
  exists a j,
    readDigitsFrom (stripTrailingZeros (fixedDigits 6 F)) 0 = Some a /\
    (String.length (stripTrailingZeros (fixedDigits 6 F)) + j = 6)%nat /\
    F = a * 10 ^ N.of_nat j.
Proof.
  intros HF.
  destruct (stripTrailingZeros_spec (fixedDigits 6 F)) as [j H].
  pose proof (read_fixedDigits 6 F 0 HF) as R.
  pose proof (length_fixedDigits 6 F) as L.
  set (t := stripTrailingZeros (fixedDigits 6 F)) in *.
  rewrite H in R, L. rewrite readDigitsFrom_app in R. rewrite length_append in L.
  rewrite length_zerosText in L.
  destruct (readDigitsFrom t 0) as [a|]; [|discriminate R].
  rewrite read_zerosText in R. injection R as R.
  exists a, j. split; [reflexivity|]. split; [exact L|]. lia.
Qed.

Lemma splitAtPoint_no_point (a : string) :
  hasPoint a = false -> splitAtPoint a = (a, None).
Proof.
  unfold hasPoint. induction a as [|c a IH]; cbn; [reflexivity|].
  intros H. apply orb_false_iff in H. destruct H as [Hc Ha].
  rewrite Hc, (IH Ha). reflexivity.
Qed.

Lemma splitAtPoint_point (a b : string) :
  hasPoint a = false -> splitAtPoint (a ++ String "." b) = (a, Some b).
Proof.
  unfold hasPoint. induction a as [|c a IH]; cbn; [reflexivity|].
  intros H. apply orb_false_iff in H. destruct H as [Hc Ha].
  rewrite Hc, (IH Ha). reflexivity.
Qed.

Lemma digitsOfN_head (n : N) :
  exists c rest, digitsOfN n = String c rest /\ c <> "-"%char.
Proof.
  unfold digitsOfN, DecimalString.NilZero.string_of_uint.
  destruct (N.to_uint n); cbn [DecimalString.NilEmpty.string_of_uint];
    eexists; eexists; (split; [reflexivity|discriminate]).
Qed.

Lemma readDecimal_unsigned (c : ascii) (rest : string) :
  c <> "-"%char -> readDecimal (String c rest) = readUnsigned (String c rest).
Proof.
  intros H. destruct c as [[] [] [] [] [] [] [] []]; try reflexivity.
  contradiction H. reflexivity.
Qed.

Local Open Scope Q_scope.

Definition signed (negative : bool) (r : option (Q * nat)) : option (Q * nat) :=
  match r with
  | Some (v, k) => Some (if negative then - v else v, k)
  | None => None
  end.

Lemma readDecimal_signed (negative : bool) (w : N) (rest : string) :
  readDecimal ((if negative then "-" else "") ++ digitsOfN w ++ rest) =
  signed negative (readUnsigned (digitsOfN w ++ rest)).
Proof.
  destruct negative.
  - cbn [append readDecimal signed].
    destruct (readUnsigned (digitsOfN w ++ rest)) as [[v k]|]; reflexivity.
  - cbn [append signed].
    destruct (digitsOfN_head w) as [c [r [E Hc]]].
    rewrite E. cbn [append]. rewrite (readDecimal_unsigned c _ Hc).
    destruct (readUnsigned (String c (r ++ rest))) as [[v k]|]; reflexivity.
Qed.

Lemma append_empty_r (s : string) : s ++ "" = s.
Proof.
  induction s as [|c s IH]; [reflexivity|]. cbn [append]. rewrite IH. reflexivity.
Qed.

Lemma readUnsigned_digits (w : N) :
  readUnsigned (digitsOfN w) = Some (inject_Z (Z.of_N w), O).
Proof.
  unfold readUnsigned.
  rewrite (splitAtPoint_no_point _ (digitsOfN_no_point w)).
  rewrite readDigits_digitsOfN. reflexivity.
Qed.

Lemma readDecimal_signed_digits (negative : bool) (w : N) :
  readDecimal ((if negative then "-" else "") ++ digitsOfN w) =
  Some (if negative then - inject_Z (Z.of_N w) else inject_Z (Z.of_N w), O).
Proof.
  pose proof (readDecimal_signed negative w "") as H.
  rewrite append_empty_r, readUnsigned_digits in H. exact H.
Qed.

Lemma inject_Z_pow10_nonzero (k : nat) : ~ inject_Z (10 ^ Z.of_nat k) == 0.
Proof.
  intros H.
  assert (P : (0 < 10 ^ Z.of_nat k)%Z) by (apply Z.pow_pos_nonneg; lia).
  unfold Qeq, inject_Z in H. cbn [Qnum Qden] in H. lia.
Qed.

Lemma readUnsigned_fraction (w F : N) :
  (F < 10 ^ 6)%N ->
  exists v k,
    readUnsigned (digitsOfN w ++ String "." (stripTrailingZeros (fixedDigits 6 F))) =
      Some (v, k) /\
    v == inject_Z (Z.of_N w) + inject_Z (Z.of_N F) / 1000000 /\
    (k <= 6)%nat.
Proof.
  intros HF.
  destruct (read_stripped_fixedDigits F HF) as [a [j [Ra [L E]]]].
  unfold readUnsigned.
  rewrite (splitAtPoint_point _ _ (digitsOfN_no_point w)).
  rewrite readDigits_digitsOfN, Ra.
  eexists. eexists. split; [reflexivity|]. split; [|lia].
  apply Qplus_inj_l.
  set (len := String.length (stripTrailingZeros (fixedDigits 6 F))) in *.
  assert (E6 : 1000000 == inject_Z (10 ^ Z.of_nat len) * inject_Z (10 ^ Z.of_nat j)).
  { rewrite <- inject_Z_mult, <- Z.pow_add_r by lia.
    replace (Z.of_nat len + Z.of_nat j)%Z with 6%Z by lia. reflexivity. }
  assert (EF : inject_Z (Z.of_N F) == inject_Z (Z.of_N a) * inject_Z (10 ^ Z.of_nat j)).
  { rewrite <- inject_Z_mult. rewrite E, N2Z.inj_mul, N2Z.inj_pow.
    rewrite nat_N_Z. reflexivity. }
  rewrite E6, EF.
  pose proof (inject_Z_pow10_nonzero len). pose proof (inject_Z_pow10_nonzero j).
  field. split; assumption.
Qed.

Lemma integerToString_digits (z : Z) :
  (0 <= z < 10 ^ 21)%Z -> integerToString z = digitsOfN (Z.to_N z).
Proof.
  intros [H0 H1]. unfold integerToString.
  assert (Hs : (z <? 0)%Z = false) by (apply Z.ltb_ge; exact H0).
  assert (Hb : (Z.abs z <? 10 ^ 21)%Z = true) by (apply Z.ltb_lt; lia).
  rewrite Hs, Hb. cbn [append].
  destruct z; try reflexivity. lia.
Qed.

Lemma roundMicro_bound (q : Q) :
  Qabs q <= inject_Z (2 ^ 53) -> (roundMicro q / 1000000 < 10 ^ 21)%Z.
Proof.
  intros H. destruct (roundMicro_bounds q) as [H1 _].
  assert (Hn : (roundMicro q <= 2 ^ 53 * 1000000)%Z).
  { assert (Hq : inject_Z (roundMicro q) < inject_Z (2 ^ 53 * 1000000 + 1)).
    { rewrite inject_Z_plus, inject_Z_mult.
      change (inject_Z 1000000) with 1000000. change (inject_Z 1) with 1. lra. }
    rewrite <- Zlt_Qlt in Hq. lia. }
  apply Z.div_lt_upper_bound; lia.
Qed.

(** The text of a value that is not an integer is a decimal text of the
    rounding of the value, with six digits at most after the point. *)
Lemma read_fixed6ToString (q : Q) :
  Qabs q <= inject_Z (2 ^ 53) ->
  exists v k,
    readDecimal (fixed6ToString q) = Some (v, k) /\ v == round6 q /\ (k <= 6)%nat.
Proof.
  intros Hb. pose proof (roundMicro_nonneg q) as Hn.
  pose proof (roundMicro_bound q Hb) as Hw.
  unfold fixed6ToString, round6.
  set (n := roundMicro q) in *.
  pose proof (Z.div_mod n 1000000 ltac:(lia)) as Hdm.
  pose proof (Z.mod_pos_bound n 1000000 ltac:(lia)) as Hm.
  pose proof (Z.div_pos n 1000000 Hn ltac:(lia)) as Hd.
  set (whole := (n / 1000000)%Z) in *. set (fraction := (n mod 1000000)%Z) in *.
  assert (En : inject_Z n == inject_Z whole * 1000000 + inject_Z fraction).
  { rewrite Hdm, inject_Z_plus, inject_Z_mult.
    change (inject_Z 1000000) with 1000000. ring. }
  destruct (n =? 0)%Z eqn:N0.
  - apply Z.eqb_eq in N0. exists 0, O. split; [reflexivity|]. split; [|lia].
    rewrite N0. destruct (Qlt_bool q 0); reflexivity.
  - destruct (fraction =? 0)%Z eqn:F0.
    + apply Z.eqb_eq in F0.
      rewrite (integerToString_digits whole) by lia.
      cbv zeta. rewrite readDecimal_signed_digits.
      rewrite Z2N.id by lia.
      eexists. eexists. split; [reflexivity|]. split; [|lia].
      destruct (Qlt_bool q 0); rewrite En, F0; field.
    + destruct (readUnsigned_fraction (Z.to_N whole) (Z.to_N fraction))
        as [v [k [R [Ev Hk]]]].
      { change (10 ^ 6)%N with (Z.to_N 1000000). apply Z2N.inj_lt; lia. }
      change (digitsOfN (Z.to_N whole) ++ "." ++
              stripTrailingZeros (fixedDigits 6 (Z.to_N fraction)))
        with (digitsOfN (Z.to_N whole) ++
              String "." (stripTrailingZeros (fixedDigits 6 (Z.to_N fraction)))).
      rewrite readDecimal_signed, R. cbn [signed].
      rewrite !Z2N.id in Ev by lia.
      eexists. eexists. split; [reflexivity|]. split; [|exact Hk].
      destruct (Qlt_bool q 0); rewrite Ev, En; field.
Qed.

Lemma read_integerToString (z : Z) :
  (Z.abs z < 10 ^ 21)%Z ->
  readDecimal (integerToString z) = Some (inject_Z z, O).
Proof.
  intros H. unfold integerToString.
  apply Z.ltb_lt in H. rewrite H.
  rewrite (readDecimal_signed_digits (z <? 0)%Z).
  rewrite N2Z.inj_abs_N.
  destruct (z <? 0)%Z eqn:S.
  - apply Z.ltb_lt in S. rewrite Z.abs_neq by lia.
    rewrite <- inject_Z_opp, Z.opp_involutive. reflexivity.
  - apply Z.ltb_ge in S. rewrite Z.abs_eq by lia. reflexivity.
Qed.

Local Close Scope N_scope.
Local Open Scope string_scope.

(** C10 (as amended): a number node whose value is an integer of
    magnitude at most [2^53] has the decimal digits of the integer for
    text, without a point, and the text reads as the value.  A finite value
    that is not an integer has the text of its rounding to the nearest
    multiple of [10^-6], a tie going away from zero, which is within
    [0.5 * 10^-6] of it.  For a binary64 number of magnitude below [10^9]
    that is not an integer, the text reads as this rounding, with six
    digits at most after the point, and so not as the value when the value
    has more than six digits after the point.  From [10^9] on the rounding
    has more than fifteen digits, and the program prints the shortest
    digits that determine the binary64 number nearest to it, which are not
    six digits of the value: they are outside this statement. *)
Theorem nodeToString_number :
  (forall q : Q,
     Qis_int q = true -> (Z.abs (Qfloor q) <= 2 ^ 53)%Z ->
     nodeToString (NNumber (Fin q)) =
       DecimalString.NilZero.string_of_int (Z.to_int (Qfloor q)) /\
     hasPoint (nodeToString (NNumber (Fin q))) = false /\
     exists v, readDecimal (nodeToString (NNumber (Fin q))) = Some (v, O) /\ v == q) /\
  (forall q : Q,
     Qis_int q = false ->
     nodeToString (NNumber (Fin q)) = nodeToString (NNumber (Fin (round6 q))) /\
     Qis_int (round6 q * 1000000) = true /\
     Qabs (q - round6 q) <= 1 # 2000000) /\
  (forall q : Q,
     Qis_int q = false -> isBinary64 q = true ->
     Qabs q < inject_Z (10 ^ 9) ->
     exists v k,
       readDecimal (nodeToString (NNumber (Fin q))) = Some (v, k) /\
       (k <= 6)%nat /\ v == round6 q /\
       (Qis_int (q * 1000000) = false -> ~ v == q)) /\
  nodeToString (NNumber (Fin (3 # 1024))) = "0.00293" /\
  nodeToString (NNumber (Fin (1 # 128))) = "0.007813".
Proof.
  split; [|split; [|split; [|split; reflexivity]]].
  - intros q Hq Hb. cbn [nodeToString formatNumber]. rewrite Hq.
    assert (Hs : (Z.abs (Qfloor q) < 10 ^ 21)%Z).
    { eapply Z.le_lt_trans; [exact Hb|reflexivity]. }
    split; [exact (integerToString_small _ Hs)|]. split.
    + rewrite (integerToString_small _ Hs).
      destruct (Qfloor q) as [|p|p]; try reflexivity.
      * exact (digitsOfN_no_point (N.pos p)).
      * exact (digitsOfN_no_point (N.pos p)).
    + exists (inject_Z (Qfloor q)).
      split; [exact (read_integerToString _ Hs)|exact (Qis_int_spec q Hq)].
  - intros q Hq. split; [exact (formatNumber_round6 q Hq)|].
    split; [apply round6_micro|apply round6_near].
  - intros q Hq _ Hb. cbn [nodeToString formatNumber]. rewrite Hq.
    assert (Hb' : Qabs q <= inject_Z (2 ^ 53)).
    { apply Qlt_le_weak. eapply Qlt_le_trans; [exact Hb|]. discriminate. }
    destruct (read_fixed6ToString q Hb') as [v [k [R [Ev Hk]]]].
    exists v, k. split; [exact R|]. split; [exact Hk|]. split; [exact Ev|].
    intros Hm E. apply (round6_inexact q Hm). rewrite <- Ev. exact E.
Qed.

(** The integer [12] and the value [1/1024]. *)
Lemma nodeToString_number_witness :
  nodeToString (NNumber (Fin 12)) = "12" /\
  nodeToString (NNumber (Fin (1 # 1024))) = "0.000977" /\
  exists v k,
    readDecimal (nodeToString (NNumber (Fin (1 # 1024)))) = Some (v, k) /\
    (k <= 6)%nat /\ ~ v == 1 # 1024.
Proof.
  destruct nodeToString_number as [Hint [Hfrac [Hread _]]].
  split; [|split].
  - destruct (Hint 12) as [H _]; [reflexivity|discriminate|exact H].
  - rewrite (proj1 (Hfrac (1 # 1024) eq_refl)). reflexivity.
  - destruct (Hread (1 # 1024) eq_refl) as [v [k [R [Hk [_ Hne]]]]].
    + vm_compute. reflexivity.
    + vm_compute. reflexivity.
    + exists v, k. split; [exact R|]. split; [exact Hk|].
      apply Hne. reflexivity.
Defined.

(** The integer [10^21] has the text [1e+21]. *)
Lemma nodeToString_number_counterexample :
  ~ (forall z : Z,
       nodeToString (NNumber (Fin (inject_Z z))) =
       DecimalString.NilZero.string_of_int (Z.to_int z)).
Proof.
  intros H. specialize (H (10 ^ 21)%Z).
  vm_compute in H. discriminate H.
Qed.

(** From [10^9] on the program prints other digits than the six of the
    rounding: the binary64 number [2^40 + 2^-12] has the rounding
    [1099511627776.000244], of nineteen digits; the binary64 number
    nearest to it is the number itself, and the program prints the
    seventeen digits [1099511627776.0002] that determine it. *)
Remark nodeToString_binary64 :
  let q := inject_Z (2 ^ 40) + (1 # 4096) in
  isBinary64 q = true /\
  round6 q == 1099511627776000244 # 1000000 /\
  round64 (round6 q) == q /\
  round64 (10995116277760002 # 10000) == q /\
  inject_Z (10 ^ 9) <= Qabs q.
Proof. repeat split; vm_compute; try reflexivity; discriminate. Qed.

(** * Part III: further properties *)

Local Open Scope Q_scope.
Local Open Scope string_scope.

(** ** Evaluation reads the variables a node depends on *)

Section Dependence.
Context {ML : MathLib}.

(** X1: Two scopes that agree on the variables a node depends on give it the
    same value, or the same exception. *)
Theorem evaluateNode_reads_dependencies (n : node) (sc1 sc2 : scope) :
  (forall v, dependsOn n v = true -> sc1 v = sc2 v) ->
  evaluateNode n sc1 = evaluateNode n sc2.
Proof.
  induction n as [v|x|op a IHa|f a IHa|op l IHl r IHr]; intros H.
  - reflexivity.
  - cbn [evaluateNode]. rewrite (H x); [reflexivity|].
    cbn [dependsOn]. apply String.eqb_refl.
  - cbn [evaluateNode]. rewrite (IHa H). reflexivity.
  - cbn [evaluateNode]. rewrite (IHa H). reflexivity.
  - cbn [evaluateNode]. rewrite IHl, IHr; [reflexivity| |].
    + intros v Hv. apply H. cbn [dependsOn]. rewrite Hv. apply orb_true_r.
    + intros v Hv. apply H. cbn [dependsOn]. rewrite Hv. reflexivity.
Qed.

(** X2: A variable of the simplified node is a variable of the node. *)
Theorem simplifyNode_no_new_variable (n : node) (variable : string) :
  dependsOn (simplifyNode n) variable = true -> dependsOn n variable = true.
Proof.
  intros H. destruct (dependsOn n variable) eqn:E; [reflexivity|].
  rewrite (dependsOn_simplifyNode n variable E) in H. discriminate H.
Qed.

End Dependence.

(** [x + 1] at [x = 2] does not read [y]. *)
Lemma evaluateNode_reads_dependencies_witness :
  evaluateNode (ML := rationalMath)
    (NBinary Add (NVariable "x") (NNumber (Fin 1))) (xyScope (Fin 2) (Fin 3)) =
  evaluateNode (ML := rationalMath)
    (NBinary Add (NVariable "x") (NNumber (Fin 1))) (xyScope (Fin 2) (Fin 7)).
Proof.
  apply (evaluateNode_reads_dependencies (ML := rationalMath)).
  intros v H. cbn [dependsOn orb] in H. rewrite orb_false_r in H.
  apply String.eqb_eq in H. subst v. reflexivity.
Defined.

(** [0 * x + y] keeps [y]. *)
Lemma simplifyNode_no_new_variable_witness :
  dependsOn (NBinary Add (NBinary Mul (NNumber (Fin 0)) (NVariable "x"))
                         (NVariable "y")) "y" = true.
Proof.
  apply (simplifyNode_no_new_variable (ML := rationalMath)). reflexivity.
Defined.

(** ** The size and the shape of a simplified node *)

Fixpoint nodeSize (n : node) : nat :=
  match n with
  | NNumber _ | NVariable _ => 1
  | NUnary _ a | NFunction _ a => S (nodeSize a)
  | NBinary _ l r => S (nodeSize l + nodeSize r)
  end.

(** No rule of the binary case applies to the operands. *)
Definition noIdentity (op : binop) (l r : node) : bool :=
  match op with
  | Add => negb (isZeroNode l) && negb (isZeroNode r)
  | Sub => negb (isZeroNode r)
  | Mul => negb (isZeroNode l) && negb (isZeroNode r) &&
           negb (isOneNode l) && negb (isOneNode r)
  | Div => negb (isZeroNode l) && negb (isOneNode r)
  | Pow => negb (isZeroNode r) && negb (isOneNode r)
  end.

(** Nowhere in the node is there a negated literal, an operation on two
    literals, or an operand that a rule removes. *)
Fixpoint reduced (n : node) : bool :=
  match n with
  | NNumber _ | NVariable _ => true
  | NUnary op a => reduced a && negb (String.eqb op "u-" && isNumberNode a)
  | NFunction _ a => reduced a
  | NBinary op l r =>
      reduced l && reduced r && negb (isNumberNode l && isNumberNode r) &&
      noIdentity op l r
  end.

Section Shape.
Context {ML : MathLib}.

(** X3: Simplifying never makes a node larger. *)
Theorem simplifyNode_size (n : node) :
  (nodeSize (simplifyNode n) <= nodeSize n)%nat.
Proof.
  induction n as [v|x|op a IHa|f a IHa|op l IHl r IHr].
  - apply Nat.le_refl.
  - apply Nat.le_refl.
  - cbn [simplifyNode]. destruct (String.eqb op "u-").
    + destruct (simplifyNode a); cbn [nodeSize createNumber createUnary] in *; lia.
    + cbn [nodeSize]. lia.
  - cbn [simplifyNode createFunction nodeSize]. lia.
  - cbn [simplifyNode nodeSize].
    destruct (simplifyBinary_cases op (simplifyNode l) (simplifyNode r))
      as [E|[E|[E|[[lv [rv [_ [_ E]]]]|[_ [E|E]]]]]]; rewrite E;
      cbn [nodeSize]; lia.
Qed.

Lemma simplifyBinary_reduced (op : binop) (l r : node) :
  reduced l = true -> reduced r = true -> reduced (simplifyBinary op l r) = true.
Proof.
  intros Hl Hr. unfold simplifyBinary, createNumber, createBinary.
  destruct l as [lv|lx|lo la|lf la|lo ll lr];
    destruct r as [rv|rx|ro ra|rf ra|ro rl rr];
    try reflexivity;
    destruct op; cbn [isZeroNode isOneNode orb];
    repeat match goal with
    | |- context [if ?b then _ else _] => destruct b eqn:?; cbn [orb]
    end;
    try reflexivity; try assumption;
    cbn [reduced isNumberNode noIdentity isZeroNode isOneNode andb negb] in *;
    rewrite ?orb_false_r in *;
    repeat match goal with
    | H : ?b = _ |- context [?b] => rewrite H
    end;
    cbn [andb negb]; rewrite ?andb_true_r; try reflexivity; try assumption;
    try (rewrite Hl, Hr; reflexivity).
Qed.

Lemma simplifyNode_reduced (n : node) : reduced (simplifyNode n) = true.
Proof.
  induction n as [v|x|op a IHa|f a IHa|op l IHl r IHr].
  - reflexivity.
  - reflexivity.
  - cbn [simplifyNode]. destruct (String.eqb op "u-") eqn:Hop.
    + destruct (simplifyNode a); cbn [reduced createNumber createUnary] in *;
        try reflexivity; rewrite IHa; reflexivity.
    + cbn [reduced]. rewrite IHa, Hop. reflexivity.
  - exact IHa.
  - cbn [simplifyNode]. apply simplifyBinary_reduced; assumption.
Qed.

Lemma reduced_simplifyNode (n : node) :
  reduced n = true -> simplifyNode n = n.
Proof.
  induction n as [v|x|op a IHa|f a IHa|op l IHl r IHr]; intros H.
  - reflexivity.
  - reflexivity.
  - cbn [reduced] in H. apply andb_true_iff in H. destruct H as [Ha Hn].
    cbn [simplifyNode]. rewrite (IHa Ha).
    destruct (String.eqb op "u-") eqn:Hop; [|reflexivity].
    apply String.eqb_eq in Hop. subst op.
    destruct a; try reflexivity. discriminate Hn.
  - cbn [reduced] in H. cbn [simplifyNode]. rewrite (IHa H). reflexivity.
  - cbn [reduced] in H.
    apply andb_true_iff in H. destruct H as [H Hi].
    apply andb_true_iff in H. destruct H as [H Hn].
    apply andb_true_iff in H. destruct H as [Hl Hr].
    cbn [simplifyNode]. rewrite (IHl Hl), (IHr Hr).
    unfold simplifyBinary, createBinary.
    destruct l as [lv|lx|lo la|lf la|lo ll lr];
      destruct r as [rv|rx|ro ra|rf ra|ro rl rr];
      try discriminate Hn;
      destruct op; cbn [noIdentity isZeroNode isOneNode negb andb orb] in *;
      repeat match goal with
      | H : _ && _ = true |- _ => apply andb_true_iff in H; destruct H
      | H : negb ?b = true |- _ => apply negb_true_iff in H; rewrite ?H
      end; reflexivity.
Qed.

(** X4: A simplified node has no literal left to fold and no operand left to
    remove, and the nodes of this shape are the ones that the simplifier
    leaves as they are. *)
Theorem simplifyNode_fixed_points (n : node) :
  reduced (simplifyNode n) = true /\
  (simplifyNode n = n <-> reduced n = true).
Proof.
  split; [apply simplifyNode_reduced|]. split.
  - intros E. rewrite <- E. apply simplifyNode_reduced.
  - apply reduced_simplifyNode.
Qed.

End Shape.

(** The node [2 * x]. *)
Lemma simplifyNode_fixed_points_witness :
  simplifyNode (ML := rationalMath)
    (NBinary Mul (NNumber (Fin 2)) (NVariable "x")) =
  NBinary Mul (NNumber (Fin 2)) (NVariable "x").
Proof.
  apply (proj2 (proj2 (simplifyNode_fixed_points (ML := rationalMath)
           (NBinary Mul (NNumber (Fin 2)) (NVariable "x"))))).
  reflexivity.
Defined.

(** ** The stack operations of [toRPN] *)

Local Open Scope list_scope.

Definition isLparen (t : token) : bool :=
  match t with TLparen => true | _ => false end.

(** The tokens that [popOperators] moves. *)
Definition isApplied (t : token) : bool :=
  match t with TFunction _ | TOperator _ => true | _ => false end.

Lemma popOperators_spec (o1 : operator) (stack output : list token) :
  exists moved,
    stack = moved ++ fst (popOperators o1 stack output) /\
    snd (popOperators o1 stack output) = output ++ moved /\
    forallb isApplied moved = true.
Proof.
  revert output. induction stack as [|top below IH]; intros output.
  - exists []. cbn. rewrite app_nil_r. auto.
  - assert (Stop : exists moved,
              top :: below = moved ++ top :: below /\
              output = output ++ moved /\ forallb isApplied moved = true).
    { exists []. rewrite app_nil_r. auto. }
    assert (Move : isApplied top = true ->
              exists moved,
                top :: below = moved ++ fst (popOperators o1 below (output ++ [top])) /\
                snd (popOperators o1 below (output ++ [top])) = output ++ moved /\
                forallb isApplied moved = true).
    { intros A. destruct (IH (output ++ [top])) as [moved [E1 [E2 F]]].
      exists (top :: moved). cbn [app forallb]. rewrite <- E1, E2, A, F.
      rewrite <- app_assoc. auto. }
    cbn [popOperators]. destruct top; try exact Stop.
    + apply Move. reflexivity.
    + match goal with |- context [if ?b then _ else _] => destruct b end;
        [apply Move; reflexivity|exact Stop].
Qed.

Lemma popToLparen_spec (stack output : list token) :
  exists moved,
    stack = moved ++ fst (popToLparen stack output) /\
    snd (popToLparen stack output) = output ++ moved /\
    forallb (fun t => negb (isLparen t)) moved = true /\
    match fst (popToLparen stack output) with
    | [] => True
    | top :: _ => top = TLparen
    end.
Proof.
  revert output. induction stack as [|top below IH]; intros output.
  - exists []. cbn. rewrite app_nil_r. auto.
  - assert (Move : isLparen top = false ->
              exists moved,
                top :: below = moved ++ fst (popToLparen below (output ++ [top])) /\
                snd (popToLparen below (output ++ [top])) = output ++ moved /\
                forallb (fun t => negb (isLparen t)) moved = true /\
                match fst (popToLparen below (output ++ [top])) with
                | [] => True
                | top' :: _ => top' = TLparen
                end).
    { intros A. destruct (IH (output ++ [top])) as [moved [E1 [E2 [F L]]]].
      exists (top :: moved). cbn [app forallb]. rewrite <- E1, E2, A, F.
      rewrite <- app_assoc. auto. }
    cbn [popToLparen]. destruct top; try (apply Move; reflexivity).
    exists []. cbn. rewrite app_nil_r. auto.
Qed.

Lemma popThroughLparen_spec (stack output : list token) :
  match popThroughLparen stack output with
  | Some (stack', output') =>
      exists moved,
        stack = moved ++ TLparen :: stack' /\ output' = output ++ moved /\
        forallb (fun t => negb (isLparen t)) moved = true
  | None => forallb (fun t => negb (isLparen t)) stack = true
  end.
Proof.
  revert output. induction stack as [|top below IH]; intros output.
  - reflexivity.
  - assert (Move : isLparen top = false ->
              match popThroughLparen below (output ++ [top]) with
              | Some (stack', output') =>
                  exists moved,
                    top :: below = moved ++ TLparen :: stack' /\
                    output' = output ++ moved /\
                    forallb (fun t => negb (isLparen t)) moved = true
              | None => forallb (fun t => negb (isLparen t)) (top :: below) = true
              end).
    { intros A. specialize (IH (output ++ [top])).
      destruct (popThroughLparen below (output ++ [top])) as [[stack' output']|].
      - destruct IH as [moved [E1 [E2 F]]].
        exists (top :: moved). cbn [app forallb]. rewrite <- E1, E2, A, F.
        rewrite <- app_assoc. auto.
      - cbn [forallb]. rewrite A, IH. reflexivity. }
    cbn [popThroughLparen]. destruct top; try (apply Move; reflexivity).
    exists []. rewrite app_nil_r. auto.
Qed.

Definition isParen (t : token) : bool :=
  match t with TLparen | TRparen => true | _ => false end.

Lemma drainStack_spec (stack output : list token) :
  match drainStack stack output with
  | Ok result =>
      result = output ++ stack /\ forallb (fun t => negb (isParen t)) stack = true
  | Throw e => e = UnmatchedParen
  end.
Proof.
  revert output. induction stack as [|top below IH]; intros output.
  - cbn. rewrite app_nil_r. auto.
  - assert (Move : isParen top = false ->
              match drainStack below (output ++ [top]) with
              | Ok result =>
                  result = output ++ top :: below /\
                  forallb (fun t => negb (isParen t)) (top :: below) = true
              | Throw e => e = UnmatchedParen
              end).
    { intros A. specialize (IH (output ++ [top])).
      destruct (drainStack below (output ++ [top])); [|exact IH].
      destruct IH as [E F]. cbn [forallb]. rewrite A, F, E, <- app_assoc. auto. }
    cbn [drainStack]. destruct top; try (apply Move; reflexivity); reflexivity.
Qed.

(** ** The shape of the output of [toRPN] *)

(** The operands, functions and operators: the tokens of an expression in
    postfix order. *)
Definition isPostfixToken (t : token) : bool :=
  match t with
  | TNumber _ | TVariable _ | TFunction _ | TOperator _ => true
  | _ => false
  end.

(** The tokens that [toRPN] keeps on its stack. *)
Definition isStackToken (t : token) : bool :=
  match t with
  | TFunction _ | TOperator _ | TLparen => true
  | _ => false
  end.

Section TokenInvariant.

(** [inv] holds of the tokens of the input; it then holds of the tokens of
    the output. *)
Variable inv : token -> bool.

Definition kept (t : token) : bool := inv t && isPostfixToken t.
Definition stacked (t : token) : bool := inv t && isStackToken t.

Lemma stacked_moved (moved : list token) :
  forallb stacked moved = true ->
  forallb (fun t => negb (isLparen t)) moved = true ->
  forallb kept moved = true.
Proof.
  induction moved as [|t moved IH]; [reflexivity|].
  cbn [forallb]. intros S L.
  apply andb_true_iff in S. destruct S as [St Sm].
  apply andb_true_iff in L. destruct L as [Lt Lm].
  rewrite (IH Sm Lm), andb_true_r.
  unfold stacked in St. unfold kept.
  apply andb_true_iff in St. destruct St as [I K]. rewrite I.
  destruct t; try reflexivity; discriminate.
Qed.

Lemma applied_not_lparen (moved : list token) :
  forallb isApplied moved = true ->
  forallb (fun t => negb (isLparen t)) moved = true.
Proof.
  induction moved as [|t moved IH]; [reflexivity|].
  cbn [forallb]. intros A. apply andb_true_iff in A. destruct A as [At Am].
  rewrite (IH Am), andb_true_r. destruct t; try reflexivity; discriminate.
Qed.

Lemma toRPNLoop_invariant (tokens stack output : list token) :
  forallb inv tokens = true -> forallb stacked stack = true ->
  forallb kept output = true ->
  match toRPNLoop tokens stack output with
  | Ok result => forallb kept result = true
  | Throw e => e = UnmatchedParen
  end.
Proof.
  revert stack output. induction tokens as [|tok rest IH];
    intros stack output Kt Ks Ko.
  - cbn [toRPNLoop]. pose proof (drainStack_spec stack output) as D.
    destruct (drainStack stack output) as [result|e]; [|exact D].
    destruct D as [-> P]. rewrite forallb_app, Ko.
    apply stacked_moved; [exact Ks|].
    clear - P. induction stack as [|t s IH]; [reflexivity|].
    cbn [forallb] in *. apply andb_true_iff in P. destruct P as [Pt Ps].
    rewrite (IH Ps), andb_true_r. destruct t; try reflexivity; discriminate.
  - cbn [forallb] in Kt. apply andb_true_iff in Kt. destruct Kt as [Kk Kr].
    cbn [toRPNLoop]. destruct tok.
    + apply (IH _ _ Kr Ks). rewrite forallb_app, Ko. cbn [forallb]. unfold kept.
      rewrite Kk. reflexivity.
    + apply (IH _ _ Kr Ks). rewrite forallb_app, Ko. cbn [forallb]. unfold kept.
      rewrite Kk. reflexivity.
    + apply (IH _ _ Kr); [|exact Ko]. cbn [forallb]. unfold stacked at 1.
      rewrite Kk, Ks. reflexivity.
    + destruct (popToLparen_spec stack output) as [moved [E1 [E2 [F _]]]].
      destruct (popToLparen stack output) as [stack' output'].
      cbn [fst snd] in E1, E2. subst stack output'.
      rewrite forallb_app in Ks. apply andb_true_iff in Ks. destruct Ks as [Km Ks].
      destruct stack' as [|s stack']; [reflexivity|].
      apply (IH _ _ Kr Ks). rewrite forallb_app, Ko.
      exact (stacked_moved moved Km F).
    + apply (IH _ _ Kr); [|exact Ko]. cbn [forallb]. unfold stacked at 1.
      rewrite Kk, Ks. reflexivity.
    + pose proof (popThroughLparen_spec stack output) as P.
      destruct (popThroughLparen stack output) as [[stack' output']|];
        [|reflexivity].
      destruct P as [moved [-> [-> F]]].
      rewrite forallb_app in Ks. apply andb_true_iff in Ks. destruct Ks as [Km Ks].
      cbn [forallb] in Ks. apply andb_true_iff in Ks. destruct Ks as [_ Ks].
      assert (Ko' : forallb kept (output ++ moved) = true).
      { rewrite forallb_app, Ko. exact (stacked_moved moved Km F). }
      destruct stack' as [|top below]; [exact (IH _ _ Kr Ks Ko')|].
      destruct top; try exact (IH _ _ Kr Ks Ko').
      cbn [forallb] in Ks. apply andb_true_iff in Ks. destruct Ks as [Kf Kb].
      apply (IH _ _ Kr Kb). rewrite forallb_app, Ko'. cbn [forallb].
      unfold stacked in Kf. unfold kept.
      apply andb_true_iff in Kf. destruct Kf as [I _]. rewrite I. reflexivity.
    + destruct (popOperators_spec value stack output) as [moved [E1 [E2 F]]].
      destruct (popOperators value stack output) as [stack' output'].
      cbn [fst snd] in E1, E2. subst stack output'.
      rewrite forallb_app in Ks. apply andb_true_iff in Ks. destruct Ks as [Km Ks].
      apply (IH _ _ Kr).
      * cbn [forallb]. unfold stacked at 1. rewrite Kk, Ks. reflexivity.
      * rewrite forallb_app, Ko.
        exact (stacked_moved moved Km (applied_not_lparen moved F)).
Qed.

Lemma toRPN_invariant (tokens : list token) :
  forallb inv tokens = true ->
  match toRPN tokens with
  | Ok result => forallb kept result = true
  | Throw e => e = UnmatchedParen
  end.
Proof. intros K. exact (toRPNLoop_invariant tokens [] [] K eq_refl eq_refl). Qed.

End TokenInvariant.

(** ** What the parser accepts can be evaluated *)

(** The names that the lexer produces: the variables [x] and [y] and the
    functions of [FUNCTIONS]. *)
Definition knownToken (t : token) : bool :=
  match t with
  | TVariable value => String.eqb value "x" || String.eqb value "y"
  | TFunction value => isFunctionName value
  | _ => true
  end.

(** The nodes made of these names and of the unary minus. *)
Fixpoint knownNames (n : node) : bool :=
  match n with
  | NNumber _ => true
  | NVariable name => String.eqb name "x" || String.eqb name "y"
  | NUnary op a => String.eqb op "u-" && knownNames a
  | NFunction name a => isFunctionName name && knownNames a
  | NBinary _ l r => knownNames l && knownNames r
  end.

(** The exceptions of the lexer. *)
Definition isLexerError (e : error) : bool :=
  match e with
  | InvalidNumber | UnknownSymbol _ | InvalidCharacter _ | OutOfFuel => true
  | _ => false
  end.

Lemma forallb_snoc {A : Type} (p : A -> bool) (l : list A) (a : A) :
  forallb p l = true -> p a = true -> forallb p (l ++ [a]) = true.
Proof.
  intros Hl Ha. rewrite forallb_app, Hl. cbn [forallb]. rewrite Ha. reflexivity.
Qed.

Lemma tokenizeLoop_known (fuel : nat) (input : list codeUnit) (prevType : tokenKind)
    (tokens : list token) :
  forallb knownToken tokens = true ->
  match tokenizeLoop fuel input prevType tokens with
  | Ok result => forallb knownToken result = true
  | Throw e => isLexerError e = true
  end.
Proof.
  revert input prevType tokens.
  induction fuel as [|fuel IH]; intros input prevType tokens K.
  - reflexivity.
  - destruct input as [|char rest]; [exact K|].
    cbn [tokenizeLoop].
    destruct ((char =? 32)%N || (char =? 9)%N || (char =? 10)%N);
      [exact (IH _ _ _ K)|].
    destruct (isNumberChar char).
    { destruct (span isNumberChar rest) as [more after].
      match goal with |- context [if ?b then _ else _] => destruct b end;
        [reflexivity|].
      apply IH. apply forallb_snoc; [exact K|reflexivity]. }
    destruct (isIdentifierStart char).
    { destruct (span isIdentifierChar rest) as [more after].
      destruct (CONSTANTS _).
      { apply IH. apply forallb_snoc; [exact K|reflexivity]. }
      destruct (isFunctionName _) eqn:F.
      { apply IH. apply forallb_snoc; [exact K|exact F]. }
      match goal with |- context [if ?b then _ else _] => destruct b eqn:V end;
        [|reflexivity].
      apply IH. apply forallb_snoc; [exact K|exact V]. }
    destruct (char =? 44)%N;
      [apply IH; apply forallb_snoc; [exact K|reflexivity]|].
    destruct (char =? 40)%N;
      [apply IH; apply forallb_snoc; [exact K|reflexivity]|].
    destruct (char =? 41)%N;
      [apply IH; apply forallb_snoc; [exact K|reflexivity]|].
    destruct (operatorOfChar char); [|reflexivity].
    apply IH. apply forallb_snoc; [exact K|reflexivity].
Qed.

(** The exceptions of [buildAST] on postfix tokens. *)
Definition isBuildError (e : error) : bool :=
  match e with
  | UnaryLacksArgument | BinaryLacksArgument | FunctionLacksArgument
  | InvalidStructure => true
  | _ => false
  end.

Section Evaluable.
Context {ML : MathLib}.

Lemma buildASTLoop_known (rpn : list token) (stack : list node) :
  forallb (kept knownToken) rpn = true -> forallb knownNames stack = true ->
  match buildASTLoop rpn stack with
  | Ok result => forallb knownNames result = true
  | Throw e => isBuildError e = true
  end.
Proof.
  revert stack. induction rpn as [|tok rest IH]; intros stack Kt Ks.
  - exact Ks.
  - cbn [forallb] in Kt. apply andb_true_iff in Kt. destruct Kt as [Kk Kr].
    unfold kept in Kk. apply andb_true_iff in Kk. destruct Kk as [Kk Kp].
    cbn [buildASTLoop].
    destruct tok as [v|v|v| | | |[op|]]; try discriminate Kp.
    + apply (IH _ Kr). cbn [forallb knownNames createNumber]. exact Ks.
    + apply (IH _ Kr). cbn [forallb knownNames createVariable].
      cbn [knownToken] in Kk. rewrite Kk, Ks. reflexivity.
    + destruct stack as [|arg below]; [reflexivity|].
      cbn [forallb] in Ks. apply andb_true_iff in Ks. destruct Ks as [Ka Kb].
      apply (IH _ Kr). cbn [forallb knownNames createFunction].
      cbn [knownToken] in Kk. rewrite Kk, Ka, Kb. reflexivity.
    + destruct stack as [|r [|l below]]; try reflexivity.
      cbn [forallb] in Ks. apply andb_true_iff in Ks. destruct Ks as [Ka Ks].
      apply andb_true_iff in Ks. destruct Ks as [Kl Kb].
      apply (IH _ Kr). cbn [forallb knownNames createBinary].
      rewrite Ka, Kl, Kb. reflexivity.
    + destruct stack as [|arg below]; [reflexivity|].
      cbn [forallb] in Ks. apply andb_true_iff in Ks. destruct Ks as [Ka Kb].
      apply (IH _ Kr). cbn [forallb knownNames createUnary].
      rewrite Ka, Kb. reflexivity.
Qed.

Lemma knownNames_simplifyNode (n : node) :
  knownNames n = true -> knownNames (simplifyNode n) = true.
Proof.
  induction n as [v|x|op a IHa|f a IHa|op l IHl r IHr]; intros K.
  - exact K.
  - exact K.
  - cbn [knownNames] in K. apply andb_true_iff in K. destruct K as [Ko Ka].
    cbn [simplifyNode]. rewrite Ko. specialize (IHa Ka).
    destruct (simplifyNode a); cbn [knownNames createNumber createUnary] in *;
      try reflexivity; exact IHa.
  - cbn [knownNames] in K. apply andb_true_iff in K. destruct K as [Kf Ka].
    cbn [simplifyNode createFunction knownNames]. rewrite Kf, (IHa Ka). reflexivity.
  - cbn [knownNames] in K. apply andb_true_iff in K. destruct K as [Kl Kr].
    specialize (IHl Kl). specialize (IHr Kr). cbn [simplifyNode].
    destruct (simplifyBinary_cases op (simplifyNode l) (simplifyNode r))
      as [E|[E|[E|[[lv [rv [_ [_ E]]]]|[_ [E|E]]]]]]; rewrite E; auto.
    cbn [knownNames]. rewrite IHl, IHr. reflexivity.
Qed.

Lemma parseExpression_known (input : list codeUnit) :
  match parseExpression input with
  | Ok n => knownNames n = true
  | Throw e =>
      (e = EmptyExpression /\ trim input = []) \/ isLexerError e = true \/
      e = UnmatchedParen \/ isBuildError e = true
  end.
Proof.
  unfold parseExpression. destruct (trim input); [auto|].
  unfold tokenize.
  pose proof (tokenizeLoop_known (S (List.length (replaceMinusSign input)))
                (replaceMinusSign input) KStart [] eq_refl) as T.
  destruct (tokenizeLoop _ _ _ _) as [tokens|e]; [|cbn [bind]; auto].
  cbn [bind]. pose proof (toRPN_invariant knownToken tokens T) as R.
  destruct (toRPN tokens) as [rpn|e]; [|cbn [bind]; auto].
  cbn [bind]. unfold buildAST.
  pose proof (buildASTLoop_known rpn [] R eq_refl) as B.
  destruct (buildASTLoop rpn []) as [stack|e]; [|cbn [bind]; auto].
  cbn [bind]. destruct stack as [|top [|]]; auto.
  cbn [forallb] in B. rewrite andb_true_r in B.
  exact (knownNames_simplifyNode top B).
Qed.

Lemma evalFunction_known (name : string) (value : num) :
  isFunctionName name = true -> exists v, evalFunction name value = Ok v.
Proof.
  unfold isFunctionName, FUNCTIONS, evalFunction. cbn [existsb].
  intros H.
  repeat match goal with
  | |- context [String.eqb name ?s] =>
      destruct (String.eqb name s); cbn [orb] in *; eauto
  end.
  discriminate H.
Qed.

Lemma knownNames_evaluable (n : node) (x y : num) :
  knownNames n = true -> exists v, evaluateNode n (xyScope x y) = Ok v.
Proof.
  induction n as [v|name|op a IHa|f a IHa|op l IHl r IHr]; intros K.
  - eexists. reflexivity.
  - cbn [knownNames] in K. cbn [evaluateNode]. unfold xyScope.
    destruct (String.eqb name "x"); [eauto|].
    cbn [orb] in K. rewrite K. eauto.
  - cbn [knownNames] in K. apply andb_true_iff in K. destruct K as [Ko Ka].
    destruct (IHa Ka) as [v E]. cbn [evaluateNode]. rewrite E. cbn [bind].
    rewrite Ko. eauto.
  - cbn [knownNames] in K. apply andb_true_iff in K. destruct K as [Kf Ka].
    destruct (IHa Ka) as [v E]. cbn [evaluateNode]. rewrite E. cbn [bind].
    apply evalFunction_known. exact Kf.
  - cbn [knownNames] in K. apply andb_true_iff in K. destruct K as [Kl Kr].
    destruct (IHl Kl) as [vl El]. destruct (IHr Kr) as [vr Er].
    cbn [evaluateNode]. rewrite El, Er. cbn [bind]. eauto.
Qed.

Lemma knownNames_variables (n : node) (variable : string) :
  knownNames n = true -> dependsOn n variable = true ->
  variable = "x" \/ variable = "y".
Proof.
  induction n as [v|name|op a IHa|f a IHa|op l IHl r IHr]; intros K D.
  - discriminate D.
  - cbn [knownNames] in K. cbn [dependsOn] in D.
    apply String.eqb_eq in D. subst variable.
    apply orb_true_iff in K. destruct K as [K|K]; apply String.eqb_eq in K; auto.
  - cbn [knownNames] in K. apply andb_true_iff in K. destruct K as [_ Ka]. auto.
  - cbn [knownNames] in K. apply andb_true_iff in K. destruct K as [_ Ka]. auto.
  - cbn [knownNames] in K. apply andb_true_iff in K. destruct K as [Kl Kr].
    cbn [dependsOn] in D. apply orb_true_iff in D. destruct D; auto.
Qed.

(** X5: A node that the parser returns has no other variable than [x] and
    [y], and its evaluation on the scope [{ x, y }] throws no exception: the
    evaluator of the derivative answers [NaN] only when the value is not
    finite. *)
Theorem parseExpression_evaluable (input : list codeUnit) (n : node) :
  parseExpression input = Ok n ->
  (forall variable, dependsOn n variable = true ->
     variable = "x" \/ variable = "y") /\
  (forall x y, exists v,
     evaluateNode n (xyScope x y) = Ok v /\
     createDerivativeEvaluator n x y = (if isFinite v then v else NaN)).
Proof.
  intros H. pose proof (parseExpression_known input) as K. rewrite H in K. split.
  - intros variable. apply knownNames_variables. exact K.
  - intros x y. destruct (knownNames_evaluable n x y K) as [v E].
    exists v. split; [exact E|]. unfold createDerivativeEvaluator. rewrite E.
    destruct (isFinite v); reflexivity.
Qed.

Lemma forallb_rev {A : Type} (p : A -> bool) (l : list A) :
  forallb p (rev l) = forallb p l.
Proof.
  induction l as [|a l IH]; [reflexivity|].
  cbn [rev forallb]. rewrite forallb_app, IH. cbn [forallb].
  rewrite andb_true_r. apply andb_comm.
Qed.

Lemma trimStart_blank (s : list codeUnit) :
  trimStart s = [] <-> forallb isWhiteSpace s = true.
Proof.
  induction s as [|c rest IH]; cbn [trimStart forallb].
  - split; reflexivity.
  - destruct (isWhiteSpace c); cbn [andb]; [exact IH|].
    split; discriminate.
Qed.

Lemma forallb_trimStart (s : list codeUnit) :
  forallb isWhiteSpace (trimStart s) = forallb isWhiteSpace s.
Proof.
  induction s as [|c rest IH]; [reflexivity|].
  cbn [trimStart]. destruct (isWhiteSpace c) eqn:W; [|reflexivity].
  cbn [forallb]. rewrite W. exact IH.
Qed.

Lemma trim_blank (s : list codeUnit) :
  trim s = [] <-> forallb isWhiteSpace s = true.
Proof.
  unfold trim. rewrite <- forallb_trimStart, <- forallb_rev, <- trimStart_blank.
  split.
  - intros H. apply (f_equal (@rev codeUnit)) in H.
    rewrite rev_involutive in H. exact H.
  - intros H. rewrite H. reflexivity.
Qed.

(** X6: [parseExpression] throws the exception of the empty expression on
    the texts made of white space, and on no other. On the other texts its
    exceptions are those of the lexer, the unmatched parenthesis, and the
    missing arguments and the invalid structure of [buildAST]; the unknown
    token of [buildAST] is never thrown. *)
Theorem parseExpression_exceptions (input : list codeUnit) :
  (forallb isWhiteSpace input = true ->
   parseExpression input = Throw EmptyExpression) /\
  (forall e, parseExpression input = Throw e ->
     match e with
     | EmptyExpression => forallb isWhiteSpace input = true
     | InvalidNumber | UnknownSymbol _ | InvalidCharacter _ | UnmatchedParen
     | UnaryLacksArgument | BinaryLacksArgument | FunctionLacksArgument
     | InvalidStructure => forallb isWhiteSpace input = false
     | _ => False
     end).
Proof.
  split.
  - intros B. apply trim_blank in B. unfold parseExpression. rewrite B. reflexivity.
  - intros e H.
    pose proof (parseExpression_known input) as K. rewrite H in K.
    pose proof (parseExpression_fuel input) as F.
    destruct (forallb isWhiteSpace input) eqn:B.
    + apply trim_blank in B. unfold parseExpression in H. rewrite B in H.
      injection H as <-. reflexivity.
    + assert (N : trim input <> []).
      { intros T. apply trim_blank in T. congruence. }
      destruct K as [[_ K]|K]; [contradiction (N K)|].
      destruct e; try reflexivity;
        try (contradiction F; rewrite H; reflexivity);
        destruct K as [K|[K|K]]; discriminate K.
Qed.

End Evaluable.

Local Open Scope string_scope.

(** The text [sin(x) / y] at [x = 1], [y = 2]. *)
Lemma parseExpression_evaluable_witness :
  exists v,
    evaluateNode (ML := rationalMath)
      (NBinary Div (NFunction "sin" (NVariable "x")) (NVariable "y"))
      (xyScope (Fin 1) (Fin 2)) = Ok v.
Proof.
  destruct (parseExpression_evaluable (ML := rationalMath) (str "sin(x) / y")
              (NBinary Div (NFunction "sin" (NVariable "x")) (NVariable "y"))
              eq_refl) as [_ H].
  destruct (H (Fin 1) (Fin 2)) as [v [E _]]. exists v. exact E.
Defined.

(** A text of two spaces, and the text [x +]. *)
Lemma parseExpression_exceptions_witness :
  parseExpression (ML := rationalMath) (str "  ") = Throw EmptyExpression /\
  forallb isWhiteSpace (str "x +") = false.
Proof.
  split.
  - apply (proj1 (parseExpression_exceptions (ML := rationalMath) (str "  "))).
    reflexivity.
  - exact (proj2 (parseExpression_exceptions (ML := rationalMath) (str "x +"))
             BinaryLacksArgument eq_refl).
Defined.

(** ** [toRPN] reorders the tokens *)

Local Open Scope list_scope.

Definition isOperand (t : token) : bool :=
  match t with TNumber _ | TVariable _ => true | _ => false end.

Lemma filter_all {A : Type} (p : A -> bool) (l : list A) :
  forallb p l = true -> filter p l = l.
Proof.
  induction l as [|a l IH]; [reflexivity|].
  cbn [forallb filter]. intros H. apply andb_true_iff in H. destruct H as [Ha Hl].
  rewrite Ha, (IH Hl). reflexivity.
Qed.

Lemma filter_none {A : Type} (p : A -> bool) (l : list A) :
  forallb (fun a => negb (p a)) l = true -> filter p l = [].
Proof.
  induction l as [|a l IH]; [reflexivity|].
  cbn [forallb filter]. intros H. apply andb_true_iff in H. destruct H as [Ha Hl].
  apply negb_true_iff in Ha. rewrite Ha. exact (IH Hl).
Qed.

Lemma forallb_weaken {A : Type} (p q : A -> bool) (l : list A) :
  (forall a, p a = true -> q a = true) ->
  forallb p l = true -> forallb q l = true.
Proof.
  intros W. induction l as [|a l IH]; [reflexivity|].
  cbn [forallb]. intros H. apply andb_true_iff in H. destruct H as [Ha Hl].
  rewrite (W a Ha), (IH Hl). reflexivity.
Qed.

(** The tokens that leave the stack for the output are functions and
    operators. *)
Lemma moved_postfix (moved : list token) :
  forallb isStackToken moved = true ->
  forallb (fun t => negb (isLparen t)) moved = true ->
  filter isPostfixToken moved = moved /\ filter isOperand moved = [].
Proof.
  intros S L.
  assert (A : forallb isApplied moved = true).
  { clear - S L. induction moved as [|t moved IH]; [reflexivity|].
    cbn [forallb] in *.
    apply andb_true_iff in S. destruct S as [St Sm].
    apply andb_true_iff in L. destruct L as [Lt Lm].
    rewrite (IH Sm Lm), andb_true_r. destruct t; try reflexivity; discriminate. }
  split.
  - apply filter_all. revert A. apply forallb_weaken.
    intros [] H; try reflexivity; discriminate H.
  - apply filter_none. revert A. apply forallb_weaken.
    intros [] H; try reflexivity; discriminate H.
Qed.

Lemma stack_no_operand (stack : list token) :
  forallb isStackToken stack = true -> filter isOperand stack = [].
Proof.
  intros S. apply filter_none. revert S. apply forallb_weaken.
  intros [] H; try reflexivity; discriminate H.
Qed.

Lemma toRPNLoop_reorders (tokens stack output result : list token) :
  toRPNLoop tokens stack output = Ok result ->
  forallb isStackToken stack = true ->
  Permutation result
    (output ++ filter isPostfixToken stack ++ filter isPostfixToken tokens) /\
  filter isOperand result = filter isOperand output ++ filter isOperand tokens.
Proof.
  revert stack output. induction tokens as [|tok rest IH];
    intros stack output H S.
  - cbn [toRPNLoop] in H. pose proof (drainStack_spec stack output) as D.
    rewrite H in D. destruct D as [-> P].
    assert (L : forallb (fun t => negb (isLparen t)) stack = true).
    { revert P. apply forallb_weaken. intros [] Ht; try reflexivity; discriminate Ht. }
    destruct (moved_postfix stack S L) as [E1 E2].
    cbn [filter]. rewrite app_nil_r, E1, filter_app, E2. split; reflexivity.
  - cbn [toRPNLoop] in H. destruct tok.
    + destruct (IH _ _ H S) as [P O]. split.
      * rewrite P. cbn [filter isPostfixToken]. rewrite <- app_assoc. cbn [app].
        apply Permutation_app_head. first [apply Permutation_middle|symmetry; apply Permutation_middle].
      * rewrite O, filter_app. cbn [filter isOperand]. rewrite <- app_assoc.
        reflexivity.
    + destruct (IH _ _ H S) as [P O]. split.
      * rewrite P. cbn [filter isPostfixToken]. rewrite <- app_assoc. cbn [app].
        apply Permutation_app_head. first [apply Permutation_middle|symmetry; apply Permutation_middle].
      * rewrite O, filter_app. cbn [filter isOperand]. rewrite <- app_assoc.
        reflexivity.
    + destruct (IH (TFunction value :: stack) output H) as [P O].
      { cbn [forallb isStackToken]. exact S. }
      split; [|exact O].
      rewrite P. cbn [filter isPostfixToken app].
      apply Permutation_app_head. first [apply Permutation_middle|symmetry; apply Permutation_middle].
    + destruct (popToLparen_spec stack output) as [moved [E1 [E2 [F _]]]].
      destruct (popToLparen stack output) as [stack' output'].
      cbn [fst snd] in E1, E2. subst stack output'.
      rewrite forallb_app in S. apply andb_true_iff in S. destruct S as [Sm S].
      destruct (moved_postfix moved Sm F) as [M1 M2].
      destruct stack' as [|s stack']; [discriminate H|].
      destruct (IH _ _ H S) as [P O]. split.
      * rewrite P, filter_app, M1, <- !app_assoc. reflexivity.
      * rewrite O, filter_app, M2, app_nil_r. reflexivity.
    + destruct (IH (TLparen :: stack) output H) as [P O].
      { cbn [forallb isStackToken]. exact S. }
      split; [|exact O]. exact P.
    + pose proof (popThroughLparen_spec stack output) as T.
      destruct (popThroughLparen stack output) as [[stack' output']|];
        [|discriminate H].
      destruct T as [moved [-> [-> F]]].
      rewrite forallb_app in S. apply andb_true_iff in S. destruct S as [Sm S].
      cbn [forallb] in S. apply andb_true_iff in S. destruct S as [_ S].
      destruct (moved_postfix moved Sm F) as [M1 M2].
      assert (Plain :
                toRPNLoop rest stack' (output ++ moved) = Ok result ->
                Permutation result
                  (output ++ filter isPostfixToken (moved ++ TLparen :: stack') ++
                   filter isPostfixToken (TRparen :: rest)) /\
                filter isOperand result =
                filter isOperand output ++ filter isOperand (TRparen :: rest)).
      { intros H'. destruct (IH _ _ H' S) as [P O]. split.
        - rewrite P, filter_app, M1. cbn [filter isPostfixToken].
          rewrite <- !app_assoc. reflexivity.
        - rewrite O, filter_app, M2, app_nil_r. reflexivity. }
      destruct stack' as [|top below]; [exact (Plain H)|].
      destruct top; try exact (Plain H).
      cbn [forallb] in S. apply andb_true_iff in S. destruct S as [_ Sb].
      destruct (IH _ _ H Sb) as [P O]. split.
      * rewrite P, filter_app, M1. cbn [filter isPostfixToken].
        rewrite <- !app_assoc. reflexivity.
      * rewrite O, !filter_app, M2. cbn [filter isOperand].
        rewrite !app_nil_r. reflexivity.
    + destruct (popOperators_spec value stack output) as [moved [E1 [E2 F]]].
      destruct (popOperators value stack output) as [stack' output'].
      cbn [fst snd] in E1, E2. subst stack output'.
      rewrite forallb_app in S. apply andb_true_iff in S. destruct S as [Sm S].
      destruct (moved_postfix moved Sm (applied_not_lparen moved F)) as [M1 M2].
      destruct (IH (TOperator value :: stack') (output ++ moved) H) as [P O].
      { cbn [forallb isStackToken]. exact S. }
      split.
      * rewrite P, filter_app, M1. cbn [filter isPostfixToken].
        rewrite <- !app_assoc. apply Permutation_app_head.
        apply Permutation_app_head. cbn [app].
        first [apply Permutation_middle|symmetry; apply Permutation_middle].
      * rewrite O, filter_app, M2, app_nil_r. reflexivity.
Qed.

(** X7: The output of [toRPN] is made of the numbers, the variables, the
    functions and the operators of its input, each as many times as in the
    input; the numbers and the variables come in the order of the input. *)
Theorem toRPN_reorders (tokens result : list token) :
  toRPN tokens = Ok result ->
  Permutation result (filter isPostfixToken tokens) /\
  filter isOperand result = filter isOperand tokens.
Proof.
  intros H. exact (toRPNLoop_reorders tokens [] [] result H eq_refl).
Qed.

(** The tokens of [2 * (x + y)]. *)
Lemma toRPN_reorders_witness :
  filter isOperand
    [TNumber (Fin 2); TVariable "x"; TVariable "y";
     TOperator (OpBinary Add); TOperator (OpBinary Mul)] =
  [TNumber (Fin 2); TVariable "x"; TVariable "y"].
Proof.
  exact (proj2 (toRPN_reorders
                  [TNumber (Fin 2); TOperator (OpBinary Mul); TLparen;
                   TVariable "x"; TOperator (OpBinary Add); TVariable "y";
                   TRparen]
                  [TNumber (Fin 2); TVariable "x"; TVariable "y";
                   TOperator (OpBinary Add); TOperator (OpBinary Mul)]
                  eq_refl)).
Defined.

(** ** [buildAST] reads the postfix order *)

(** The tokens of a node in postfix order. *)
Fixpoint postfix (n : node) : list token :=
  match n with
  | NNumber value => [TNumber value]
  | NVariable name => [TVariable name]
  | NUnary _ a => postfix a ++ [TOperator OpNegate]
  | NFunction name a => postfix a ++ [TFunction name]
  | NBinary op l r => postfix l ++ postfix r ++ [TOperator (OpBinary op)]
  end.

(** Every unary node is a unary minus. *)
Fixpoint negationsOnly (n : node) : bool :=
  match n with
  | NNumber _ | NVariable _ => true
  | NUnary op a => String.eqb op "u-" && negationsOnly a
  | NFunction _ a => negationsOnly a
  | NBinary _ l r => negationsOnly l && negationsOnly r
  end.

Section Postfix.
Context {ML : MathLib}.

Lemma buildASTLoop_postfix (n : node) (rest : list token) (stack : list node) :
  negationsOnly n = true ->
  buildASTLoop (postfix n ++ rest) stack = buildASTLoop rest (n :: stack).
Proof.
  revert rest stack.
  induction n as [v|x|op a IHa|f a IHa|op l IHl r IHr]; intros rest stack N.
  - reflexivity.
  - reflexivity.
  - cbn [negationsOnly] in N. apply andb_true_iff in N. destruct N as [No Na].
    apply String.eqb_eq in No. subst op.
    cbn [postfix]. rewrite <- app_assoc, (IHa _ _ Na). reflexivity.
  - cbn [negationsOnly] in N.
    cbn [postfix]. rewrite <- app_assoc, (IHa _ _ N). reflexivity.
  - cbn [negationsOnly] in N. apply andb_true_iff in N. destruct N as [Nl Nr].
    cbn [postfix]. rewrite <- !app_assoc, (IHl _ _ Nl), (IHr _ _ Nr). reflexivity.
Qed.

(** X8: [buildAST] on the postfix order of a node gives the node,
    simplified. *)
Theorem buildAST_postfix (n : node) :
  negationsOnly n = true -> buildAST (postfix n) = Ok (simplifyNode n).
Proof.
  intros N. unfold buildAST.
  rewrite <- (app_nil_r (postfix n)), (buildASTLoop_postfix n [] [] N).
  reflexivity.
Qed.

End Postfix.

Local Open Scope string_scope.

(** The node [-(x + 0)]. *)
Lemma buildAST_postfix_witness :
  buildAST (ML := rationalMath)
    [TVariable "x"; TNumber (Fin 0); TOperator (OpBinary Add); TOperator OpNegate] =
  Ok (NUnary "u-" (NVariable "x")).
Proof.
  apply (buildAST_postfix (ML := rationalMath)
           (NUnary "u-" (NBinary Add (NVariable "x") (NNumber (Fin 0))))).
  reflexivity.
Defined.

(** ** The variables of the nodes that the integrator builds *)

Section Variables.
Context {ML : MathLib}.

Lemma dependsOn_simplified (n : node) (variable : string) :
  dependsOn (simplifyNode n) variable = true -> dependsOn n variable = true.
Proof.
  intros H. destruct (dependsOn n variable) eqn:E; [reflexivity|].
  rewrite (dependsOn_simplifyNode n variable E) in H. discriminate H.
Qed.

Lemma dependsOn_binary (op : binop) (a b : node) (variable : string) :
  dependsOn (simplifyNode (createBinary op a b)) variable = true ->
  dependsOn a variable = true \/ dependsOn b variable = true.
Proof.
  intros H. apply dependsOn_simplified in H. cbn [createBinary dependsOn] in H.
  apply orb_true_iff in H. exact H.
Qed.

Lemma dependsOn_makeNeg (a : node) (variable : string) :
  dependsOn (makeNeg a) variable = true -> dependsOn a variable = true.
Proof. intros H. apply dependsOn_simplified in H. exact H. Qed.

Lemma cloneNode_same (n : node) : cloneNode n = n.
Proof.
  induction n as [v|x|op a IHa|f a IHa|op l IHl r IHr];
    cbn [cloneNode createNumber createVariable createFunction createBinary];
    rewrite ?IHa, ?IHl, ?IHr; reflexivity.
Qed.

(** The variables of a node that are not [variable]. *)
Definition within (result n : node) (variable : string) : Prop :=
  forall w, dependsOn result w = true -> w = variable \/ dependsOn n w = true.

Lemma matchLinearRecursive_intercept (n : node) (variable : string)
    (form : linearForm) :
  matchLinearRecursive n variable = Some form ->
  dependsOn (lf_b form) variable = false /\
  (forall w, dependsOn (lf_b form) w = true -> dependsOn n w = true).
Proof.
  revert form.
  induction n as [v|x|op a IHa|f a IHa|op l IHl r IHr]; intros form H.
  - cbn in H. injection H as <-. split; [reflexivity|discriminate].
  - cbn [matchLinearRecursive dependsOn isVariableNode] in H.
    destruct (String.eqb x variable) eqn:E; cbn [negb] in H.
    + injection H as <-. split; [reflexivity|discriminate].
    + injection H as <-. cbn [lf_b dependsOn]. split; [exact E|auto].
  - cbn [matchLinearRecursive dependsOn isVariableNode] in H.
    destruct (dependsOn a variable) eqn:D; cbn [negb] in H.
    + destruct (String.eqb op "u-"); [|discriminate H].
      destruct (matchLinearRecursive a variable) as [inner|]; [|discriminate H].
      injection H as <-. destruct (IHa inner eq_refl) as [I1 I2].
      cbn [lf_b]. split.
      * apply dependsOn_simplifyNode. exact I1.
      * intros w Hw. apply dependsOn_makeNeg in Hw. cbn [dependsOn]. auto.
    + injection H as <-. cbn [lf_b dependsOn]. split; [exact D|auto].
  - cbn [matchLinearRecursive dependsOn isVariableNode] in H.
    destruct (dependsOn a variable) eqn:D; cbn [negb] in H; [discriminate H|].
    injection H as <-. cbn [lf_b dependsOn]. split; [exact D|auto].
  - cbn [matchLinearRecursive isVariableNode] in H.
    destruct (dependsOn (NBinary op l r) variable) eqn:D; cbn [negb] in H.
    2:{ injection H as <-. cbn [lf_b]. split; [exact D|auto]. }
    assert (Both : forall (mk : node -> node -> node) a left right,
              (forall x y, mk x y = simplifyNode (createBinary a x y)) ->
              (dependsOn left variable = false /\
               forall w, dependsOn left w = true -> dependsOn l w = true) ->
              (dependsOn right variable = false /\
               forall w, dependsOn right w = true -> dependsOn r w = true) ->
              dependsOn (mk left right) variable = false /\
              forall w, dependsOn (mk left right) w = true ->
                        dependsOn (NBinary op l r) w = true).
    { intros mk a left right Emk [L1 L2] [R1 R2]. rewrite Emk. split.
      - apply dependsOn_simplifyNode. cbn [createBinary dependsOn].
        rewrite L1, R1. reflexivity.
      - intros w Hw. apply dependsOn_binary in Hw. cbn [dependsOn].
        apply orb_true_iff. destruct Hw; auto. }
    assert (Literal : forall c : num,
              dependsOn (createNumber c) variable = false /\
              forall w, dependsOn (createNumber c) w = true -> dependsOn l w = true).
    { intros c. split; [reflexivity|discriminate]. }
    assert (Literal' : forall c : num,
              dependsOn (createNumber c) variable = false /\
              forall w, dependsOn (createNumber c) w = true -> dependsOn r w = true).
    { intros c. split; [reflexivity|discriminate]. }
    destruct op.
    + destruct (matchLinearRecursive l variable) as [fl|]; [|discriminate H].
      destruct (matchLinearRecursive r variable) as [fr|]; [|discriminate H].
      injection H as <-. cbn [lf_b].
      apply (Both makeAdd Add); auto.
    + destruct (matchLinearRecursive l variable) as [fl|]; [|discriminate H].
      destruct (matchLinearRecursive r variable) as [fr|]; [|discriminate H].
      injection H as <-. cbn [lf_b].
      apply (Both makeSub Sub); auto.
    + destruct (isConstantWithRespectTo l variable).
      * destruct (extractNumericConstant l) as [c|]; [|discriminate H].
        destruct (matchLinearRecursive r variable) as [fr|]; [|discriminate H].
        injection H as <-. cbn [lf_b].
        apply (Both makeMul Mul); auto.
      * destruct (isConstantWithRespectTo r variable); [|discriminate H].
        destruct (extractNumericConstant r) as [c|]; [|discriminate H].
        destruct (matchLinearRecursive l variable) as [fl|]; [|discriminate H].
        injection H as <-. cbn [lf_b].
        destruct (IHl fl eq_refl) as [L1 L2]. unfold makeMul. split.
        -- apply dependsOn_simplifyNode. cbn [createBinary createNumber dependsOn].
           exact L1.
        -- intros w Hw. apply dependsOn_binary in Hw. cbn [dependsOn].
           destruct Hw as [Hw|Hw]; [discriminate Hw|].
           rewrite (L2 w Hw). reflexivity.
    + destruct (isConstantWithRespectTo r variable); [|discriminate H].
      destruct (extractNumericConstant r) as [c|]; [|discriminate H].
      destruct (nlt (nabs c) tolerance); [discriminate H|].
      destruct (matchLinearRecursive l variable) as [fl|]; [|discriminate H].
      injection H as <-. cbn [lf_b].
      apply (Both makeDiv Div); auto.
    + discriminate H.
Qed.

Lemma matchLinear_parts_helper (n : node) (variable : string) (info : linearInfo) :
  matchLinear n variable = Some info ->
  dependsOn (li_b info) variable = false /\
  (forall w, dependsOn (li_b info) w = true -> dependsOn n w = true) /\
  within (li_node info) n variable /\
  (dependsOn n variable = false -> li_a info = Fin 0).
Proof.
  unfold matchLinear. intros H.
  destruct (matchLinearRecursive n variable) as [form|] eqn:M; [|discriminate H].
  destruct (matchLinearRecursive_intercept n variable form M) as [B1 B2].
  assert (Z : dependsOn n variable = false ->
              nlt (nabs (lf_a form)) tolerance = true).
  { intros D. rewrite (matchLinearRecursive_constant n variable D) in M.
    injection M as <-. reflexivity. }
  destruct (nlt (nabs (lf_a form)) tolerance) eqn:T; injection H as <-;
    cbn [li_a li_b li_node].
  - split; [exact B1|]. split; [exact B2|]. split; [|reflexivity].
    intros w Hw. right. apply B2. apply dependsOn_simplified. exact Hw.
  - split; [exact B1|]. split; [exact B2|]. split.
    + intros w Hw. apply dependsOn_simplified in Hw.
      apply dependsOn_binary in Hw. destruct Hw as [Hw|Hw]; [|right; auto].
      apply dependsOn_binary in Hw. destruct Hw as [Hw|Hw]; [discriminate Hw|].
      cbn [createVariable dependsOn] in Hw. apply String.eqb_eq in Hw. auto.
    + intros D. specialize (Z D). discriminate Z.
Qed.

(** X9: What [matchLinear] returns: the node [b] does not depend on the
    variable, [b] and the rebuilt node have no variable that the matched
    node has not, the variable apart, and a node that does not depend on the
    variable has the slope zero. *)
Theorem matchLinear_parts (n : node) (variable : string) (info : linearInfo) :
  matchLinear n variable = Some info ->
  dependsOn (li_b info) variable = false /\
  (forall w, dependsOn (li_b info) w = true -> dependsOn n w = true) /\
  within (li_node info) n variable /\
  (dependsOn n variable = false -> li_a info = Fin 0).
Proof. exact (matchLinear_parts_helper n variable info). Qed.

Lemma within_variable (n : node) (variable : string) :
  within (createVariable variable) n variable.
Proof.
  intros w Hw. cbn [createVariable dependsOn] in Hw.
  apply String.eqb_eq in Hw. auto.
Qed.

Lemma within_number (value : num) (n : node) (variable : string) :
  within (createNumber value) n variable.
Proof. intros w Hw. discriminate Hw. Qed.

Lemma within_self (n : node) (variable : string) : within n n variable.
Proof. intros w Hw. auto. Qed.

Lemma within_binary (op : binop) (a b n : node) (variable : string) :
  within a n variable -> within b n variable ->
  within (simplifyNode (createBinary op a b)) n variable.
Proof.
  intros A B w Hw. apply dependsOn_binary in Hw. destruct Hw; auto.
Qed.

Lemma within_makeNeg (a n : node) (variable : string) :
  within a n variable -> within (makeNeg a) n variable.
Proof. intros A w Hw. apply dependsOn_makeNeg in Hw. auto. Qed.

Lemma within_function (name : string) (a n : node) (variable : string) :
  within a n variable -> within (createFunction name a) n variable.
Proof. intros A w Hw. apply A. exact Hw. Qed.

Lemma within_part (result part n : node) (variable : string) :
  (forall w, dependsOn part w = true -> dependsOn n w = true) ->
  within result part variable -> within result n variable.
Proof. intros S R w Hw. destruct (R w Hw); auto. Qed.

Lemma integrateFunction_within (name : string) (arg : node) (variable : string)
    (result : node) :
  integrateFunction (NFunction name arg) name arg variable = Some result ->
  within result (NFunction name arg) variable.
Proof.
  unfold integrateFunction, lnAbs. intros H.
  assert (A : within (cloneNode arg) (NFunction name arg) variable).
  { rewrite cloneNode_same. intros w Hw. auto. }
  repeat match type of H with
  | (if ?b then _ else _) = _ => destruct b
  | match ?o with Some _ => _ | None => _ end = _ => destruct o
  end;
    try discriminate H; injection H as <-;
    repeat first
      [ apply within_self | apply within_binary | apply within_function
      | apply within_number | apply within_variable | exact A ].
Qed.

Lemma integrateInternal_within (n : node) (variable : string) (result : node) :
  integrateInternal n variable = Some result -> within result n variable.
Proof.
  revert result.
  induction n as [v|x|op a IHa|f a IHa|op l IHl r IHr]; intros result H.
  - cbn [integrateInternal] in H.
    destruct (negb (dependsOn (NNumber v) variable)); injection H as <-;
      (apply within_binary; [apply within_self|apply within_variable]).
  - cbn [integrateInternal] in H.
    destruct (negb (dependsOn (NVariable x) variable)).
    { injection H as <-.
      apply within_binary; [apply within_self|apply within_variable]. }
    destruct (String.eqb x variable); injection H as <-.
    + apply within_binary; [apply within_number|].
      apply within_binary; [apply within_variable|apply within_number].
    + apply within_binary; [apply within_self|apply within_variable].
  - cbn [integrateInternal] in H.
    destruct (negb (dependsOn (NUnary op a) variable)).
    { injection H as <-.
      apply within_binary; [apply within_self|apply within_variable]. }
    destruct (String.eqb op "u-"); [|discriminate H].
    destruct (integrateInternal a variable) as [integrated|]; [|discriminate H].
    injection H as <-. apply within_makeNeg.
    apply (within_part _ a); [auto|]. apply IHa. reflexivity.
  - cbn [integrateInternal] in H.
    destruct (negb (dependsOn (NFunction f a) variable)).
    { injection H as <-.
      apply within_binary; [apply within_self|apply within_variable]. }
    apply integrateFunction_within. exact H.
  - assert (Pl : forall w, dependsOn l w = true ->
                           dependsOn (NBinary op l r) w = true).
    { intros w Hw. cbn [dependsOn]. rewrite Hw. reflexivity. }
    assert (Pr : forall w, dependsOn r w = true ->
                           dependsOn (NBinary op l r) w = true).
    { intros w Hw. cbn [dependsOn]. rewrite Hw. apply orb_true_r. }
    assert (Wl : within l (NBinary op l r) variable) by (intros w Hw; auto).
    assert (Wr : within r (NBinary op l r) variable) by (intros w Hw; auto).
    assert (Il : forall i, integrateInternal l variable = Some i ->
                           within i (NBinary op l r) variable).
    { intros i Hi. apply (within_part _ l); [exact Pl|]. apply IHl. exact Hi. }
    assert (Ir : forall i, integrateInternal r variable = Some i ->
                           within i (NBinary op l r) variable).
    { intros i Hi. apply (within_part _ r); [exact Pr|]. apply IHr. exact Hi. }
    cbn [integrateInternal] in H.
    destruct (negb (dependsOn (NBinary op l r) variable)).
    { injection H as <-.
      apply within_binary; [apply within_self|apply within_variable]. }
    destruct op.
    + destruct (integrateInternal l variable) as [il|]; [|discriminate H].
      destruct (integrateInternal r variable) as [ir|]; [|discriminate H].
      injection H as <-. apply within_binary; auto.
    + destruct (integrateInternal l variable) as [il|]; [|discriminate H].
      destruct (integrateInternal r variable) as [ir|]; [|discriminate H].
      injection H as <-. apply within_binary; auto.
    + destruct (isConstantWithRespectTo l variable).
      * destruct (integrateInternal r variable) as [ir|]; [|discriminate H].
        injection H as <-. apply within_binary; auto.
      * destruct (isConstantWithRespectTo r variable); [|discriminate H].
        destruct (integrateInternal l variable) as [il|]; [|discriminate H].
        injection H as <-. apply within_binary; auto.
    + destruct (negb (dependsOn r variable) && dependsOn l variable).
      * destruct (integrateInternal l variable) as [il|]; [|discriminate H].
        injection H as <-. apply within_binary; auto.
      * destruct (negb (dependsOn l variable) && dependsOn r variable);
          [|discriminate H].
        destruct (extractNumericConstant l) as [c|]; [|discriminate H].
        unfold hasSlope in H.
        destruct (matchLinear r variable) as [i|] eqn:M.
        -- destruct (matchLinear_parts_helper r variable i M) as [_ [_ [W _]]].
           destruct (negb (num_eqb (li_a i) (Fin 0))).
           ++ injection H as <-. apply within_binary; [apply within_number|].
              unfold lnAbs. apply within_function, within_function.
              apply (within_part _ r); [exact Pr|exact W].
           ++ destruct (isVariableNode r variable && nlt (Fin 0) (nabs c));
                [|discriminate H].
              injection H as <-. apply within_binary; [apply within_number|].
              unfold lnAbs. apply within_function, within_function.
              apply within_variable.
        -- destruct (isVariableNode r variable && nlt (Fin 0) (nabs c));
             [|discriminate H].
           injection H as <-. apply within_binary; [apply within_number|].
           unfold lnAbs. apply within_function, within_function.
           apply within_variable.
    + destruct (isVariableNode l variable); [|discriminate H].
      destruct r as [power| | | |]; try discriminate H.
      destruct (nlt (nabs (nadd power (Fin 1))) tolerance); injection H as <-.
      * unfold lnAbs. apply within_function, within_function, within_variable.
      * apply within_binary; [apply within_number|].
        apply within_binary; [apply within_variable|apply within_number].
Qed.

(** X10: The integral has no variable that the integrand has not, the
    variable of integration apart: the integral in [x] of a node without [y]
    is without [y]. *)
Theorem integrate_no_new_variable (n : node) (variable : string) (result : node) :
  integrate n variable = Some result ->
  forall w, dependsOn result w = true -> w = variable \/ dependsOn n w = true.
Proof.
  unfold integrate. intros H.
  destruct (integrateInternal n variable) as [r|] eqn:I; [|discriminate H].
  injection H as <-. intros w Hw. apply dependsOn_simplified in Hw.
  exact (integrateInternal_within n variable r I w Hw).
Qed.

End Variables.

Local Open Scope string_scope.

(** The node [2 * x + y] and the variable [x]. *)
Lemma matchLinear_parts_witness :
  exists info,
    matchLinear (ML := rationalMath)
      (NBinary Add (NBinary Mul (NNumber (Fin 2)) (NVariable "x")) (NVariable "y"))
      "x" = Some info /\
    dependsOn (li_b info) "x" = false.
Proof.
  eexists. split; [reflexivity|].
  apply (matchLinear_parts (ML := rationalMath)
           (NBinary Add (NBinary Mul (NNumber (Fin 2)) (NVariable "x")) (NVariable "y"))
           "x" _ eq_refl).
Defined.

(** The integral of [2 * x] in [x] is without [y]. *)
Lemma integrate_no_new_variable_witness :
  exists result,
    integrate (ML := rationalMath) twoX "x" = Some result /\
    dependsOn result "y" = false.
Proof.
  eexists. split; [reflexivity|].
  match goal with |- dependsOn ?r _ = _ => destruct (dependsOn r "y") eqn:D end;
    [|reflexivity].
  destruct (integrate_no_new_variable (ML := rationalMath) twoX "x" _ eq_refl "y" D)
    as [E|E]; discriminate E.
Defined.

(** ** The parts of a classified equation *)

Local Open Scope list_scope.

(** No node of the list depends on the variable. *)
Definition free (variable : string) (nodes : list node) : bool :=
  forallb (fun n => negb (dependsOn n variable)) nodes.

Lemma free_app (variable : string) (a b : list node) :
  free variable (a ++ b) = free variable a && free variable b.
Proof. apply forallb_app. Qed.

Lemma free_snoc (variable : string) (a : list node) (n : node) :
  free variable a = true -> dependsOn n variable = false ->
  free variable (a ++ [n]) = true.
Proof.
  intros A N. rewrite free_app, A. cbn. rewrite N. reflexivity.
Qed.

Section Classification.
Context {ML : MathLib}.

Lemma reduceNodes_free (op : binop) (variable : string) (nodes : list node)
    (acc : option node) :
  free variable nodes = true ->
  match acc with Some a => dependsOn a variable = false | None => True end ->
  match fold_left
          (fun acc n =>
             match acc with
             | Some a => Some (simplifyNode (createBinary op a n))
             | None => Some n
             end) nodes acc with
  | Some r => dependsOn r variable = false
  | None => True
  end.
Proof.
  revert acc. induction nodes as [|n nodes IH]; intros acc F A.
  - exact A.
  - cbn [free forallb] in F. apply andb_true_iff in F. destruct F as [Fn F].
    apply negb_true_iff in Fn. cbn [fold_left]. apply IH; [exact F|].
    destruct acc as [a|]; [|exact Fn].
    apply dependsOn_simplifyNode. cbn [createBinary dependsOn].
    rewrite A, Fn. reflexivity.
Qed.

Lemma productOf_free (variable : string) (nodes : list node) :
  free variable nodes = true -> dependsOn (productOf nodes) variable = false.
Proof.
  intros F. unfold productOf, reduceNodes.
  pose proof (reduceNodes_free Mul variable nodes None F I) as R.
  unfold makeMul.
  destruct (fold_left _ nodes None); [exact R|reflexivity].
Qed.

Lemma buildProduct_free (variable : string) (numeratorNodes denominatorNodes : list node) :
  free variable numeratorNodes = true -> free variable denominatorNodes = true ->
  dependsOn (buildProduct numeratorNodes denominatorNodes) variable = false.
Proof.
  intros Fn Fd. unfold buildProduct. apply dependsOn_simplifyNode.
  pose proof (productOf_free variable numeratorNodes Fn) as P.
  revert P. generalize (productOf numeratorNodes).
  induction denominatorNodes as [|d dens IH]; intros a A; [exact A|].
  cbn [free forallb] in Fd. apply andb_true_iff in Fd. destruct Fd as [Fd1 Fd2].
  apply negb_true_iff in Fd1. cbn [fold_left]. apply (IH Fd2).
  unfold makeDiv. apply dependsOn_simplifyNode. cbn [createBinary dependsOn].
  rewrite A, Fd1. reflexivity.
Qed.

(** The factors in [x] and the constants are without [y], and the factors
    in [y] are without [x]. *)
Definition separated (g : factorGroups) : bool :=
  free "y" (xNum g) && free "y" (xDen g) && free "y" (cNum g) &&
  free "y" (cDen g) && free "x" (yNum g) && free "x" (yDen g).

Lemma groupFactors_separated (factors : list (node * bool)) (g g' : factorGroups) :
  groupFactors factors g = Some g' -> separated g = true -> separated g' = true.
Proof.
  revert g. induction factors as [|[n inDenominator] rest IH]; intros g H S.
  - injection H as <-. exact S.
  - cbn [groupFactors] in H. unfold separated in S.
    repeat (apply andb_true_iff in S; destruct S as [S ?]).
    destruct (dependsOn n "x") eqn:X; destruct (dependsOn n "y") eqn:Y;
      cbn [andb] in H; try discriminate H;
      destruct inDenominator; apply (IH _ H); unfold separated;
      cbn [xNum xDen yNum yDen cNum cDen];
      repeat (apply andb_true_iff; split);
      try assumption; apply free_snoc; assumption.
Qed.

Lemma detectSeparable_parts (rhs xPart yPart : node) :
  detectSeparable rhs = Some (xPart, yPart) ->
  dependsOn xPart "y" = false /\ dependsOn yPart "x" = false /\
  dependsOn yPart "y" = true.
Proof.
  unfold detectSeparable. intros H.
  destruct (groupFactors _ _) as [g|] eqn:G; [|discriminate H].
  pose proof (groupFactors_separated _ _ _ G eq_refl) as S. unfold separated in S.
  repeat (apply andb_true_iff in S; destruct S as [S ?]).
  destruct (isEmpty (yNum g) && isEmpty (yDen g)); [discriminate H|].
  destruct (dependsOn (buildProduct (yNum g) (yDen g)) "y") eqn:Y;
    [|discriminate H].
  cbn [negb] in H. injection H as <- <-. split; [|split].
  - apply buildProduct_free; rewrite free_app;
      apply andb_true_iff; split; assumption.
  - apply buildProduct_free; assumption.
  - exact Y.
Qed.

(** X11: The parts of a classified equation. A direct equation is without
    [y]; the others depend on [y]. Of a separable equation the part in [x]
    is without [y], and the part in [y] depends on [y] and is without [x].
    The two coefficients of a linear equation are without [y], and a linear
    equation is not separable. *)
Theorem classifyEquation_parts (rhs : node) :
  match classifyEquation rhs with
  | Direct r => r = rhs /\ dependsOn rhs "y" = false
  | Separable r xPart yPart =>
      r = rhs /\ dependsOn rhs "y" = true /\
      dependsOn xPart "y" = false /\ dependsOn yPart "x" = false /\
      dependsOn yPart "y" = true
  | Linear r aNode bNode =>
      r = rhs /\ dependsOn rhs "y" = true /\
      dependsOn aNode "y" = false /\ dependsOn bNode "y" = false /\
      detectSeparable rhs = None
  | Unsupported r =>
      r = rhs /\ dependsOn rhs "y" = true /\
      detectSeparable rhs = None /\ detectLinear rhs = None
  end.
Proof.
  unfold classifyEquation.
  destruct (dependsOn rhs "y") eqn:Y; cbn [negb]; [|auto].
  destruct (detectSeparable rhs) as [[xPart yPart]|] eqn:S.
  - destruct (detectSeparable_parts rhs xPart yPart S) as [P1 [P2 P3]]. auto.
  - destruct (detectLinear rhs) as [[aNode bNode]|] eqn:L; [|auto].
    split; [reflexivity|]. split; [reflexivity|].
    unfold detectLinear in L.
    destruct (splitTerms _ _ _) as [[coefficientTerms freeTerms]|];
      [|discriminate L].
    destruct (isEmpty coefficientTerms); [discriminate L|].
    match type of L with (if ?b then _ else _) = _ => destruct b eqn:D end;
      [discriminate L|].
    injection L as <- <-. apply orb_false_iff in D. destruct D as [D1 D2]. auto.
Qed.

End Classification.

Local Open Scope string_scope.

(** ** The lexer reads the numbers that the renderer writes *)

Local Open Scope list_scope.

Lemma str_app (a b : string) : str (a ++ b)%string = str a ++ str b.
Proof.
  unfold str. induction a as [|c a IH]; [reflexivity|].
  cbn [append list_ascii_of_string map app]. rewrite IH. reflexivity.
Qed.

Lemma str_below_256 (s : string) : forallb (fun c => (c <? 256)%N) (str s) = true.
Proof.
  unfold str. induction s as [|c s IH]; [reflexivity|].
  cbn [list_ascii_of_string map forallb]. rewrite IH, andb_true_r.
  apply N.ltb_lt. apply N_ascii_bounded.
Qed.

Lemma replaceMinusSign_str (s : string) : replaceMinusSign (str s) = str s.
Proof.
  unfold replaceMinusSign. pose proof (str_below_256 s) as B.
  induction (str s) as [|c l IH]; [reflexivity|].
  cbn [forallb] in B. apply andb_true_iff in B. destruct B as [Bc Bl].
  cbn [map]. rewrite (IH Bl). apply N.ltb_lt in Bc.
  assert (E : (c =? 8722)%N = false) by (apply N.eqb_neq; lia).
  rewrite E. reflexivity.
Qed.

(** The value of a text of digits, after the digits of [acc]. *)
Lemma readDigits_units (s : string) (acc n : N) :
  readDigitsFrom s acc = Some n ->
  forallb isDigit (str s) = true /\
  fold_left (fun a c => (10 * a + digitValue c)%Z) (str s) (Z.of_N acc) = Z.of_N n.
Proof.
  revert acc. induction s as [|c s IH]; intros acc H.
  - injection H as <-. split; reflexivity.
  - cbn [readDigitsFrom] in H.
    change (str (String c s)) with (N_of_ascii c :: str s).
    cbn [forallb fold_left]. unfold isDigit at 1.
    destruct ((48 <=? N_of_ascii c)%N && (N_of_ascii c <=? 57)%N) eqn:D;
      [|discriminate H].
    destruct (IH _ H) as [F V]. split; [exact F|].
    rewrite <- V. f_equal. unfold digitValue.
    apply andb_true_iff in D. destruct D as [D1 D2].
    apply N.leb_le in D1. apply N.leb_le in D2. lia.
Qed.

Lemma digitsValue_app (a b : list codeUnit) :
  digitsValue (a ++ b) =
  fold_left (fun acc c => (10 * acc + digitValue c)%Z) b (digitsValue a).
Proof. unfold digitsValue. apply fold_left_app. Qed.

Lemma span_all (p : codeUnit -> bool) (a rest : list codeUnit) :
  forallb p a = true ->
  match rest with [] => True | c :: _ => p c = false end ->
  span p (a ++ rest) = (a, rest).
Proof.
  intros A R. induction a as [|c a IH].
  - destruct rest as [|c rest]; [reflexivity|]. cbn [app span]. rewrite R. reflexivity.
  - cbn [forallb] in A. apply andb_true_iff in A. destruct A as [Ac Aa].
    cbn [app span]. rewrite Ac, (IH Aa). reflexivity.
Qed.

Lemma digits_are_number_chars (l : list codeUnit) :
  forallb isDigit l = true -> forallb isNumberChar l = true.
Proof.
  apply forallb_weaken. intros c H. unfold isNumberChar. rewrite H. reflexivity.
Qed.

Lemma digits_have_no_point (l : list codeUnit) :
  forallb isDigit l = true -> filter (N.eqb 46) l = [].
Proof.
  intros H. apply filter_none. revert H. apply forallb_weaken.
  intros c D. unfold isDigit in D. apply andb_true_iff in D. destruct D as [D _].
  apply N.leb_le in D. apply negb_true_iff. apply N.eqb_neq. lia.
Qed.

(** A text of digits, with or without a fraction. *)
Definition decimalUnits (whole : list codeUnit) (fraction : option (list codeUnit))
    : list codeUnit :=
  whole ++ match fraction with Some digits => 46%N :: digits | None => [] end.

Definition fractionDigits (fraction : option (list codeUnit)) : list codeUnit :=
  match fraction with Some digits => digits | None => [] end.

Lemma parseFloat_decimal (whole : list codeUnit) (fraction : option (list codeUnit)) :
  whole <> [] -> forallb isDigit whole = true ->
  forallb isDigit (fractionDigits fraction) = true ->
  parseFloat (decimalUnits whole fraction) =
  fin (inject_Z (digitsValue (whole ++ fractionDigits fraction)) /
       inject_Z (10 ^ Z.of_nat (List.length (fractionDigits fraction)))).
Proof.
  intros N W F. unfold parseFloat, decimalUnits.
  destruct fraction as [digits|]; cbn [fractionDigits] in *.
  - rewrite (span_all isDigit whole (46%N :: digits) W eq_refl).
    change ((46 =? 46)%N) with true. cbv iota.
    assert (S2 : span isDigit digits = (digits, [])).
    { rewrite <- (app_nil_r digits) at 1. exact (span_all isDigit digits [] F I). }
    rewrite S2. cbn [fst].
    destruct (whole ++ digits) eqn:E; [|reflexivity].
    apply app_eq_nil in E. destruct E as [E _]. contradiction (N E).
  - rewrite app_nil_r.
    assert (S1 : span isDigit whole = (whole, [])).
    { rewrite <- (app_nil_r whole) at 1. exact (span_all isDigit whole [] W I). }
    rewrite S1, app_nil_r.
    destruct whole; [contradiction (N eq_refl)|reflexivity].
Qed.

Lemma tokenizeLoop_decimal (whole : list codeUnit) (fraction : option (list codeUnit))
    (fuel : nat) (prevType : tokenKind) (tokens : list token) :
  whole <> [] -> forallb isDigit whole = true ->
  forallb isDigit (fractionDigits fraction) = true ->
  tokenizeLoop (S (S fuel)) (decimalUnits whole fraction) prevType tokens =
  Ok (tokens ++ [TNumber (parseFloat (decimalUnits whole fraction))]).
Proof.
  intros N W F.
  assert (A : forallb isNumberChar (decimalUnits whole fraction) = true).
  { unfold decimalUnits. rewrite forallb_app, (digits_are_number_chars whole W).
    destruct fraction as [digits|]; [|reflexivity].
    cbn [forallb]. exact (digits_are_number_chars digits F). }
  assert (P : (List.length (filter (N.eqb 46) (decimalUnits whole fraction)) <= 1)%nat).
  { unfold decimalUnits. rewrite filter_app.
    pose proof (digits_have_no_point whole W) as Pw.
    unfold codeUnit in *. rewrite Pw.
    destruct fraction as [digits|]; [|apply Nat.le_0_l].
    cbn [app filter]. change ((46 =? 46)%N) with true. cbv iota.
    cbn [fractionDigits] in F.
    pose proof (digits_have_no_point digits F) as Pd.
    unfold codeUnit in *. rewrite Pd.
    apply Nat.le_refl. }
  destruct (decimalUnits whole fraction) as [|char rest] eqn:E.
  { unfold decimalUnits in E. apply app_eq_nil in E. destruct E as [E _].
    contradiction (N E). }
  cbn [forallb] in A. apply andb_true_iff in A. destruct A as [Ac Ar].
  assert (Sp : (char =? 32)%N || (char =? 9)%N || (char =? 10)%N = false).
  { unfold isNumberChar, isDigit in Ac.
    destruct (N.eqb_spec char 32) as [->|_]; [discriminate Ac|].
    destruct (N.eqb_spec char 9) as [->|_]; [discriminate Ac|].
    destruct (N.eqb_spec char 10) as [->|_]; [discriminate Ac|]. reflexivity. }
  cbn [tokenizeLoop]. rewrite Sp, Ac.
  assert (S1 : span isNumberChar rest = (rest, [])).
  { rewrite <- (app_nil_r rest) at 1. exact (span_all isNumberChar rest [] Ar I). }
  rewrite S1.
  assert (C : (2 <? List.length (filter (N.eqb 46) (char :: rest)) + 1)%nat = false).
  { apply Nat.ltb_ge. lia. }
  rewrite C. reflexivity.
Qed.

Lemma fold_digits_from (l : list codeUnit) (acc : Z) :
  fold_left (fun a c => (10 * a + digitValue c)%Z) l acc =
  (acc * 10 ^ Z.of_nat (List.length l) +
   fold_left (fun a c => (10 * a + digitValue c)%Z) l 0)%Z.
Proof.
  revert acc. induction l as [|c l IH]; intros acc.
  - cbn. lia.
  - cbn [fold_left List.length]. rewrite (IH (10 * acc + digitValue c)%Z).
    rewrite (IH (10 * 0 + digitValue c)%Z).
    rewrite Nat2Z.inj_succ, Z.pow_succ_r by lia. ring.
Qed.

Lemma length_str (s : string) : List.length (str s) = String.length s.
Proof.
  unfold str. induction s as [|c s IH]; [reflexivity|].
  cbn [list_ascii_of_string map List.length String.length]. rewrite IH. reflexivity.
Qed.

Local Open Scope string_scope.

(** The text after the point, or the empty text. *)
Definition fractionText (tail : option string) : string :=
  match tail with Some digits => digits | None => "" end.

(** A sign, the digits of [whole], and a point and digits, or nothing. *)
Definition decimalText (negative : bool) (whole : N) (tail : option string)
    : string :=
  (if negative then "-" else "") ++ digitsOfN whole ++
  match tail with Some digits => String "." digits | None => "" end.

(** The value of a sign, a whole part and a fraction of [k] digits. *)
Definition decimalValue (negative : bool) (whole fraction : N) (k : nat) : Q :=
  (if negative then -1 else 1) *
  (inject_Z (Z.of_N whole) +
   inject_Z (Z.of_N fraction) / inject_Z (10 ^ Z.of_nat k)).

Lemma round6_exact (q : Q) : Qis_int (q * 1000000) = true -> round6 q == q.
Proof.
  intros H. apply Qis_int_spec in H. set (m := Qfloor (q * 1000000)) in *.
  assert (Ea : Qabs q * 1000000 == inject_Z (Z.abs m)).
  { change 1000000 with (Qabs 1000000) at 1. rewrite <- Qabs_Qmult, <- H.
    reflexivity. }
  assert (Er : roundMicro q = Z.abs m).
  { unfold roundMicro. rewrite <- (Qfloor_half (Z.abs m)). apply Qfloor_comp.
    rewrite Ea. reflexivity. }
  assert (Eq : q == inject_Z m / 1000000) by (rewrite H; field).
  unfold round6. rewrite Er.
  destruct (Qlt_bool q 0) eqn:S.
  - apply Qlt_bool_iff in S.
    assert (M : (m < 0)%Z).
    { rewrite Zlt_Qlt. rewrite H. change (inject_Z 0) with 0. lra. }
    rewrite Z.abs_neq by lia. rewrite inject_Z_opp, Eq. field.
  - apply Qlt_bool_false_iff in S.
    assert (M : (0 <= m)%Z).
    { rewrite Zle_Qle. rewrite H. change (inject_Z 0) with 0. lra. }
    rewrite Z.abs_eq by lia. rewrite Eq. field.
Qed.

Lemma round6_integer (q : Q) : Qis_int q = true -> round6 q == q.
Proof.
  intros H. apply round6_exact. apply Qis_int_spec in H.
  assert (E : q * 1000000 == inject_Z (Qfloor q * 1000000)).
  { rewrite inject_Z_mult, H. reflexivity. }
  rewrite (Qis_int_comp _ _ E). apply Qis_int_inject_Z.
Qed.

(** The text of a number, and the value that it writes. *)
Lemma formatNumber_decimalText (q : Q) :
  Qabs q <= inject_Z (2 ^ 53) ->
  exists negative whole tail fraction,
    (0 <= q -> negative = false) /\
    formatNumber (Fin q) = decimalText negative whole tail /\
    readDigitsFrom (fractionText tail) 0 = Some fraction /\
    round6 q ==
    decimalValue negative whole fraction (String.length (fractionText tail)).
Proof.
  intros Hb. unfold formatNumber. destruct (Qis_int q) eqn:Hq.
  - pose proof (Qis_int_spec q Hq) as Ez.
    assert (Bz : (Z.abs (Qfloor q) < 10 ^ 21)%Z).
    { assert (B : inject_Z (Z.abs (Qfloor q)) <= inject_Z (2 ^ 53)).
      { change (inject_Z (Z.abs (Qfloor q))) with (Qabs (inject_Z (Qfloor q))).
        rewrite Ez. exact Hb. }
      rewrite <- Zle_Qle in B. eapply Z.le_lt_trans; [exact B|reflexivity]. }
    exists (Qfloor q <? 0)%Z, (Z.abs_N (Qfloor q)), None, 0%N.
    split; [intros P; apply Z.ltb_ge; exact (Qfloor_resp_le 0 q P)|].
    split; [|split; [reflexivity|]].
    + unfold integerToString, decimalText. apply Z.ltb_lt in Bz. rewrite Bz.
      rewrite append_empty_r. reflexivity.
    + rewrite (round6_integer q Hq). set (z := Qfloor q) in *.
      rewrite <- Ez. unfold decimalValue.
      rewrite N2Z.inj_abs_N. cbn [fractionText String.length Z.of_nat Z.pow].
      destruct (z <? 0)%Z eqn:S.
      * apply Z.ltb_lt in S. rewrite Z.abs_neq by lia. rewrite inject_Z_opp. field.
      * apply Z.ltb_ge in S. rewrite Z.abs_eq by lia. field.
  - pose proof (roundMicro_nonneg q) as Hn.
    pose proof (roundMicro_bound q Hb) as Hw.
    unfold fixed6ToString, round6.
    set (n := roundMicro q) in *.
    pose proof (Z.div_mod n 1000000 ltac:(lia)) as Hdm.
    pose proof (Z.mod_pos_bound n 1000000 ltac:(lia)) as Hm.
    pose proof (Z.div_pos n 1000000 Hn ltac:(lia)) as Hd.
    set (whole := (n / 1000000)%Z) in *. set (fraction := (n mod 1000000)%Z) in *.
    assert (En : inject_Z n == inject_Z whole * 1000000 + inject_Z fraction).
    { rewrite Hdm, inject_Z_plus, inject_Z_mult.
      change (inject_Z 1000000) with 1000000. ring. }
    destruct (n =? 0)%Z eqn:N0.
    + apply Z.eqb_eq in N0. exists false, 0%N, None, 0%N.
      split; [reflexivity|].
      split; [reflexivity|]. split; [reflexivity|].
      rewrite N0. destruct (Qlt_bool q 0); reflexivity.
    + destruct (fraction =? 0)%Z eqn:F0.
      * apply Z.eqb_eq in F0.
        exists (Qlt_bool q 0), (Z.to_N whole), None, 0%N.
        split; [intros P; apply negb_false_iff, Qle_bool_iff; exact P|].
        split; [|split; [reflexivity|]].
        -- cbv zeta. rewrite (integerToString_digits whole) by lia.
           unfold decimalText. rewrite append_empty_r. reflexivity.
        -- unfold decimalValue. rewrite Z2N.id by lia.
           cbn [fractionText String.length Z.of_nat Z.pow].
           rewrite En, F0. destruct (Qlt_bool q 0); field.
      * destruct (read_stripped_fixedDigits (Z.to_N fraction)) as [a [j [Ra [L E]]]].
        { change (10 ^ 6)%N with (Z.to_N 1000000). apply Z2N.inj_lt; lia. }
        exists (Qlt_bool q 0), (Z.to_N whole),
               (Some (stripTrailingZeros (fixedDigits 6 (Z.to_N fraction)))), a.
        split; [intros P; apply negb_false_iff, Qle_bool_iff; exact P|].
        split; [reflexivity|]. split; [exact Ra|].
        unfold decimalValue. cbn [fractionText]. rewrite Z2N.id by lia.
        set (len := String.length (stripTrailingZeros (fixedDigits 6 (Z.to_N fraction))))
          in *.
        assert (E6 : 1000000 ==
                     inject_Z (10 ^ Z.of_nat len) * inject_Z (10 ^ Z.of_nat j)).
        { rewrite <- inject_Z_mult, <- Z.pow_add_r by lia.
          replace (Z.of_nat len + Z.of_nat j)%Z with 6%Z by lia. reflexivity. }
        assert (EF : inject_Z fraction ==
                     inject_Z (Z.of_N a) * inject_Z (10 ^ Z.of_nat j)).
        { rewrite <- inject_Z_mult. rewrite <- (Z2N.id fraction) at 1 by lia.
          rewrite E, N2Z.inj_mul, N2Z.inj_pow, nat_N_Z. reflexivity. }
        pose proof (inject_Z_pow10_nonzero len). pose proof (inject_Z_pow10_nonzero j).
        rewrite En, EF.
        destruct (Qlt_bool q 0); rewrite E6; field; split; assumption.
Qed.

Local Open Scope list_scope.

Lemma digitsOfN_units (whole : N) :
  str (digitsOfN whole) <> [] /\ forallb isDigit (str (digitsOfN whole)) = true /\
  digitsValue (str (digitsOfN whole)) = Z.of_N whole.
Proof.
  destruct (readDigits_units _ _ _ (readDigits_digitsOfN whole)) as [D V].
  split; [|split; [exact D|exact V]].
  destruct (digitsOfN_head whole) as [c [rest [E _]]]. rewrite E. discriminate.
Qed.

Lemma str_decimalText (whole : N) (tail : option string) :
  str (decimalText false whole tail) =
  decimalUnits (str (digitsOfN whole)) (option_map str tail).
Proof.
  unfold decimalText, decimalUnits. cbn [append]. rewrite str_app.
  destruct tail; reflexivity.
Qed.

Lemma parseFloat_decimalText (whole fraction : N) (tail : option string) :
  readDigitsFrom (fractionText tail) 0 = Some fraction ->
  parseFloat (str (decimalText false whole tail)) =~=
  Fin (decimalValue false whole fraction (String.length (fractionText tail))).
Proof.
  intros R. destruct (digitsOfN_units whole) as [N [D V]].
  destruct (readDigits_units _ _ _ R) as [Df Vf].
  assert (Ef : fractionDigits (option_map str tail) = str (fractionText tail))
    by (destruct tail; reflexivity).
  rewrite str_decimalText, (parseFloat_decimal _ _ N D) by (rewrite Ef; exact Df).
  rewrite Ef, digitsValue_app, fold_digits_from, V, length_str.
  change (Z.of_N 0) with 0%Z in Vf. rewrite Vf.
  apply fin_equiv. unfold decimalValue.
  rewrite inject_Z_plus, inject_Z_mult.
  pose proof (inject_Z_pow10_nonzero (String.length (fractionText tail))).
  field. assumption.
Qed.

Lemma tokenizeLoop_negate (fuel : nat) (rest : list codeUnit)
    (prevType : tokenKind) (tokens : list token) :
  minusIsUnary prevType = true ->
  tokenizeLoop (S fuel) (45%N :: rest) prevType tokens =
  tokenizeLoop fuel rest KOperator (tokens ++ [TOperator OpNegate]).
Proof. intros U. cbn [tokenizeLoop]. cbn. rewrite U. reflexivity. Qed.

Local Open Scope string_scope.

(** ** Upper-case letters *)

Local Open Scope list_scope.

Lemma lowerUnit_cases (c : codeUnit) :
  (lowerUnit c = c /\ ((c < 65)%N \/ (90 < c)%N)) \/
  (lowerUnit c = (c + 32)%N /\ (65 <= c)%N /\ (c <= 90)%N).
Proof.
  unfold lowerUnit.
  destruct (N.leb_spec 65 c); destruct (N.leb_spec c 90); cbn [andb]; auto.
Qed.

Ltac lower_cases c :=
  let E := fresh "E" in
  let L := fresh "L" in
  destruct (lowerUnit_cases c) as [[E L]|[E L]]; rewrite E; clear E;
  [reflexivity|].

Ltac decide_units :=
  repeat match goal with
  | |- context [(?a <=? ?b)%N] => destruct (N.leb_spec a b); try lia
  | |- context [(?a =? ?b)%N] => destruct (N.eqb_spec a b); try lia
  end; try reflexivity.

Lemma isNumberChar_lower (c : codeUnit) :
  isNumberChar (lowerUnit c) = isNumberChar c.
Proof. lower_cases c. unfold isNumberChar, isDigit. decide_units. Qed.

Lemma isIdentifierStart_lower (c : codeUnit) :
  isIdentifierStart (lowerUnit c) = isIdentifierStart c.
Proof. lower_cases c. unfold isIdentifierStart. decide_units. Qed.

Lemma isIdentifierChar_lower (c : codeUnit) :
  isIdentifierChar (lowerUnit c) = isIdentifierChar c.
Proof.
  unfold isIdentifierChar. rewrite isIdentifierStart_lower. f_equal.
  lower_cases c. unfold isDigit. decide_units.
Qed.

Lemma isWhiteSpace_lower (c : codeUnit) :
  isWhiteSpace (lowerUnit c) = isWhiteSpace c.
Proof. lower_cases c. unfold isWhiteSpace. decide_units. Qed.

Lemma eqb_lower (c k : codeUnit) :
  (k < 65)%N \/ ((90 < k)%N /\ (k < 97)%N) \/ (122 < k)%N ->
  (lowerUnit c =? k)%N = (c =? k)%N.
Proof. intros K. lower_cases c. decide_units. Qed.

Lemma operatorOfChar_lower (c : codeUnit) :
  operatorOfChar (lowerUnit c) = operatorOfChar c.
Proof.
  unfold operatorOfChar. rewrite !eqb_lower by lia. reflexivity.
Qed.

Lemma lowerUnit_idempotent (c : codeUnit) : lowerUnit (lowerUnit c) = lowerUnit c.
Proof.
  destruct (lowerUnit_cases c) as [[E L]|[E L]]; rewrite E.
  - exact E.
  - unfold lowerUnit. decide_units.
Qed.

Lemma lowerUnit_number (c : codeUnit) : isNumberChar c = true -> lowerUnit c = c.
Proof.
  intros H. destruct (lowerUnit_cases c) as [[E L]|[E L]]; [exact E|].
  exfalso. revert H. unfold isNumberChar, isDigit. decide_units; discriminate.
Qed.

Lemma span_map (p : codeUnit -> bool) (g : codeUnit -> codeUnit) (l : list codeUnit) :
  (forall c, p (g c) = p c) ->
  span p (map g l) = (map g (fst (span p l)), map g (snd (span p l))).
Proof.
  intros H. induction l as [|c l IH]; [reflexivity|].
  cbn [map span]. rewrite H. destruct (p c); [|reflexivity].
  rewrite IH. destruct (span p l). reflexivity.
Qed.

Lemma span_taken (p : codeUnit -> bool) (l : list codeUnit) :
  forallb p (fst (span p l)) = true.
Proof.
  induction l as [|c l IH]; [reflexivity|].
  cbn [span]. destruct (p c) eqn:P; [|reflexivity].
  destruct (span p l). cbn [fst forallb] in *. rewrite P, IH. reflexivity.
Qed.

Lemma map_lower_numbers (l : list codeUnit) :
  forallb isNumberChar l = true -> map lowerUnit l = l.
Proof.
  induction l as [|c l IH]; [reflexivity|].
  cbn [forallb map]. intros H. apply andb_true_iff in H. destruct H as [Hc Hl].
  rewrite (lowerUnit_number c Hc), (IH Hl). reflexivity.
Qed.

(** Two results of the lexer or of the parser are the same, but for the
    spelling of an unknown symbol. *)
Definition sameButSpelling {A : Type} (r1 r2 : result A) : Prop :=
  match r1, r2 with
  | Ok a, Ok b => a = b
  | Throw (UnknownSymbol _), Throw (UnknownSymbol _) => True
  | Throw e1, Throw e2 => e1 = e2
  | _, _ => False
  end.

Lemma sameButSpelling_refl {A : Type} (r : result A) : sameButSpelling r r.
Proof. destruct r as [a|[]]; cbn; auto. Qed.

Lemma tokenizeLoop_lower (fuel : nat) (input : list codeUnit) (prevType : tokenKind)
    (tokens : list token) :
  sameButSpelling (tokenizeLoop fuel (map lowerUnit input) prevType tokens)
                  (tokenizeLoop fuel input prevType tokens).
Proof.
  revert input prevType tokens.
  induction fuel as [|fuel IH]; intros input prevType tokens.
  - reflexivity.
  - destruct input as [|char rest]; [reflexivity|].
    cbn [map tokenizeLoop].
    rewrite !eqb_lower by lia.
    rewrite isNumberChar_lower, isIdentifierStart_lower, operatorOfChar_lower.
    destruct ((char =? 32)%N || (char =? 9)%N || (char =? 10)%N); [apply IH|].
    destruct (isNumberChar char) eqn:Nc.
    { rewrite (span_map isNumberChar lowerUnit rest isNumberChar_lower).
      pose proof (span_taken isNumberChar rest) as T.
      destruct (span isNumberChar rest) as [more after]. cbn [fst snd] in *.
      rewrite (map_lower_numbers more T), (lowerUnit_number char Nc).
      match goal with |- context [if ?b then _ else _] => destruct b end;
        [reflexivity|apply IH]. }
    destruct (isIdentifierStart char) eqn:Ic.
    { rewrite (span_map isIdentifierChar lowerUnit rest isIdentifierChar_lower).
      destruct (span isIdentifierChar rest) as [more after]. cbn [fst snd].
      assert (E : toLowerCase (lowerUnit char :: map lowerUnit more) =
                  toLowerCase (char :: more)).
      { unfold toLowerCase. cbn [map]. rewrite lowerUnit_idempotent, map_map.
        f_equal. apply map_ext. apply lowerUnit_idempotent. }
      rewrite E.
      destruct (CONSTANTS _); [apply IH|].
      destruct (isFunctionName _); [apply IH|].
      match goal with |- context [if ?b then _ else _] => destruct b end;
        [apply IH|exact I]. }
    destruct (char =? 44)%N; [apply IH|].
    destruct (char =? 40)%N; [apply IH|].
    destruct (char =? 41)%N; [apply IH|].
    destruct (operatorOfChar char); [apply IH|].
    cbn. f_equal. destruct (lowerUnit_cases char) as [[E L]|[E L]]; [exact E|].
    exfalso. revert Ic. unfold isIdentifierStart. decide_units; discriminate.
Qed.

Lemma replaceMinusSign_lower (input : list codeUnit) :
  replaceMinusSign (map lowerUnit input) = map lowerUnit (replaceMinusSign input).
Proof.
  unfold replaceMinusSign. rewrite !map_map. apply map_ext. intros c.
  rewrite eqb_lower by lia.
  destruct (N.eqb_spec c 8722) as [->|_]; reflexivity.
Qed.

Lemma forallb_map_lower (input : list codeUnit) :
  forallb isWhiteSpace (map lowerUnit input) = forallb isWhiteSpace input.
Proof.
  induction input as [|c l IH]; [reflexivity|].
  cbn [map forallb]. rewrite isWhiteSpace_lower, IH. reflexivity.
Qed.

Section CaseInsensitive.
Context {ML : MathLib}.

Lemma parseExpression_lower (input : list codeUnit) :
  sameButSpelling (parseExpression (map lowerUnit input)) (parseExpression input).
Proof.
  unfold parseExpression.
  assert (B : trim (map lowerUnit input) = [] <-> trim input = []).
  { rewrite !trim_blank, forallb_map_lower. reflexivity. }
  destruct (trim input) eqn:T.
  - rewrite (proj2 B eq_refl). reflexivity.
  - destruct (trim (map lowerUnit input)) eqn:T'.
    { discriminate (proj1 B eq_refl). }
    rewrite replaceMinusSign_lower. unfold tokenize. rewrite length_map.
    pose proof (tokenizeLoop_lower (S (List.length (replaceMinusSign input)))
                  (replaceMinusSign input) KStart []) as L.
    destruct (tokenizeLoop _ (map lowerUnit _) _ _) as [t1|e1];
      destruct (tokenizeLoop _ (replaceMinusSign input) _ _) as [t2|e2];
      cbn [sameButSpelling] in L; try contradiction.
    + subst t2. apply sameButSpelling_refl.
    + destruct e1; contradiction.
    + exact L.
Qed.

(** X15: The parser makes no difference between the upper-case and the
    lower-case letters: a text and the text with its upper-case letters
    lowered have the same node, or both are rejected. *)
Theorem parseExpression_case_insensitive (input : list codeUnit) (n : node) :
  parseExpression (map lowerUnit input) = Ok n <-> parseExpression input = Ok n.
Proof.
  pose proof (parseExpression_lower input) as L.
  destruct (parseExpression (map lowerUnit input)) as [a|e1];
    destruct (parseExpression input) as [b|e2];
    cbn [sameButSpelling] in L; try contradiction.
  - subst b. reflexivity.
  - destruct e1; contradiction.
  - split; discriminate.
Qed.

End CaseInsensitive.

Local Open Scope string_scope.

(** The text [SIN(X)]. *)
Lemma parseExpression_case_insensitive_witness :
  parseExpression (ML := rationalMath) (str "SIN(X)") =
  Ok (NFunction "sin" (NVariable "x")).
Proof.
  apply (proj1 (parseExpression_case_insensitive (ML := rationalMath)
                  (str "SIN(X)") (NFunction "sin" (NVariable "x")))).
  reflexivity.
Defined.

(** ** The two sides of the equation *)

Local Open Scope list_scope.

(** Code units are numbers. *)
Ltac units := unfold codeUnit in *.

(** The text without the white space that ends it. *)
Definition trimEnd (s : list N) : list N :=
  rev (trimStart (rev s)).

(** The text has no sign [=]. *)
Definition noEquals (s : list N) : bool :=
  forallb (fun c => negb (c =? 61)%N) s.

Lemma trim_trimEnd (s : list N) : trim s = trimEnd (trimStart s).
Proof. reflexivity. Qed.

Lemma trimStart_stop (a rest : list N) (c : N) :
  isWhiteSpace c = false ->
  trimStart (a ++ c :: rest) = trimStart a ++ c :: rest.
Proof.
  intros W. induction a as [|d a IH].
  - cbn [app trimStart]. rewrite W. reflexivity.
  - cbn [app trimStart]. destruct (isWhiteSpace d); [exact IH|reflexivity].
Qed.

Lemma trimEnd_stop (a rest : list N) (c : N) :
  isWhiteSpace c = false ->
  trimEnd (a ++ c :: rest) = a ++ c :: trimEnd rest.
Proof.
  intros W. unfold trimEnd.
  rewrite rev_app_distr. cbn [rev]. rewrite <- app_assoc. cbn [app].
  rewrite (trimStart_stop (rev rest) (rev a) c W).
  rewrite rev_app_distr. cbn [rev]. rewrite rev_involutive, <- app_assoc.
  reflexivity.
Qed.

Lemma trimStart_idempotent (s : list N) :
  trimStart (trimStart s) = trimStart s.
Proof.
  induction s as [|c s IH]; [reflexivity|].
  cbn [trimStart]. destruct (isWhiteSpace c) eqn:W; [exact IH|].
  cbn [trimStart]. rewrite W. reflexivity.
Qed.

Lemma trimEnd_idempotent (s : list N) : trimEnd (trimEnd s) = trimEnd s.
Proof.
  unfold trimEnd. rewrite rev_involutive, trimStart_idempotent. reflexivity.
Qed.

Lemma first_mark (s : list N) :
  forallb isWhiteSpace s = true \/
  exists a c rest,
    s = a ++ c :: rest /\ forallb isWhiteSpace a = true /\ isWhiteSpace c = false.
Proof.
  induction s as [|d s IH]; [left; reflexivity|].
  destruct (isWhiteSpace d) eqn:W.
  - destruct IH as [B|[a [c [rest [E [A C]]]]]].
    + left. cbn [forallb]. rewrite W, B. reflexivity.
    + right. exists (d :: a), c, rest. subst s. cbn [forallb]. rewrite W, A. auto.
  - right. exists [], d, s. auto.
Qed.

Lemma trimEnd_blank (s : list N) :
  forallb isWhiteSpace s = true -> trimEnd s = [].
Proof.
  intros B. unfold trimEnd.
  assert (E : trimStart (rev s) = []).
  { apply trimStart_blank. rewrite forallb_rev. exact B. }
  rewrite E. reflexivity.
Qed.

Lemma trimStart_trimEnd (s : list N) :
  trimStart (trimEnd s) = trimEnd (trimStart s).
Proof.
  destruct (first_mark s) as [B|[a [c [rest [-> [A C]]]]]].
  - rewrite (trimEnd_blank s B). apply trimStart_blank in B. rewrite B. reflexivity.
  - rewrite (trimEnd_stop a rest c C), !(trimStart_stop _ _ c C).
    apply trimStart_blank in A. rewrite A. cbn [app].
    exact (eq_sym (trimEnd_stop [] rest c C)).
Qed.

Lemma trim_of_trimEnd (s : list N) : trim (trimEnd s) = trim s.
Proof.
  rewrite !trim_trimEnd, trimStart_trimEnd, trimEnd_idempotent. reflexivity.
Qed.

Lemma collapseWhiteSpace_stop (a rest : list N) (c : N) :
  isWhiteSpace c = false ->
  collapseWhiteSpace (a ++ c :: rest) =
  collapseWhiteSpace a ++ c :: collapseWhiteSpace rest.
Proof.
  intros W. induction a as [|d a IH].
  - cbn [app collapseWhiteSpace]. rewrite W. reflexivity.
  - cbn [app collapseWhiteSpace]. rewrite IH.
    destruct (isWhiteSpace d); [|reflexivity].
    destruct a as [|e a]; cbn [app]; [rewrite W; reflexivity|].
    destruct (isWhiteSpace e); reflexivity.
Qed.

Lemma noEquals_app (a b : list N) :
  noEquals (a ++ b) = noEquals a && noEquals b.
Proof. apply forallb_app. Qed.

Lemma noEquals_collapse (s : list N) :
  noEquals s = true -> noEquals (collapseWhiteSpace s) = true.
Proof.
  induction s as [|c s IH]; [reflexivity|].
  cbn [noEquals forallb]. intros H. apply andb_true_iff in H. destruct H as [Hc Hs].
  specialize (IH Hs). cbn [collapseWhiteSpace].
  destruct (isWhiteSpace c).
  - destruct s as [|d s]; [reflexivity|].
    destruct (isWhiteSpace d); [exact IH|].
    cbn [noEquals forallb]. exact IH.
  - cbn [noEquals forallb]. rewrite Hc. exact IH.
Qed.

Lemma noEquals_comma (s : list N) :
  noEquals s = true -> noEquals (replaceArabicComma s) = true.
Proof.
  unfold noEquals, replaceArabicComma. units. induction s as [|c s IH]; [reflexivity|].
  cbn [map forallb]. intros H. apply andb_true_iff in H. destruct H as [Hc Hs].
  rewrite (IH Hs), andb_true_r.
  destruct (N.eqb_spec c 1548); [reflexivity|exact Hc].
Qed.

Lemma noEquals_trimStart (s : list N) :
  noEquals s = true -> noEquals (trimStart s) = true.
Proof.
  induction s as [|c s IH]; [reflexivity|].
  intros H. cbn [trimStart]. destruct (isWhiteSpace c); [|exact H].
  cbn [noEquals forallb] in H. apply andb_true_iff in H. apply IH, H.
Qed.

Lemma noEquals_rev (s : list N) : noEquals (rev s) = noEquals s.
Proof. apply forallb_rev. Qed.

Lemma noEquals_trimEnd (s : list N) :
  noEquals s = true -> noEquals (trimEnd s) = true.
Proof.
  intros H. unfold trimEnd. rewrite noEquals_rev. apply noEquals_trimStart.
  rewrite noEquals_rev. exact H.
Qed.

Lemma noEquals_existsb (s : list N) :
  noEquals s = true -> existsb (N.eqb 61) s = false.
Proof.
  unfold noEquals. units. induction s as [|c s IH]; [reflexivity|].
  cbn [forallb existsb]. intros H. apply andb_true_iff in H. destruct H as [Hc Hs].
  rewrite (IH Hs), orb_false_r. apply negb_true_iff in Hc.
  rewrite N.eqb_sym. exact Hc.
Qed.

Lemma existsb_mark (a rest : list N) :
  existsb (N.eqb 61) (a ++ 61%N :: rest) = true.
Proof.
  rewrite existsb_app. cbn [existsb]. change (61 =? 61)%N with true.
  apply orb_true_r.
Qed.

Lemma span_noEquals (a rest : list N) :
  noEquals a = true ->
  span (fun c => negb (c =? 61)%N) (a ++ 61%N :: rest) = (a, 61%N :: rest).
Proof. intros H. apply span_all; [exact H|reflexivity]. Qed.

Lemma span_noEquals_whole (a : list N) :
  noEquals a = true -> span (fun c => negb (c =? 61)%N) a = (a, []).
Proof.
  intros H. rewrite <- (app_nil_r a) at 1. apply span_all; [exact H|exact I].
Qed.

(** The text cleaned by [parseDifferentialEquation]. *)
Definition cleanText (s : list N) : list N :=
  replaceArabicComma (collapseWhiteSpace s).

Lemma cleanText_stop (a rest : list N) :
  cleanText (a ++ 61%N :: rest) = cleanText a ++ 61%N :: cleanText rest.
Proof.
  unfold cleanText. rewrite (collapseWhiteSpace_stop a rest 61%N eq_refl).
  unfold replaceArabicComma. rewrite map_app. reflexivity.
Qed.

Lemma noEquals_cleanText (s : list N) :
  noEquals s = true -> noEquals (cleanText s) = true.
Proof. intros H. apply noEquals_comma, noEquals_collapse, H. Qed.

(** The two parts that [parseDifferentialEquation] keeps of a text with a
    sign [=]: the cleaned left side, and the cleaned right side up to a
    second sign. *)
Lemma splitEquals_cleaned (L rest : list N) :
  noEquals L = true ->
  let cleaned := trim (cleanText (L ++ 61%N :: rest)) in
  existsb (N.eqb 61) cleaned = true /\
  splitEquals cleaned =
    (trimStart (cleanText L),
     fst (span (fun c => negb (c =? 61)%N) (trimEnd (cleanText rest)))).
Proof.
  intros HL cleaned. unfold cleaned.
  rewrite cleanText_stop, trim_trimEnd.
  rewrite (trimStart_stop _ _ 61%N eq_refl), (trimEnd_stop _ _ 61%N eq_refl).
  split; [apply existsb_mark|].
  unfold splitEquals.
  rewrite (span_noEquals _ _ (noEquals_trimStart _ (noEquals_cleanText L HL))).
  reflexivity.
Qed.

Lemma rightSide_alone (R : list N) :
  noEquals R = true ->
  trim (fst (span (fun c => negb (c =? 61)%N) (trimEnd (cleanText R)))) =
  trim (cleanText R).
Proof.
  intros HR.
  rewrite (span_noEquals_whole _ (noEquals_trimEnd _ (noEquals_cleanText R HR))).
  cbn [fst]. apply trim_of_trimEnd.
Qed.

Lemma rightSide_followed (R C : list N) :
  noEquals R = true ->
  trim (fst (span (fun c => negb (c =? 61)%N)
               (trimEnd (cleanText (R ++ 61%N :: C))))) =
  trim (cleanText R).
Proof.
  intros HR. rewrite cleanText_stop, (trimEnd_stop _ _ 61%N eq_refl).
  rewrite (span_noEquals _ _ (noEquals_cleanText R HR)). reflexivity.
Qed.

Lemma removeWhiteSpace_trimStart (s : list N) :
  removeWhiteSpace (trimStart s) = removeWhiteSpace s.
Proof.
  unfold removeWhiteSpace. units. induction s as [|c s IH]; [reflexivity|].
  cbn [trimStart]. destruct (isWhiteSpace c) eqn:W; [|reflexivity].
  cbn [filter]. rewrite W. exact IH.
Qed.

Lemma removeWhiteSpace_rev (s : list N) :
  removeWhiteSpace (rev s) = rev (removeWhiteSpace s).
Proof.
  unfold removeWhiteSpace. units. induction s as [|c s IH]; [reflexivity|].
  cbn [rev filter]. rewrite filter_app, IH. cbn [filter].
  destruct (negb (isWhiteSpace c)); [reflexivity|apply app_nil_r].
Qed.

Lemma removeWhiteSpace_trim (s : list N) :
  removeWhiteSpace (trim s) = removeWhiteSpace s.
Proof.
  unfold trim. units.
  rewrite removeWhiteSpace_rev, removeWhiteSpace_trimStart, removeWhiteSpace_rev,
    rev_involutive.
  apply removeWhiteSpace_trimStart.
Qed.

Lemma removeWhiteSpace_collapse (s : list N) :
  removeWhiteSpace (collapseWhiteSpace s) = removeWhiteSpace s.
Proof.
  unfold removeWhiteSpace. units. induction s as [|c s IH]; [reflexivity|].
  cbn [collapseWhiteSpace filter]. destruct (isWhiteSpace c) eqn:W; cbn [negb].
  - destruct s as [|d s]; [reflexivity|].
    destruct (isWhiteSpace d); [exact IH|]. cbn [filter]. exact IH.
  - cbn [filter]. rewrite W. cbn [negb]. rewrite IH. reflexivity.
Qed.

Lemma removeWhiteSpace_comma (s : list N) :
  removeWhiteSpace (replaceArabicComma s) = replaceArabicComma (removeWhiteSpace s).
Proof.
  unfold removeWhiteSpace, replaceArabicComma. units.
  induction s as [|c s IH]; [reflexivity|].
  cbn [map filter]. rewrite IH.
  destruct (N.eqb_spec c 1548) as [->|Ne]; [reflexivity|].
  destruct (isWhiteSpace c); cbn [negb map]; [reflexivity|].
  apply N.eqb_neq in Ne. rewrite Ne. reflexivity.
Qed.

(** The left side as it is compared with [dy/dx]. *)
Lemma leftSide_normalized (L : list N) :
  toLowerCase (removeWhiteSpace (trim (trimStart (cleanText L)))) =
  toLowerCase (replaceArabicComma (removeWhiteSpace L)).
Proof.
  rewrite removeWhiteSpace_trim, removeWhiteSpace_trimStart. unfold cleanText.
  rewrite removeWhiteSpace_comma, removeWhiteSpace_collapse. reflexivity.
Qed.

Lemma lowerUnit_above (c : N) : (c <= lowerUnit c)%N.
Proof. destruct (lowerUnit_cases c) as [[E _]|[E _]]; rewrite E; lia. Qed.

(** A text that is [dy/dx] once lowered has no comma of either kind. *)
Lemma comma_free (s : list N) :
  Forall (fun c => (lowerUnit c <= 121)%N) s -> replaceArabicComma s = s.
Proof.
  unfold replaceArabicComma. units. induction 1 as [|c s Hc Hs IH]; [reflexivity|].
  cbn [map]. rewrite IH. pose proof (lowerUnit_above c).
  destruct (N.eqb_spec c 1548); [lia|reflexivity].
Qed.

Lemma comma_kept (s : list N) :
  Forall (fun c => (lowerUnit c <= 121)%N /\ lowerUnit c <> 44%N)
         (replaceArabicComma s) ->
  replaceArabicComma s = s.
Proof.
  unfold replaceArabicComma. units. induction s as [|c s IH]; [reflexivity|].
  cbn [map]. intros H. inversion H as [|d l Hd Hl]; subst.
  rewrite (IH Hl). destruct (N.eqb_spec c 1548); [|reflexivity].
  exfalso. apply (proj2 Hd). reflexivity.
Qed.

Definition isLeftSide (L : list N) : bool :=
  unitsEqb (toLowerCase (removeWhiteSpace L)) (str "dy/dx").

Lemma unitsEqb_eq (a b : list N) : unitsEqb a b = true <-> a = b.
Proof.
  unfold unitsEqb. destruct (list_eq_dec N.eq_dec a b); split; congruence.
Qed.

Lemma lowered_bound (s : list N) :
  toLowerCase s = str "dy/dx"%string ->
  Forall (fun c => (lowerUnit c <= 121)%N /\ lowerUnit c <> 44%N) s.
Proof.
  unfold toLowerCase. intros H. apply Forall_forall. intros c Hc.
  apply (in_map lowerUnit) in Hc. rewrite H in Hc.
  cbn in Hc. repeat destruct Hc as [<-|Hc]; try (split; [lia|discriminate]).
  contradiction.
Qed.

Lemma leftSide_accepted (L : list N) :
  unitsEqb (toLowerCase (replaceArabicComma (removeWhiteSpace L)))
           (str "dy/dx"%string) = isLeftSide L.
Proof.
  unfold isLeftSide.
  destruct (unitsEqb (toLowerCase (removeWhiteSpace L)) (str "dy/dx"%string)) eqn:E.
  - apply unitsEqb_eq in E. apply unitsEqb_eq.
    rewrite comma_free; [exact E|].
    eapply Forall_impl; [|exact (lowered_bound _ E)]. intros c [H _]. exact H.
  - destruct (unitsEqb (toLowerCase (replaceArabicComma (removeWhiteSpace L)))
                       (str "dy/dx"%string)) eqn:E'; [|reflexivity].
    apply unitsEqb_eq in E'.
    rewrite (comma_kept (removeWhiteSpace L)) in E'.
    + apply unitsEqb_eq in E'. congruence.
    + exact (lowered_bound _ E').
Qed.

Lemma isLeftSide_noEquals (L : list N) :
  isLeftSide L = true -> noEquals L = true.
Proof.
  unfold isLeftSide. intros H. apply unitsEqb_eq in H.
  apply forallb_forall. intros c Hc. apply negb_true_iff. apply N.eqb_neq.
  intros ->.
  assert (In 61%N (toLowerCase (removeWhiteSpace L))).
  { unfold toLowerCase, removeWhiteSpace.
    change 61%N with (lowerUnit 61%N). apply in_map.
    apply filter_In. split; [exact Hc|reflexivity]. }
  rewrite H in H0. cbn in H0.
  repeat destruct H0 as [H0|H0]; try discriminate H0. contradiction.
Qed.

Section Sides.
Context {ML : MathLib}.

(** [parseDifferentialEquation] on a text with a sign [=] after a left
    side without one. *)
Lemma parseDifferentialEquation_sides (L rest : list N) :
  noEquals L = true ->
  parseDifferentialEquation (L ++ 61%N :: rest) =
  if isLeftSide L then
    do rhsAst <- parseExpression
                   (trim (fst (span (fun c => negb (c =? 61)%N)
                                 (trimEnd (cleanText rest)))));
    Ok (mkParsed rhsAst ("dy/dx = " ++ nodeToString rhsAst)%string)
  else Throw BadLeftSide.
Proof.
  intros HL. unfold parseDifferentialEquation.
  destruct (splitEquals_cleaned L rest HL) as [E S].
  fold (cleanText (L ++ 61%N :: rest)). rewrite E, S. cbn [negb].
  rewrite leftSide_normalized, leftSide_accepted.
  destruct (isLeftSide L); reflexivity.
Qed.

(** X16: The left side is checked before the right side is read. A text
    without the sign [=] is rejected for it, and a text whose left side,
    without its white space and lowered, is not [dy/dx], is rejected for its
    left side, whatever follows the sign. *)
Theorem processEquation_left_side :
  (forall s, noEquals s = true -> processEquation s = StatusError MissingEquals) /\
  (forall L rest,
     noEquals L = true -> isLeftSide L = false ->
     processEquation (L ++ 61%N :: rest) = StatusError BadLeftSide).
Proof.
  split.
  - intros s H. unfold processEquation, parseDifferentialEquation.
    fold (cleanText s).
    assert (N : noEquals (trim (cleanText s)) = true).
    { rewrite trim_trimEnd.
      apply noEquals_trimEnd, noEquals_trimStart, noEquals_cleanText, H. }
    rewrite (noEquals_existsb _ N). reflexivity.
  - intros L rest HL B. unfold processEquation.
    rewrite (parseDifferentialEquation_sides L rest HL), B. reflexivity.
Qed.

(** X17: With a left side that is [dy/dx] up to white space and to the case
    of its letters, the answer depends on the text between the first sign
    [=] and the second one only: what follows a second sign is not read. *)
Theorem processEquation_right_side (L R C : list N) :
  isLeftSide L = true -> noEquals R = true ->
  processEquation (L ++ 61%N :: R) =
    processEquation (str "dy/dx"%string ++ 61%N :: R) /\
  processEquation (L ++ 61%N :: R ++ 61%N :: C) =
    processEquation (str "dy/dx"%string ++ 61%N :: R).
Proof.
  intros HL HR. unfold processEquation.
  rewrite !parseDifferentialEquation_sides
    by (try apply isLeftSide_noEquals; try exact HL; reflexivity).
  rewrite HL. change (isLeftSide (str "dy/dx"%string)) with true. cbv iota.
  pose proof (rightSide_followed R C HR) as F.
  pose proof (rightSide_alone R HR) as A.
  units. rewrite F, A. split; reflexivity.
Qed.

End Sides.

Local Open Scope string_scope.

(** The texts [x + 1] and [y' = x]. *)
Lemma processEquation_left_side_witness :
  processEquation (ML := rationalMath) (str "x + 1") = StatusError MissingEquals /\
  processEquation (ML := rationalMath) (str "y' = x") = StatusError BadLeftSide.
Proof.
  destruct (processEquation_left_side (ML := rationalMath)) as [M B]. split.
  - apply M. reflexivity.
  - apply (B (str "y' ") (str " x")); reflexivity.
Defined.

(** The text [DY / DX = 2*x = 7]. *)
Lemma processEquation_right_side_witness :
  processEquation (ML := rationalMath) (str "DY / DX = 2*x = 7") =
  processEquation (ML := rationalMath) (str "dy/dx= 2*x ").
Proof.
  apply (proj2 (processEquation_right_side (ML := rationalMath)
                  (str "DY / DX ") (str " 2*x ") (str " 7") eq_refl eq_refl)).
Defined.

(** ** The object of an answered equation *)

Section Answer.
Context {ML : MathLib}.

Lemma parseExpression_simplified (input : list codeUnit) (n : node) :
  parseExpression input = Ok n -> simplifyNode n = n.
Proof.
  unfold parseExpression. destruct (trim input); [discriminate|].
  destruct (tokenize _) as [tokens|e]; [|discriminate]. cbn [bind].
  destruct (toRPN tokens) as [rpn|e]; [|discriminate]. cbn [bind].
  unfold buildAST. destruct (buildASTLoop rpn []) as [stack|e]; [|discriminate].
  cbn [bind]. destruct stack as [|top [|]]; try discriminate.
  intros H. injection H as <-. apply simplifyNode_simplified.
Qed.

Lemma parseDifferentialEquation_parsed (s : list codeUnit) (parsed : parsedEquation) :
  parseDifferentialEquation s = Ok parsed ->
  (exists input, parseExpression input = Ok (parsed_rhs parsed)) /\
  parsed_normalizedEquation parsed = "dy/dx = " ++ nodeToString (parsed_rhs parsed).
Proof.
  unfold parseDifferentialEquation.
  destruct (negb (existsb _ _)); [discriminate|].
  destruct (splitEquals _) as [lhsPart rhsPart].
  destruct (negb (unitsEqb _ _)); [discriminate|].
  destruct (parseExpression (trim rhsPart)) as [rhsAst|e] eqn:P; [|discriminate].
  cbn [bind]. intros H. injection H as <-. cbn [parsed_rhs parsed_normalizedEquation].
  split; [eauto|reflexivity].
Qed.

(** The number of steps of each family, and the class that the object
    names. *)
Definition answered (rhs : node) (sol : solved) : Prop :=
  (classificationName sol = "direct" /\ dependsOn rhs "y" = false /\
   List.length (equationLines sol) = 3%nat) \/
  (classificationName sol = "separable" /\ dependsOn rhs "y" = true /\
   (List.length (equationLines sol) = 4%nat \/
    List.length (equationLines sol) = 5%nat)) \/
  (classificationName sol = "linear" /\ dependsOn rhs "y" = true /\
   List.length (equationLines sol) = 6%nat).

Lemma solve_answered (parsed : parsedEquation) (sol : solved) :
  solve parsed = Ok (StatusOk sol) ->
  rhsNode sol = parsed_rhs parsed /\
  normalizedEquation sol = parsed_normalizedEquation parsed /\
  answered (parsed_rhs parsed) sol /\
  hd None (equationLines sol) = None /\
  last (equationLines sol) None = Some (finalSolution sol).
Proof.
  unfold solve, classifyEquation.
  destruct (dependsOn (parsed_rhs parsed) "y") eqn:Y; cbn [negb].
  - destruct (detectSeparable _) as [[xPart yPart]|].
    + unfold buildSeparableSolution.
      destruct (integrate _ "y") as [leftIntegral|]; [|discriminate].
      destruct (integrate _ "x") as [rightIntegral|]; [|discriminate].
      cbn [bind]. intros H. injection H as <-.
      cbn [rhsNode normalizedEquation classificationName equationLines
           finalSolution].
      split; [reflexivity|]. split; [reflexivity|].
      destruct (deriveExplicitFromSeparable leftIntegral rightIntegral);
        (split; [right; left; cbn; auto|]); split; reflexivity.
    + destruct (detectLinear _) as [[aNode bNode]|]; [|discriminate].
      unfold buildLinearSolution.
      destruct (integrate _ "x") as [integralP|]; [|discriminate].
      cbn [bind]. intros H. injection H as <-.
      cbn [rhsNode normalizedEquation classificationName equationLines
           finalSolution].
      split; [reflexivity|]. split; [reflexivity|].
      split; [right; right; cbn; auto|]. split; reflexivity.
  - unfold buildDirectSolution.
    destruct (integrate _ "x") as [integral|]; [|discriminate].
    cbn [bind]. intros H. injection H as <-.
    cbn [rhsNode normalizedEquation classificationName equationLines
         finalSolution].
    split; [reflexivity|]. split; [reflexivity|].
    split; [left; cbn; auto|]. split; reflexivity.
Qed.

(** X18: The object of the status [ok]. Its node is the one that the parser
    returned: it is simplified and can be evaluated at every point without
    an exception; the normalized equation is its text. The object names one
    of the three families, a direct equation exactly when the node is
    without [y], and has the steps of the family, three, four or five, or
    six; the first step has no equation line and the line of the last step
    is the final solution. *)
Theorem processEquation_answer (s : list codeUnit) (sol : solved) :
  processEquation s = StatusOk sol ->
  simplifyNode (rhsNode sol) = rhsNode sol /\
  normalizedEquation sol = "dy/dx = " ++ nodeToString (rhsNode sol) /\
  answered (rhsNode sol) sol /\
  hd None (equationLines sol) = None /\
  last (equationLines sol) None = Some (finalSolution sol) /\
  (forall x y, exists v, evaluateNode (rhsNode sol) (xyScope x y) = Ok v).
Proof.
  unfold processEquation. intros H.
  destruct (parseDifferentialEquation s) as [parsed|e] eqn:P; [|discriminate H].
  cbn [bind] in H.
  destruct (solve parsed) as [o|e] eqn:S; [|discriminate H]. subst o.
  destruct (parseDifferentialEquation_parsed s parsed P) as [[input I] N].
  destruct (solve_answered parsed sol S) as [R [E [A [F L]]]].
  rewrite R, E.
  split; [exact (parseExpression_simplified input _ I)|].
  split; [exact N|]. split; [exact A|]. split; [exact F|]. split; [exact L|].
  intros x y. apply knownNames_evaluable.
  pose proof (parseExpression_known input) as K. rewrite I in K. exact K.
Qed.

End Answer.

Local Open Scope string_scope.

(** The equation [dy/dx = 2*x]. *)
Lemma processEquation_answer_witness :
  exists sol,
    processEquation (ML := rationalMath) (str "dy/dx = 2*x") = StatusOk sol /\
    normalizedEquation sol = "dy/dx = " ++ nodeToString (rhsNode sol).
Proof.
  eexists. split; [reflexivity|].
  apply (processEquation_answer (ML := rationalMath) (str "dy/dx = 2*x") _ eq_refl).
Defined.

(** ** The keys and the text field *)

Local Open Scope list_scope.

(** The selection is within the value, and the value is shorter than the
    positions that the browser can tell apart. *)
Definition wellFormed (target : textField) : Prop :=
  (selectionStart target <= selectionEnd target)%nat /\
  (selectionEnd target <= List.length (fieldValue target))%nat /\
  (Z.of_nat (List.length (fieldValue target)) < 2 ^ 31)%Z.

Definition backspaceKey : key := mkKey "←" (str "BACKSPACE") None.

Lemma setSelection_inside (target : textField) (position : nat) :
  (position <= List.length (fieldValue target))%nat ->
  (Z.of_nat (List.length (fieldValue target)) < 2 ^ 32)%Z ->
  setSelection target (Z.of_nat position) =
  mkField (fieldValue target) position position.
Proof.
  intros P B. unfold setSelection.
  rewrite Z.mod_small by lia. rewrite Nat2Z.id, Nat.min_l by exact P.
  reflexivity.
Qed.

(** A key that writes a text replaces the selection by the text, and puts
    the caret after the text, [offset] units back. *)
Lemma insertText_spec (target : textField) (text : list codeUnit) (offset : nat) :
  wellFormed target -> (offset <= List.length text)%nat ->
  (Z.of_nat (List.length text) < 2 ^ 31)%Z ->
  insertText target text offset =
  mkField (firstn (selectionStart target) (fieldValue target) ++ text ++
           skipn (selectionEnd target) (fieldValue target))
          (selectionStart target + List.length text - offset)
          (selectionStart target + List.length text - offset).
Proof.
  intros [W1 [W2 W3]] O T. unfold insertText.
  set (start := selectionStart target) in *.
  set (value := firstn start (fieldValue target) ++ text ++
                skipn (selectionEnd target) (fieldValue target)).
  assert (L : List.length value =
              (start + List.length text +
               (List.length (fieldValue target) - selectionEnd target))%nat).
  { unfold value. rewrite !length_app, length_firstn, length_skipn. lia. }
  replace (Z.of_nat start + Z.of_nat (List.length text) - Z.of_nat offset)%Z
    with (Z.of_nat (start + List.length text - offset)) by lia.
  apply (setSelection_inside (setValue target value)); cbn [setValue fieldValue];
    rewrite L; lia.
Qed.

Lemma nth_error_inserted (before text after : list codeUnit) (i : nat) :
  nth_error (before ++ text ++ after) (List.length before + i) =
  match nth_error text i with
  | Some c => Some c
  | None => nth_error after (i - List.length text)
  end.
Proof.
  rewrite nth_error_app2 by lia.
  replace (List.length before + i - List.length before)%nat with i by lia.
  destruct (nth_error text i) as [c|] eqn:E.
  - rewrite nth_error_app1; [exact E|]. apply nth_error_Some. congruence.
  - apply nth_error_None in E. rewrite nth_error_app2 by exact E. reflexivity.
Qed.

(** X20: A key that writes one code unit, and then the backspace key: the
    selection is deleted and the caret is where the selection started. When
    nothing was selected the field is as it was. *)
Theorem backspace_undoes_key (target : textField) (k : key) (c : codeUnit) :
  wellFormed target -> keyValue k = [c] -> offsetOf k = 0%nat ->
  handleKeyPress (handleKeyPress target k) backspaceKey =
  mkField (firstn (selectionStart target) (fieldValue target) ++
           skipn (selectionEnd target) (fieldValue target))
          (selectionStart target) (selectionStart target) /\
  (selectionStart target = selectionEnd target ->
   handleKeyPress (handleKeyPress target k) backspaceKey = target).
Proof.
  intros W V O.
  assert (E1 : handleKeyPress target k =
               mkField (firstn (selectionStart target) (fieldValue target) ++ [c] ++
                        skipn (selectionEnd target) (fieldValue target))
                       (selectionStart target + 1) (selectionStart target + 1)).
  { unfold handleKeyPress. rewrite V, O.
    assert (B : unitsEqb [c] (str "BACKSPACE") = false).
    { destruct (unitsEqb [c] (str "BACKSPACE")) eqn:B; [|reflexivity].
      apply unitsEqb_eq in B. discriminate B. }
    rewrite B.
    rewrite (insertText_spec target [c] 0 W)
      by (cbn [List.length]; first [lia|reflexivity]).
    cbn [List.length]. rewrite Nat.sub_0_r. reflexivity. }
  destruct W as [W1 [W2 W3]].
  set (start := selectionStart target) in *.
  set (before := firstn start (fieldValue target)) in *.
  set (after := skipn (selectionEnd target) (fieldValue target)) in *.
  assert (Lb : List.length before = start).
  { unfold before. rewrite length_firstn. lia. }
  assert (La : List.length after =
               (List.length (fieldValue target) - selectionEnd target)%nat).
  { unfold after. apply length_skipn. }
  assert (E2 : handleKeyPress (handleKeyPress target k) backspaceKey =
               mkField (before ++ after) start start).
  { rewrite E1. unfold handleKeyPress.
    change (unitsEqb (keyValue backspaceKey) (str "BACKSPACE")) with true.
    cbv iota. cbn [selectionStart selectionEnd fieldValue].
    rewrite Nat.eqb_refl.
    assert (P : (0 <? start + 1)%nat = true) by (apply Nat.ltb_lt; lia).
    rewrite P. cbn [andb].
    replace (start + 1 - 1)%nat with start by lia.
    assert (F : firstn start (before ++ [c] ++ after) = before).
    { rewrite <- Lb. rewrite firstn_app, firstn_all, Nat.sub_diag. cbn [firstn].
      apply app_nil_r. }
    assert (S : skipn (start + 1) (before ++ [c] ++ after) = after).
    { rewrite skipn_app, Lb.
      rewrite skipn_all2 by lia.
      replace (start + 1 - start)%nat with 1%nat by lia. reflexivity. }
    rewrite F, S.
    replace (Z.of_nat (start + 1) - 1)%Z with (Z.of_nat start) by lia.
    apply (setSelection_inside (setValue target (before ++ after)));
      cbn [setValue fieldValue]; rewrite length_app, Lb, La; lia. }
  split; [exact E2|].
  intros C. rewrite E2. unfold before, after. rewrite <- C.
  fold start. rewrite firstn_skipn.
  destruct target as [value s e]. cbn [selectionStart selectionEnd fieldValue] in *.
  subst e. reflexivity.
Qed.

(** The keys whose caret goes back by one: the keys of the functions. *)
Lemma keys_of_functions (k : key) :
  In k (List.concat KEY_LAYOUT) -> cursorOffset k = Some 1%nat ->
  exists name,
    keyValue k = name ++ [40%N; 41%N] /\ (List.length name <= 4)%nat /\
    unitsEqb (keyValue k) (str "BACKSPACE") = false.
Proof.
  intros H O. cbn in H.
  repeat destruct H as [<-|H]; try discriminate O; try contradiction;
    [ exists (str "sin") | exists (str "cos") | exists (str "tan")
    | exists (str "exp") | exists (str "ln") | exists (str "sqrt") ];
    (split; [reflexivity|split; [cbn; lia|reflexivity]]).
Qed.

(** X21: A key of a function writes the name and two parentheses, and leaves
    the caret between the parentheses. *)
Theorem function_key_caret (target : textField) (k : key) :
  wellFormed target -> In k (List.concat KEY_LAYOUT) -> cursorOffset k = Some 1%nat ->
  let result := handleKeyPress target k in
  fieldValue result =
    firstn (selectionStart target) (fieldValue target) ++ keyValue k ++
    skipn (selectionEnd target) (fieldValue target) /\
  selectionEnd result = selectionStart result /\
  nth_error (fieldValue result) (selectionStart result - 1) = Some 40%N /\
  nth_error (fieldValue result) (selectionStart result) = Some 41%N.
Proof.
  intros W H O result.
  destruct (keys_of_functions k H O) as [name [V [Ln B]]].
  assert (E : result =
              mkField (firstn (selectionStart target) (fieldValue target) ++
                       keyValue k ++
                       skipn (selectionEnd target) (fieldValue target))
                      (selectionStart target + List.length (keyValue k) - 1)
                      (selectionStart target + List.length (keyValue k) - 1)).
  { unfold result, handleKeyPress. rewrite B. unfold offsetOf. rewrite O.
    apply (insertText_spec target (keyValue k) 1 W);
      rewrite V, length_app; cbn [List.length]; lia. }
  rewrite E. cbn [fieldValue selectionStart selectionEnd].
  split; [reflexivity|]. split; [reflexivity|].
  destruct W as [W1 [W2 W3]].
  set (before := firstn (selectionStart target) (fieldValue target)).
  assert (Lb : List.length before = selectionStart target).
  { unfold before. rewrite length_firstn. lia. }
  rewrite V, length_app. cbn [List.length].
  rewrite <- Lb. split.
  - replace (List.length before + (List.length name + 2) - 1 - 1)%nat
      with (List.length before + List.length name)%nat by lia.
    rewrite nth_error_inserted, nth_error_app2 by lia.
    rewrite Nat.sub_diag. reflexivity.
  - replace (List.length before + (List.length name + 2) - 1)%nat
      with (List.length before + (List.length name + 1))%nat by lia.
    rewrite nth_error_inserted, nth_error_app2 by lia.
    replace (List.length name + 1 - List.length name)%nat with 1%nat by lia.
    reflexivity.
Qed.

(** X22: The backspace key deletes the selection; when nothing is selected
    it deletes the code unit before the caret, and nothing at the start of
    the text. The caret is where the deleted text started. *)
Theorem backspace_deletes (target : textField) :
  wellFormed target ->
  let result := handleKeyPress target backspaceKey in
  let deleted :=
    if (selectionStart target =? selectionEnd target)%nat
    then Nat.min 1 (selectionStart target)
    else (selectionEnd target - selectionStart target)%nat in
  fieldValue result =
    firstn (selectionEnd target - deleted) (fieldValue target) ++
    skipn (selectionEnd target) (fieldValue target) /\
  selectionStart result = (selectionEnd target - deleted)%nat /\
  selectionEnd result = (selectionEnd target - deleted)%nat /\
  (List.length (fieldValue result) + deleted)%nat =
    List.length (fieldValue target).
Proof.
  intros [W1 [W2 W3]] result deleted.
  set (start := selectionStart target) in *.
  set (finish := selectionEnd target) in *.
  assert (E : result =
              mkField (firstn (finish - deleted) (fieldValue target) ++
                       skipn finish (fieldValue target))
                      (finish - deleted) (finish - deleted)).
  { unfold result, handleKeyPress.
    change (unitsEqb (keyValue backspaceKey) (str "BACKSPACE")) with true.
    cbv iota. fold start finish. unfold deleted.
    destruct (Nat.eqb_spec start finish) as [C|C]; cbn [andb].
    - destruct (Nat.ltb_spec 0 start) as [P|P].
      + replace (finish - Nat.min 1 start)%nat with (start - 1)%nat by lia.
        replace (Z.of_nat start - 1)%Z with (Z.of_nat (start - 1)) by lia.
        apply (setSelection_inside (setValue target _));
          cbn [setValue fieldValue];
          rewrite length_app, length_firstn, length_skipn; lia.
      + replace (finish - Nat.min 1 start)%nat with start by lia.
        apply (setSelection_inside (setValue target _));
          cbn [setValue fieldValue];
          rewrite length_app, length_firstn, length_skipn; lia.
    - replace (finish - (finish - start))%nat with start by lia.
      apply (setSelection_inside (setValue target _));
        cbn [setValue fieldValue];
        rewrite length_app, length_firstn, length_skipn; lia. }
  rewrite E. cbn [fieldValue selectionStart selectionEnd].
  split; [reflexivity|]. split; [reflexivity|]. split; [reflexivity|].
  rewrite length_app, length_firstn, length_skipn.
  unfold deleted. destruct (Nat.eqb_spec start finish); lia.
Qed.

Local Open Scope string_scope.

(** The key [x] on the text [2*], the caret at its end. *)
Lemma backspace_undoes_key_witness :
  handleKeyPress
    (handleKeyPress (mkField (str "2*") 2 2) (mkKey "x" (str "x") None))
    backspaceKey =
  mkField (str "2*") 2 2.
Proof.
  apply (proj2 (backspace_undoes_key (mkField (str "2*") 2 2)
                  (mkKey "x" (str "x") None) 120%N
                  (conj (Nat.le_refl 2) (conj (Nat.le_refl 2) eq_refl))
                  eq_refl eq_refl)).
  reflexivity.
Defined.

(** The key [sin] on the empty text. *)
Lemma function_key_caret_witness :
  selectionStart
    (handleKeyPress (mkField [] 0 0) (mkKey "sin" (str "sin()") (Some 1%nat))) =
  4%nat.
Proof.
  destruct (function_key_caret (mkField [] 0 0)
              (mkKey "sin" (str "sin()") (Some 1%nat))) as [_ [_ _]].
  - split; [apply Nat.le_refl|]. split; [apply Nat.le_refl|reflexivity].
  - cbn. tauto.
  - reflexivity.
  - reflexivity.
Defined.

(** The text [x+y] with [+y] selected. *)
Lemma backspace_deletes_witness :
  fieldValue (handleKeyPress (mkField (str "x+y") 1 3) backspaceKey) = str "x".
Proof.
  refine (proj1 (backspace_deletes (mkField (str "x+y") 1 3) _)).
  split; [|split]; [cbn; lia|cbn; lia|reflexivity].
Defined.

(** ** Equations proportional to [y] *)

Local Open Scope list_scope.

Section Proportional.
Context {ML : MathLib}.

Lemma flattenProductFrom_free (n : node) (denominator : bool) :
  dependsOn n "y" = false ->
  forallb (fun factor => negb (dependsOn (fst factor) "y"))
          (flattenProductFrom n denominator) = true.
Proof.
  revert denominator.
  induction n as [v|x|op a IHa|g a IHa|op l IHl r IHr]; intros denominator H;
    try (cbn [flattenProductFrom forallb fst]; rewrite H; reflexivity).
  cbn [dependsOn] in H. apply orb_false_iff in H. destruct H as [Hl Hr].
  destruct op; cbn [flattenProductFrom];
    try (rewrite forallb_app, (IHl _ Hl), (IHr _ Hr); reflexivity);
    cbn [forallb fst dependsOn]; rewrite Hl, Hr; reflexivity.
Qed.

(** The factors without [y] leave the two lists of the factors in [y] as
    they are. *)
Lemma groupFactors_free (factors : list (node * bool)) (g : factorGroups) :
  forallb (fun factor => negb (dependsOn (fst factor) "y")) factors = true ->
  exists g',
    groupFactors factors g = Some g' /\ yNum g' = yNum g /\ yDen g' = yDen g.
Proof.
  revert g. induction factors as [|[n inDenominator] rest IH]; intros g F.
  - exists g. auto.
  - cbn [forallb fst] in F. apply andb_true_iff in F. destruct F as [Fn Fr].
    apply negb_true_iff in Fn. cbn [groupFactors]. rewrite Fn, andb_false_r.
    destruct (dependsOn n "x"); destruct inDenominator;
      match goal with
      | |- exists g', groupFactors rest ?G = _ /\ _ =>
          destruct (IH G Fr) as [g' [E [Y1 Y2]]]; exists g'; auto
      end.
Qed.

Lemma groupFactors_app (a b : list (node * bool)) (g : factorGroups) :
  groupFactors (a ++ b) g =
  match groupFactors a g with
  | Some g' => groupFactors b g'
  | None => None
  end.
Proof.
  revert g. induction a as [|[n inDenominator] a IH]; intros g; [reflexivity|].
  cbn [app groupFactors].
  destruct (dependsOn n "x" && dependsOn n "y"); [reflexivity|].
  destruct (dependsOn n "y"); [destruct inDenominator; apply IH|].
  destruct (dependsOn n "x"); destruct inDenominator; apply IH.
Qed.

(** The integral in [y] of [1 / y] is [ln(abs(y))]. *)
Lemma integrate_inverse :
  integrate (simplifyNode (makeDiv (createNumber (Fin 1)) (NVariable "y"))) "y" =
  Some (lnAbs (NVariable "y")).
Proof. reflexivity. Qed.

Lemma detectSeparable_proportional (f : node) :
  dependsOn f "y" = false ->
  exists xPart,
    detectSeparable (NBinary Mul f (NVariable "y")) =
      Some (xPart, NVariable "y") /\
    dependsOn xPart "y" = false.
Proof.
  intros F. unfold detectSeparable, flattenProduct. cbn [flattenProductFrom].
  rewrite groupFactors_app.
  destruct (groupFactors_free (flattenProductFrom f false)
              (mkGroups [] [] [] [] [] [])
              (flattenProductFrom_free f false F)) as [g [E [Y1 Y2]]].
  rewrite E. cbn [groupFactors dependsOn String.eqb Ascii.eqb Bool.eqb andb].
  pose proof (groupFactors_separated _ _ _ E eq_refl) as S. unfold separated in S.
  repeat (apply andb_true_iff in S; destruct S as [S ?]).
  cbn [yNum yDen xNum xDen cNum cDen]. rewrite Y1, Y2. cbn [yNum yDen app isEmpty andb].
  eexists. split; [reflexivity|].
  apply buildProduct_free; rewrite free_app; apply andb_true_iff; split; assumption.
Qed.

(** X23: An equation [dy/dx = f * y] with [f] without [y] is separable with
    the part [y]; when the part in [x] has an integral [G], the answer is
    the explicit solution [y = C · exp(G)], and when it has none, the
    equation is rejected for its integrals. *)
Theorem solve_proportional (parsed : parsedEquation) (f : node) :
  parsed_rhs parsed = NBinary Mul f (NVariable "y") ->
  dependsOn f "y" = false ->
  exists xPart,
    classifyEquation (parsed_rhs parsed) =
      Separable (parsed_rhs parsed) xPart (NVariable "y") /\
    dependsOn xPart "y" = false /\
    match integrate (simplifyNode xPart) "x" with
    | Some G =>
        exists sol,
          solve parsed = Ok (StatusOk sol) /\
          classificationName sol = "separable"%string /\
          finalSolution sol = ("y = C · exp(" ++ nodeToString G ++ ")")%string
    | None => solve parsed = Throw SeparableNotIntegrable
    end.
Proof.
  intros R F. destruct (detectSeparable_proportional f F) as [xPart [D X]].
  assert (C : classifyEquation (parsed_rhs parsed) =
              Separable (parsed_rhs parsed) xPart (NVariable "y")).
  { rewrite R. unfold classifyEquation.
    cbn [dependsOn String.eqb Ascii.eqb Bool.eqb orb negb]. rewrite orb_true_r.
    cbn [negb]. rewrite D. reflexivity. }
  exists xPart. split; [exact C|]. split; [exact X|].
  unfold solve. rewrite C. unfold buildSeparableSolution.
  rewrite integrate_inverse.
  destruct (integrate (simplifyNode xPart) "x") as [G|]; [|reflexivity].
  cbn [bind]. eexists. split; [reflexivity|]. split; reflexivity.
Qed.

End Proportional.

Local Open Scope string_scope.

(** The equation [dy/dx = x * y]. *)
Lemma solve_proportional_witness :
  exists sol,
    solve (ML := rationalMath)
      (mkParsed (NBinary Mul (NVariable "x") (NVariable "y")) "dy/dx = x * y") =
      Ok (StatusOk sol) /\
    finalSolution sol = "y = C · exp(0.5 * x ^ 2)".
Proof.
  destruct (solve_proportional (ML := rationalMath)
              (mkParsed (NBinary Mul (NVariable "x") (NVariable "y")) "dy/dx = x * y")
              (NVariable "x") eq_refl eq_refl) as [xPart [C [_ S]]].
  injection C as <-. destruct S as [sol [E [_ F]]].
  exists sol. split; [exact E|]. rewrite F. reflexivity.
Defined.

(** ** From the infix order to the postfix order *)

Local Open Scope list_scope.

(** The tokens of an operand between parentheses, or as they are. *)
Definition wrapTokens (wrap : bool) (tokens : list token) : list token :=
  if wrap then TLparen :: tokens ++ [TRparen] else tokens.

(** The tokens of the text of a node, with the parentheses that
    [nodeToString] writes. *)
Fixpoint infix (n : node) : list token :=
  match n with
  | NNumber value => [TNumber value]
  | NVariable name => [TVariable name]
  | NUnary _ a => TOperator OpNegate :: wrapTokens (needsParens a) (infix a)
  | NFunction name a => TFunction name :: TLparen :: infix a ++ [TRparen]
  | NBinary op l r =>
      wrapTokens (shouldWrap l (PREC_MAP op) LeftSide op) (infix l) ++
      TOperator (OpBinary op) ::
      wrapTokens (shouldWrap r (PREC_MAP op) RightSide op) (infix r)
  end.

(** The test of the loop of the operator case of [toRPN]: [o1] sends [o2]
    from the stack to the output. *)
Definition sends (o1 o2 : operator) : bool :=
  match assoc o1 with
  | LeftAssoc => (precedence o1 <=? precedence o2)%nat
  | RightAssoc => (precedence o1 <? precedence o2)%nat
  end.

(** The operators of a node that are not between parentheses. *)
Fixpoint openOperators (n : node) : list operator :=
  match n with
  | NUnary _ a => OpNegate :: (if needsParens a then [] else openOperators a)
  | NBinary op l r =>
      (if shouldWrap l (PREC_MAP op) LeftSide op then [] else openOperators l) ++
      OpBinary op ::
      (if shouldWrap r (PREC_MAP op) RightSide op then [] else openOperators r)
  | _ => []
  end.

(** The operators that are on the stack when the tokens of the node are
    read, the top first, and the tokens that are in the output. *)
Fixpoint pending (n : node) : list token :=
  match n with
  | NUnary _ a => (if needsParens a then [] else pending a) ++ [TOperator OpNegate]
  | NBinary op l r =>
      (if shouldWrap r (PREC_MAP op) RightSide op then [] else pending r) ++
      [TOperator (OpBinary op)]
  | _ => []
  end.

Fixpoint emitted (n : node) : list token :=
  match n with
  | NNumber value => [TNumber value]
  | NVariable name => [TVariable name]
  | NUnary _ a => if needsParens a then postfix a else emitted a
  | NFunction name a => postfix a ++ [TFunction name]
  | NBinary op l r =>
      postfix l ++
      (if shouldWrap r (PREC_MAP op) RightSide op then postfix r else emitted r)
  end.

Lemma emitted_pending (n : node) : emitted n ++ pending n = postfix n.
Proof.
  induction n as [v|x|op a IHa|f a IHa|op l IHl r IHr]; cbn [emitted pending postfix].
  - reflexivity.
  - reflexivity.
  - destruct (needsParens a); [reflexivity|].
    rewrite app_assoc, IHa. reflexivity.
  - apply app_nil_r.
  - destruct (shouldWrap r (PREC_MAP op) RightSide op).
    + rewrite <- app_assoc. reflexivity.
    + rewrite <- !app_assoc. rewrite (app_assoc (emitted r)), IHr. reflexivity.
Qed.

(** A sum or a product is not the right operand of an operator [+] or [*]
    of its precedence, and a power is not the base of a power: the shapes
    that the text tells apart. *)
Definition leftShape (op : binop) (l : node) : bool :=
  match op, l with
  | Pow, NBinary Pow _ _ => false
  | _, _ => true
  end.

Definition rightShape (op : binop) (r : node) : bool :=
  match op, r with
  | (Add | Mul), NBinary o _ _ => negb (PREC_MAP o =? PREC_MAP op)%nat
  | _, _ => true
  end.

Fixpoint distinctShape (n : node) : bool :=
  match n with
  | NNumber _ | NVariable _ => true
  | NUnary _ a | NFunction _ a => distinctShape a
  | NBinary op l r =>
      distinctShape l && distinctShape r && leftShape op l && rightShape op r
  end.

(** The stack does not give way to the operators of the node: it is
    empty, or its top is a left parenthesis or an operator that none of
    them sends to the output. *)
Definition holds (stack : list token) (operators : list operator) : Prop :=
  match stack with
  | [] => True
  | TLparen :: _ => True
  | TOperator o2 :: _ => forall o1, In o1 operators -> sends o1 o2 = false
  | _ => False
  end.

Lemma holds_subset (stack : list token) (some all : list operator) :
  (forall o, In o some -> In o all) -> holds stack all -> holds stack some.
Proof.
  intros Sub H. destruct stack as [|[] below]; cbn in *; auto.
Qed.

Lemma popOperators_stop (o1 : operator) (stack output : list token) :
  holds stack [o1] -> popOperators o1 stack output = (stack, output).
Proof.
  intros H. destruct stack as [|top below]; [reflexivity|].
  destruct top; try reflexivity; try contradiction.
  cbn [popOperators]. cbn [holds] in H. specialize (H o1 (or_introl eq_refl)).
  unfold sends in H. destruct (assoc o1); rewrite H; reflexivity.
Qed.

(** The tokens are operators that [o1] sends to the output. *)
Definition sentBy (o1 : operator) (moved : list token) : Prop :=
  Forall (fun t => exists o2, t = TOperator o2 /\ sends o1 o2 = true) moved.

Lemma popOperators_moved (o1 : operator) (moved stack output : list token) :
  sentBy o1 moved ->
  popOperators o1 (moved ++ stack) output = popOperators o1 stack (output ++ moved).
Proof.
  intros M. revert output. induction M as [|t moved [o2 [-> S]] M IH]; intros output.
  - rewrite app_nil_r. reflexivity.
  - cbn [app popOperators]. unfold sends in S.
    destruct (assoc o1); rewrite S, IH, <- app_assoc; reflexivity.
Qed.

Lemma pending_operators (n : node) :
  Forall (fun t => exists o, t = TOperator o /\ In o (openOperators n)) (pending n).
Proof.
  induction n as [v|x|op a IHa|f a IHa|op l IHl r IHr];
    cbn [pending openOperators]; try constructor.
  - apply Forall_app. split.
    + destruct (needsParens a); [constructor|].
      eapply Forall_impl; [|exact IHa]. intros t [o [E I]]. exists o. split; [exact E|].
      right. exact I.
    + constructor; [|constructor]. exists OpNegate. split; [reflexivity|]. left. reflexivity.
  - apply Forall_app. split.
    + destruct (shouldWrap r (PREC_MAP op) RightSide op); [constructor|].
      eapply Forall_impl; [|exact IHr]. intros t [o [E I]]. exists o. split; [exact E|].
      apply in_or_app. right. right. exact I.
    + constructor; [|constructor]. exists (OpBinary op). split; [reflexivity|].
      apply in_or_app. right. left. reflexivity.
Qed.

(** The open operators of a node bind as tightly as the node. *)
Lemma openOperators_precedence (n : node) (o : operator) :
  In o (openOperators n) -> (getPrecedence n <= precedence o)%nat.
Proof.
  revert o. induction n as [v|x|op a IHa|f a IHa|op l IHl r IHr]; intros o H;
    cbn [openOperators] in H; try contradiction.
  - cbn [getPrecedence]. destruct H as [<-|H]; [cbn; lia|].
    destruct a as [v|x|op' a'|f a'|op' l r]; cbn [needsParens openOperators] in H;
      try contradiction.
    exact (IHa o H).
  - cbn [getPrecedence]. apply in_app_or in H. destruct H as [H|[<-|H]].
    + destruct l as [v|x|op' a'|f a'|op' l1 l2]; cbn [shouldWrap openOperators] in H;
        try contradiction.
      * specialize (IHl o H). cbn [getPrecedence] in IHl. destruct op; cbn; lia.
      * cbn [getPrecedence] in *.
        destruct (PREC_MAP op' <? PREC_MAP op)%nat eqn:C; [contradiction|].
        apply Nat.ltb_ge in C.
        assert (In o (openOperators (NBinary op' l1 l2))).
        { destruct (PREC_MAP op' =? PREC_MAP op)%nat; [|exact H].
          destruct op; exact H. }
        specialize (IHl o H0). lia.
    + destruct op; cbn; lia.
    + destruct r as [v|x|op' a'|f a'|op' r1 r2]; cbn [shouldWrap openOperators] in H;
        try contradiction.
      * specialize (IHr o H). cbn [getPrecedence] in IHr. destruct op; cbn; lia.
      * cbn [getPrecedence] in *.
        destruct (PREC_MAP op' <? PREC_MAP op)%nat eqn:C; [contradiction|].
        apply Nat.ltb_ge in C.
        assert (In o (openOperators (NBinary op' r1 r2))).
        { destruct (PREC_MAP op' =? PREC_MAP op)%nat; [|exact H].
          destruct op; cbn [isRightSide] in H; try contradiction; exact H. }
        specialize (IHr o H0). lia.
Qed.

Lemma precedence_negate (o : operator) :
  (4 <= precedence o)%nat -> o = OpNegate.
Proof. destruct o as [[]|]; cbn; intros H; try lia; reflexivity. Qed.

Lemma holds_top (stack : list token) (operators : list operator) :
  holds stack operators ->
  match stack with TFunction _ :: _ => False | _ => True end.
Proof. destruct stack as [|[] below]; cbn; auto. Qed.

Lemma popThroughLparen_operators (moved stack output : list token) :
  Forall (fun t => exists o, t = TOperator o) moved ->
  popThroughLparen (moved ++ TLparen :: stack) output =
  Some (stack, output ++ moved).
Proof.
  intros M. revert output. induction M as [|t moved [o ->] M IH]; intros output.
  - cbn. rewrite app_nil_r. reflexivity.
  - cbn [app popThroughLparen]. rewrite IH, <- app_assoc. reflexivity.
Qed.

Lemma pending_only_operators (n : node) :
  Forall (fun t => exists o, t = TOperator o) (pending n).
Proof.
  eapply Forall_impl; [|apply pending_operators].
  intros t [o [E _]]. exists o. exact E.
Qed.

(** The left operand of an operator is sent to the output by it, and the
    operator is not sent by the right operand. *)
Lemma left_operand_sent (op : binop) (l : node) :
  leftShape op l = true -> shouldWrap l (PREC_MAP op) LeftSide op = false ->
  sentBy (OpBinary op) (pending l).
Proof.
  intros Shape Wrap. eapply Forall_impl; [|apply pending_operators].
  intros t [o [-> I]]. exists o. split; [reflexivity|].
  pose proof (openOperators_precedence l o I) as P.
  assert (B : (PREC_MAP op <= precedence o)%nat /\
              (op = Pow -> (4 <= precedence o)%nat)).
  { destruct l as [v|x|op' a|f a|op' l1 l2]; cbn [openOperators] in I;
      try contradiction; cbn [getPrecedence] in P.
    - split; [destruct op; cbn; lia|intros _; exact P].
    - cbn [shouldWrap getPrecedence isRightSide] in Wrap.
      destruct (PREC_MAP op' <? PREC_MAP op)%nat eqn:C; [discriminate Wrap|].
      apply Nat.ltb_ge in C. split; [lia|]. intros ->.
      destruct op'; cbn in C; try lia. discriminate Shape. }
  destruct B as [B1 B2]. unfold sends.
  destruct op; cbn [assoc precedence PREC_MAP] in *;
    try (apply Nat.leb_le; exact B1).
  apply Nat.ltb_lt. specialize (B2 eq_refl). lia.
Qed.

Lemma right_operand_holds (op : binop) (r : node) (stack : list token) :
  rightShape op r = true -> shouldWrap r (PREC_MAP op) RightSide op = false ->
  holds (TOperator (OpBinary op) :: stack) (openOperators r).
Proof.
  intros Shape Wrap o I. cbn [holds].
  pose proof (openOperators_precedence r o I) as P.
  destruct r as [v|x|op' a|f a|op' r1 r2]; cbn [openOperators] in I;
    try contradiction; cbn [getPrecedence] in P.
  - rewrite (precedence_negate o P). destruct op; reflexivity.
  - cbn [shouldWrap getPrecedence isRightSide] in Wrap.
    destruct (PREC_MAP op' <? PREC_MAP op)%nat eqn:C; [discriminate Wrap|].
    apply Nat.ltb_ge in C.
    assert (L : (PREC_MAP op < PREC_MAP op')%nat).
    { destruct (PREC_MAP op' =? PREC_MAP op)%nat eqn:E.
      - destruct op; try discriminate Wrap; cbn [rightShape] in Shape;
          rewrite E in Shape; discriminate Shape.
      - apply Nat.eqb_neq in E. lia. }
    unfold sends. destruct (assoc o).
    + apply Nat.leb_gt. destruct op; cbn [precedence PREC_MAP] in *; lia.
    + apply Nat.ltb_ge. destruct op; cbn [precedence PREC_MAP] in *; lia.
Qed.

Lemma negated_operand_holds (a : node) (stack : list token) :
  needsParens a = false ->
  holds (TOperator OpNegate :: stack) (openOperators a).
Proof.
  intros Wrap o I. cbn [holds].
  pose proof (openOperators_precedence a o I) as P.
  destruct a as [v|x|op' a'|f a'|op' l r]; cbn [openOperators] in I;
    try contradiction; try discriminate Wrap.
  cbn [getPrecedence] in P. rewrite (precedence_negate o P). reflexivity.
Qed.

(** The state of [toRPN] after the tokens of a node. *)
Definition readsOperand (n : node) : Prop :=
  forall rest stack output,
    holds stack (openOperators n) ->
    toRPNLoop (infix n ++ rest) stack output =
    toRPNLoop rest (pending n ++ stack) (output ++ emitted n).

Lemma toRPNLoop_operand (n : node) (wrap : bool) (rest stack output : list token) :
  readsOperand n ->
  (if wrap then match stack with TFunction _ :: _ => False | _ => True end
   else holds stack (openOperators n)) ->
  toRPNLoop (wrapTokens wrap (infix n) ++ rest) stack output =
  toRPNLoop rest ((if wrap then [] else pending n) ++ stack)
            (output ++ (if wrap then postfix n else emitted n)).
Proof.
  intros IH H. destruct wrap; cbn [wrapTokens]; [|exact (IH rest stack output H)].
  cbn [app toRPNLoop]. rewrite <- app_assoc. rewrite IH by exact I.
  cbn [app toRPNLoop].
  rewrite (popThroughLparen_operators _ _ _ (pending_only_operators n)).
  rewrite <- app_assoc, emitted_pending.
  destruct stack as [|[] below]; try reflexivity. contradiction.
Qed.

Lemma toRPNLoop_infix (n : node) : distinctShape n = true -> readsOperand n.
Proof.
  induction n as [v|x|op a IHa|f a IHa|op l IHl r IHr]; intros Shape;
    cbn [distinctShape] in Shape; intros rest stack output H.
  - reflexivity.
  - reflexivity.
  - cbn [infix app toRPNLoop pending emitted].
    rewrite (popOperators_stop OpNegate stack output).
    2:{ eapply holds_subset; [|exact H]. intros o [<-|[]]. left. reflexivity. }
    rewrite (toRPNLoop_operand a (needsParens a) rest _ output (IHa Shape)).
    + rewrite <- app_assoc. reflexivity.
    + destruct (needsParens a) eqn:W; [exact I|].
      apply negated_operand_holds. exact W.
  - cbn [infix app toRPNLoop pending emitted]. rewrite <- app_assoc.
    rewrite (IHa Shape) by exact I. cbn [app toRPNLoop].
    rewrite (popThroughLparen_operators _ _ _ (pending_only_operators a)).
    rewrite <- !app_assoc, (app_assoc (emitted a)), emitted_pending. reflexivity.
  - apply andb_true_iff in Shape. destruct Shape as [Shape Sr].
    apply andb_true_iff in Shape. destruct Shape as [Shape Sl].
    apply andb_true_iff in Shape. destruct Shape as [Dl Dr].
    cbn [infix pending emitted]. cbn [openOperators] in H.
    set (wl := shouldWrap l (PREC_MAP op) LeftSide op) in *.
    set (wr := shouldWrap r (PREC_MAP op) RightSide op) in *.
    rewrite <- app_assoc. cbn [app].
    rewrite (toRPNLoop_operand l wl _ stack output (IHl Dl)).
    2:{ destruct wl eqn:W.
        - exact (holds_top _ _ H).
        - eapply holds_subset; [|exact H]. intros o Ho.
          apply in_or_app. left. exact Ho. }
    cbn [toRPNLoop].
    assert (Sent : sentBy (OpBinary op) (if wl then [] else pending l)).
    { destruct wl eqn:W; [constructor|]. apply left_operand_sent; assumption. }
    rewrite (popOperators_moved _ _ _ _ Sent).
    rewrite (popOperators_stop (OpBinary op) stack).
    2:{ eapply holds_subset; [|exact H]. intros o [<-|[]].
        apply in_or_app. right. left. reflexivity. }
    assert (El : (if wl then postfix l else emitted l) ++
                 (if wl then [] else pending l) = postfix l).
    { destruct wl; [apply app_nil_r|apply emitted_pending]. }
    rewrite <- (app_assoc output), El.
    rewrite (toRPNLoop_operand r wr rest _ _ (IHr Dr)).
    + rewrite <- !app_assoc. reflexivity.
    + destruct wr eqn:W; [exact I|].
      apply right_operand_holds; assumption.
Qed.

Lemma drainStack_operators (moved output : list token) :
  Forall (fun t => exists o, t = TOperator o) moved ->
  drainStack moved output = Ok (output ++ moved).
Proof.
  intros M. revert output. induction M as [|t moved [o ->] M IH]; intros output.
  - cbn. rewrite app_nil_r. reflexivity.
  - cbn [drainStack]. rewrite IH, <- app_assoc. reflexivity.
Qed.

Lemma toRPN_infix_helper (n : node) :
  distinctShape n = true -> toRPN (infix n) = Ok (postfix n).
Proof.
  intros Shape. unfold toRPN.
  pose proof (toRPNLoop_infix n Shape [] [] [] I) as H.
  rewrite !app_nil_r in H. cbn [app] in H. rewrite H. cbn [toRPNLoop].
  rewrite (drainStack_operators _ _ (pending_only_operators n)).
  rewrite emitted_pending. reflexivity.
Qed.

(** ** From the text of a node to its tokens *)

(** The fuel of the lexer does not count, once it is more than the
    length of the text. *)
Lemma tokenizeLoop_fuels (fuel1 fuel2 : nat) (input : list N)
    (prevType : tokenKind) (tokens : list token) :
  (List.length input < fuel1)%nat -> (List.length input < fuel2)%nat ->
  tokenizeLoop fuel1 input prevType tokens =
  tokenizeLoop fuel2 input prevType tokens.
Proof.
  revert fuel2 input prevType tokens.
  induction fuel1 as [|fuel1 IH]; intros fuel2 input prevType tokens H1 H2.
  - inversion H1.
  - destruct fuel2 as [|fuel2]; [inversion H2|].
    destruct input as [|char rest]; [reflexivity|].
    cbn [List.length] in H1, H2.
    apply Nat.succ_lt_mono in H1. apply Nat.succ_lt_mono in H2.
    assert (Hspan : forall p,
              (List.length (snd (span p rest)) < fuel1)%nat /\
              (List.length (snd (span p rest)) < fuel2)%nat).
    { intros p. pose proof (span_length p rest). units. lia. }
    cbn [tokenizeLoop].
    destruct ((char =? 32)%N || (char =? 9)%N || (char =? 10)%N);
      [apply IH; assumption|].
    destruct (isNumberChar char).
    { destruct (Hspan isNumberChar) as [S1 S2].
      destruct (span isNumberChar rest) as [more after]. cbn [snd] in S1, S2.
      match goal with |- context [if ?b then _ else _] => destruct b end;
        [reflexivity|apply IH; assumption]. }
    destruct (isIdentifierStart char).
    { destruct (Hspan isIdentifierChar) as [S1 S2].
      destruct (span isIdentifierChar rest) as [more after]. cbn [snd] in S1, S2.
      destruct (CONSTANTS _); [apply IH; assumption|].
      destruct (isFunctionName _); [apply IH; assumption|].
      match goal with |- context [if ?b then _ else _] => destruct b end;
        [apply IH; assumption|reflexivity]. }
    destruct (char =? 44)%N; [apply IH; assumption|].
    destruct (char =? 40)%N; [apply IH; assumption|].
    destruct (char =? 41)%N; [apply IH; assumption|].
    destruct (operatorOfChar char); [apply IH; assumption|reflexivity].
Qed.

(** One iteration of the lexer, with the fuel left as it is. *)
Lemma tokenizeLoop_step (input input' : list N) (prevType prevType' : tokenKind)
    (tokens tokens' : list token) (fuel : nat) :
  (forall f, tokenizeLoop (S f) input prevType tokens =
             tokenizeLoop f input' prevType' tokens') ->
  (List.length input' < List.length input)%nat ->
  (List.length input < fuel)%nat ->
  tokenizeLoop fuel input prevType tokens =
  tokenizeLoop fuel input' prevType' tokens'.
Proof.
  intros Step Shorter Enough. destruct fuel as [|f]; [inversion Enough|].
  rewrite Step. apply tokenizeLoop_fuels; lia.
Qed.

Lemma tokenizeLoop_space (rest : list N) (prevType : tokenKind)
    (tokens : list token) (fuel : nat) :
  (List.length (32%N :: rest) < fuel)%nat ->
  tokenizeLoop fuel (32%N :: rest) prevType tokens =
  tokenizeLoop fuel rest prevType tokens.
Proof.
  apply tokenizeLoop_step; [intros f; reflexivity|].
  cbn [List.length]. lia.
Qed.

Lemma tokenizeLoop_lparen (rest : list N) (prevType : tokenKind)
    (tokens : list token) (fuel : nat) :
  (List.length (40%N :: rest) < fuel)%nat ->
  tokenizeLoop fuel (40%N :: rest) prevType tokens =
  tokenizeLoop fuel rest KLparen (tokens ++ [TLparen]).
Proof.
  apply tokenizeLoop_step; [intros f; reflexivity|].
  cbn [List.length]. lia.
Qed.

Lemma tokenizeLoop_rparen (rest : list N) (prevType : tokenKind)
    (tokens : list token) (fuel : nat) :
  (List.length (41%N :: rest) < fuel)%nat ->
  tokenizeLoop fuel (41%N :: rest) prevType tokens =
  tokenizeLoop fuel rest KRparen (tokens ++ [TRparen]).
Proof.
  apply tokenizeLoop_step; [intros f; reflexivity|].
  cbn [List.length]. lia.
Qed.

Lemma tokenizeLoop_minus (rest : list N) (prevType : tokenKind)
    (tokens : list token) (fuel : nat) :
  minusIsUnary prevType = true ->
  (List.length (45%N :: rest) < fuel)%nat ->
  tokenizeLoop fuel (45%N :: rest) prevType tokens =
  tokenizeLoop fuel rest KOperator (tokens ++ [TOperator OpNegate]).
Proof.
  intros U. apply tokenizeLoop_step.
  - intros f. apply tokenizeLoop_negate. exact U.
  - cbn [List.length]. lia.
Qed.

Lemma tokenizeLoop_operator (op : binop) (rest : list N) (prevType : tokenKind)
    (tokens : list token) (fuel : nat) :
  minusIsUnary prevType = false ->
  (List.length (str (opSymbol op) ++ rest) < fuel)%nat ->
  tokenizeLoop fuel (str (opSymbol op) ++ rest) prevType tokens =
  tokenizeLoop fuel rest KOperator (tokens ++ [TOperator (OpBinary op)]).
Proof.
  intros U. apply tokenizeLoop_step.
  - intros f. destruct op; cbn; rewrite ?U; reflexivity.
  - destruct op; cbn [opSymbol str list_ascii_of_string map app List.length]; lia.
Qed.

(** The text that follows a name or a number starts with a code unit that
    belongs to neither. *)
Definition delimited (rest : list N) : Prop :=
  match rest with
  | [] => True
  | c :: _ => isIdentifierChar c = false /\ isNumberChar c = false
  end.

Lemma span_delimited_identifier (rest : list N) :
  delimited rest -> span isIdentifierChar rest = ([], rest).
Proof.
  destruct rest as [|c rest]; [reflexivity|]. intros [H _].
  cbn [span]. units. rewrite H. reflexivity.
Qed.

Lemma tokenizeLoop_variable (name : string) (rest : list N) (prevType : tokenKind)
    (tokens : list token) (fuel : nat) :
  String.eqb name "x" || String.eqb name "y" = true ->
  delimited rest ->
  (List.length (str name ++ rest) < fuel)%nat ->
  tokenizeLoop fuel (str name ++ rest) prevType tokens =
  tokenizeLoop fuel rest KVariable (tokens ++ [TVariable name]).
Proof.
  intros V D. apply span_delimited_identifier in D.
  apply orb_true_iff in V.
  destruct V as [V|V]; apply String.eqb_eq in V; subst name;
    (apply tokenizeLoop_step;
     [intros f; cbn [str list_ascii_of_string map app tokenizeLoop];
      units; cbn; units; rewrite D; reflexivity
     |cbn [str list_ascii_of_string map app List.length]; lia]).
Qed.

Lemma tokenizeLoop_function (name : string) (rest : list N) (prevType : tokenKind)
    (tokens : list token) (fuel : nat) :
  isFunctionName name = true ->
  (List.length (str name ++ 40%N :: rest) < fuel)%nat ->
  tokenizeLoop fuel (str name ++ 40%N :: rest) prevType tokens =
  tokenizeLoop fuel (40%N :: rest) KFunction (tokens ++ [TFunction name]).
Proof.
  intros F. unfold isFunctionName, FUNCTIONS in F. cbn [existsb] in F.
  repeat (apply orb_true_iff in F; destruct F as [F|F]);
    try discriminate F; apply String.eqb_eq in F; subst name;
    (apply tokenizeLoop_step;
     [intros f; reflexivity
     |cbn [str list_ascii_of_string map app List.length]; lia]).
Qed.

Lemma tokenizeLoop_decimal_then (whole : list N) (fraction : option (list N))
    (rest : list N) (prevType : tokenKind) (tokens : list token) (fuel : nat) :
  whole <> [] -> forallb isDigit whole = true ->
  forallb isDigit (fractionDigits fraction) = true ->
  delimited rest ->
  (List.length (decimalUnits whole fraction ++ rest) < fuel)%nat ->
  tokenizeLoop fuel (decimalUnits whole fraction ++ rest) prevType tokens =
  tokenizeLoop fuel rest KNumber
    (tokens ++ [TNumber (parseFloat (decimalUnits whole fraction))]).
Proof.
  intros N W F D.
  assert (A : forallb isNumberChar (decimalUnits whole fraction) = true).
  { unfold decimalUnits. rewrite forallb_app, (digits_are_number_chars whole W).
    destruct fraction as [digits|]; [|reflexivity].
    cbn [forallb]. exact (digits_are_number_chars digits F). }
  assert (P : (List.length (filter (N.eqb 46) (decimalUnits whole fraction)) <= 1)%nat).
  { unfold decimalUnits. rewrite filter_app.
    pose proof (digits_have_no_point whole W) as Pw.
    unfold codeUnit in *. rewrite Pw.
    destruct fraction as [digits|]; [|apply Nat.le_0_l].
    cbn [app filter]. change ((46 =? 46)%N) with true. cbv iota.
    cbn [fractionDigits] in F.
    pose proof (digits_have_no_point digits F) as Pd.
    unfold codeUnit in *. rewrite Pd.
    apply Nat.le_refl. }
  destruct (decimalUnits whole fraction) as [|char more] eqn:E.
  { unfold decimalUnits in E. apply app_eq_nil in E. destruct E as [E _].
    contradiction (N E). }
  cbn [forallb] in A. apply andb_true_iff in A. destruct A as [Ac Ar].
  assert (Sp : (char =? 32)%N || (char =? 9)%N || (char =? 10)%N = false).
  { unfold isNumberChar, isDigit in Ac.
    destruct (N.eqb_spec char 32) as [->|_]; [discriminate Ac|].
    destruct (N.eqb_spec char 9) as [->|_]; [discriminate Ac|].
    destruct (N.eqb_spec char 10) as [->|_]; [discriminate Ac|]. reflexivity. }
  assert (S1 : span isNumberChar (more ++ rest) = (more, rest)).
  { apply span_all; [exact Ar|]. destruct rest as [|c rest]; [exact I|].
    exact (proj2 D). }
  assert (C : (2 <? List.length (filter (N.eqb 46) (char :: more)) + 1)%nat = false).
  { apply Nat.ltb_ge. lia. }
  apply tokenizeLoop_step.
  - intros f. cbn [app tokenizeLoop]. units. rewrite Sp, Ac, S1, C. reflexivity.
  - units. rewrite length_app. cbn [List.length]. lia.
Qed.

(** A number in lowest terms, as the operations on numbers return it. *)
Definition lowestTerms (q : Q) : bool :=
  (Qnum (Qred q) =? Qnum q)%Z && (Qden (Qred q) =? Qden q)%positive.

Lemma lowestTerms_spec (q : Q) : lowestTerms q = true -> Qred q = q.
Proof.
  unfold lowestTerms. intros H. apply andb_true_iff in H. destruct H as [A B].
  apply Z.eqb_eq in A. apply Pos.eqb_eq in B.
  destruct (Qred q) as [a b], q as [c d]. cbn [Qnum Qden] in *. subst. reflexivity.
Qed.

(** A literal without a sign that its text gives back: a number that is
    not negative and not more than [2^53], with six digits at most after
    the point. *)
Definition unsignedLiteral (value : num) : bool :=
  match value with
  | Fin q =>
      Qle_bool 0 q && Qle_bool q (inject_Z (2 ^ 53)) &&
      Qis_int (q * 1000000) && lowestTerms q
  | _ => false
  end.

Lemma unsignedLiteral_text (value : num) :
  unsignedLiteral value = true ->
  exists whole fraction,
    str (formatNumber value) = decimalUnits whole fraction /\
    whole <> [] /\ forallb isDigit whole = true /\
    forallb isDigit (fractionDigits fraction) = true /\
    parseFloat (decimalUnits whole fraction) = value.
Proof.
  destruct value as [q| | |]; try discriminate. cbn [unsignedLiteral]. intros H.
  apply andb_true_iff in H. destruct H as [H L].
  apply andb_true_iff in H. destruct H as [H X].
  apply andb_true_iff in H. destruct H as [P B].
  apply Qle_bool_iff in P. apply Qle_bool_iff in B.
  apply lowestTerms_spec in L.
  assert (Hb : Qabs q <= inject_Z (2 ^ 53)).
  { rewrite Qabs_pos by exact P. exact B. }
  destruct (formatNumber_decimalText q Hb)
    as [negative [whole [tail [fraction [S [E [R V]]]]]]].
  rewrite (S P) in *. clear S.
  destruct (digitsOfN_units whole) as [N [D _]].
  destruct (readDigits_units _ _ _ R) as [Df _].
  assert (Ef : fractionDigits (option_map str tail) = str (fractionText tail))
    by (destruct tail; reflexivity).
  exists (str (digitsOfN whole)), (option_map str tail).
  rewrite E, str_decimalText.
  split; [reflexivity|]. split; [exact N|]. split; [exact D|].
  split; [rewrite Ef; exact Df|].
  pose proof (parseFloat_decimalText whole fraction tail R) as F.
  rewrite str_decimalText in F.
  rewrite (parseFloat_decimal _ _ N D) in F by (rewrite Ef; exact Df).
  rewrite (parseFloat_decimal _ _ N D) by (rewrite Ef; exact Df).
  apply fin_equiv_inv in F. unfold fin. f_equal.
  rewrite <- L. apply Qred_complete.
  rewrite F, <- V. apply round6_exact. exact X.
Qed.

(** The nodes that the lexer and [toRPN] build from a text, before any
    simplification: literals without a sign, the variables [x] and [y], the
    functions of the lexer and the unary minus. *)
Fixpoint unsigned (n : node) : bool :=
  match n with
  | NNumber value => unsignedLiteral value
  | NVariable name => String.eqb name "x" || String.eqb name "y"
  | NUnary op a => String.eqb op "u-" && unsigned a
  | NFunction name a => isFunctionName name && unsigned a
  | NBinary _ l r => unsigned l && unsigned r
  end.

Lemma unsigned_negationsOnly (n : node) :
  unsigned n = true -> negationsOnly n = true.
Proof.
  induction n as [v|x|op a IHa|f a IHa|op l IHl r IHr]; cbn [unsigned negationsOnly];
    intros H; try reflexivity.
  - apply andb_true_iff in H. destruct H as [-> H]. exact (IHa H).
  - apply andb_true_iff in H. destruct H as [_ H]. exact (IHa H).
  - apply andb_true_iff in H. destruct H as [Hl Hr]. rewrite (IHl Hl), (IHr Hr).
    reflexivity.
Qed.

(** The kind of the last token of a node. *)
Fixpoint lastKind (n : node) : tokenKind :=
  match n with
  | NNumber _ => KNumber
  | NVariable _ => KVariable
  | NUnary _ a => if needsParens a then KRparen else lastKind a
  | NFunction _ _ => KRparen
  | NBinary op _ r =>
      if shouldWrap r (PREC_MAP op) RightSide op then KRparen else lastKind r
  end.

Lemma lastKind_operand (n : node) : minusIsUnary (lastKind n) = false.
Proof.
  induction n as [v|x|op a IHa|f a IHa|op l IHl r IHr]; cbn [lastKind];
    try reflexivity.
  - destruct (needsParens a); [reflexivity|exact IHa].
  - destruct (shouldWrap r _ _ _); [reflexivity|exact IHr].
Qed.

Definition lexesOperand (n : node) : Prop :=
  forall fuel rest prevType tokens,
    minusIsUnary prevType = true -> delimited rest ->
    (List.length (str (nodeToString n) ++ rest) < fuel)%nat ->
    tokenizeLoop fuel (str (nodeToString n) ++ rest) prevType tokens =
    tokenizeLoop fuel rest (lastKind n) (tokens ++ infix n).

Lemma str_wrapped (text : string) (rest : list N) :
  str ("(" ++ text ++ ")")%string ++ rest = 40%N :: str text ++ 41%N :: rest.
Proof.
  change ("(" ++ text ++ ")")%string with (String "(" (text ++ ")")%string).
  change (str (String "(" (text ++ ")")%string))
    with (40%N :: str (text ++ ")")%string).
  rewrite str_app. cbn [app]. rewrite <- app_assoc. reflexivity.
Qed.

Ltac lengths :=
  units; cbn [List.length] in *;
  repeat match goal with
         | H : context [List.length (_ ++ _)] |- _ =>
             rewrite length_app in H; cbn [List.length] in H
         end;
  repeat (rewrite length_app; cbn [List.length]); lia.

Lemma tokenizeLoop_operand (n : node) (wrap : bool) (fuel : nat) (rest : list N)
    (prevType : tokenKind) (tokens : list token) :
  lexesOperand n -> minusIsUnary prevType = true -> delimited rest ->
  (List.length
     (str (if wrap then "(" ++ nodeToString n ++ ")" else nodeToString n)%string ++
      rest) < fuel)%nat ->
  tokenizeLoop fuel
    (str (if wrap then "(" ++ nodeToString n ++ ")" else nodeToString n)%string ++
     rest) prevType tokens =
  tokenizeLoop fuel rest (if wrap then KRparen else lastKind n)
    (tokens ++ wrapTokens wrap (infix n)).
Proof.
  intros IH U D. destruct wrap; [|exact (IH fuel rest prevType tokens U D)].
  rewrite str_wrapped. intros H.
  rewrite tokenizeLoop_lparen by exact H.
  rewrite IH; [|reflexivity|split; reflexivity|units; lengths].
  rewrite tokenizeLoop_rparen by (units; lengths).
  cbn [wrapTokens]. rewrite <- !app_assoc. reflexivity.
Qed.

Lemma str_binary (left symbol right : string) (rest : list N) :
  str (left ++ " " ++ symbol ++ " " ++ right)%string ++ rest =
  str left ++ 32%N :: (str symbol ++ 32%N :: (str right ++ rest)).
Proof.
  rewrite str_app.
  change (" " ++ symbol ++ " " ++ right)%string
    with (String " " (symbol ++ String " " right)%string).
  change (str (String " " (symbol ++ String " " right)%string))
    with (32%N :: str (symbol ++ String " " right)%string).
  rewrite str_app.
  change (str (String " " right)) with (32%N :: str right).
  rewrite <- !app_assoc. cbn [app]. rewrite <- !app_assoc. reflexivity.
Qed.

Lemma tokenizeLoop_nodeToString (n : node) : unsigned n = true -> lexesOperand n.
Proof.
  induction n as [v|x|op a IHa|f a IHa|op l IHl r IHr]; intros P;
    cbn [unsigned] in P; intros fuel rest prevType tokens U D.
  - cbn [nodeToString lastKind infix].
    destruct (unsignedLiteral_text v P) as [whole [fraction [E [N [W [F V]]]]]].
    rewrite E. intros H.
    rewrite tokenizeLoop_decimal_then by assumption. rewrite V. reflexivity.
  - cbn [nodeToString lastKind infix]. apply tokenizeLoop_variable; assumption.
  - apply andb_true_iff in P. destruct P as [Po Pa].
    apply String.eqb_eq in Po. subst op.
    cbn [nodeToString lastKind infix]. rewrite String.eqb_refl.
    set (text := if needsParens a then _ else _).
    change (str ("-" ++ text)%string) with (45%N :: str text). cbn [app].
    intros H. rewrite tokenizeLoop_minus by assumption.
    subst text.
    rewrite (tokenizeLoop_operand a (needsParens a) fuel rest _ _ (IHa Pa))
      by (try reflexivity; try assumption; lengths).
    rewrite <- app_assoc. reflexivity.
  - apply andb_true_iff in P. destruct P as [Pf Pa].
    cbn [nodeToString lastKind infix]. rewrite str_app, <- app_assoc, str_wrapped.
    intros H. rewrite tokenizeLoop_function by assumption.
    rewrite tokenizeLoop_lparen by lengths.
    rewrite (IHa Pa); [|reflexivity|split; reflexivity|lengths].
    rewrite tokenizeLoop_rparen by lengths.
    rewrite <- !app_assoc. reflexivity.
  - apply andb_true_iff in P. destruct P as [Pl Pr].
    cbn [nodeToString lastKind infix getPrecedence]. cbv zeta.
    rewrite str_binary. intros H.
    rewrite (tokenizeLoop_operand l _ fuel _ _ _ (IHl Pl));
      [|assumption|split; reflexivity|exact H].
    rewrite tokenizeLoop_space by lengths.
    rewrite tokenizeLoop_operator.
    2:{ destruct (shouldWrap l _ _ _); [reflexivity|apply lastKind_operand]. }
    2:{ lengths. }
    rewrite tokenizeLoop_space by lengths.
    rewrite (tokenizeLoop_operand r _ fuel rest _ _ (IHr Pr));
      [|reflexivity|assumption|lengths].
    rewrite <- !app_assoc. reflexivity.
Qed.

Lemma tokenize_nodeToString (n : node) :
  unsigned n = true -> tokenize (str (nodeToString n)) = Ok (infix n).
Proof.
  intros P. unfold tokenize.
  pose proof (tokenizeLoop_nodeToString n P
                (S (List.length (str (nodeToString n)))) [] KStart []
                eq_refl I) as H.
  rewrite app_nil_r in H. rewrite H by apply Nat.lt_succ_diag_r. reflexivity.
Qed.

(** The text of a node does not start with white space. *)
Lemma digit_not_white (c : N) : isDigit c = true -> isWhiteSpace c = false.
Proof.
  unfold isDigit, isWhiteSpace. intros H.
  apply andb_true_iff in H. destruct H as [A B].
  apply N.leb_le in A. apply N.leb_le in B.
  replace (c <=? 13)%N with false by (symmetry; apply N.leb_gt; lia).
  replace (8192 <=? c)%N with false by (symmetry; apply N.leb_gt; lia).
  repeat match goal with
         | |- context [(c =? ?k)%N] =>
             replace (c =? k)%N with false by (symmetry; apply N.eqb_neq; lia)
         end.
  rewrite andb_false_r. reflexivity.
Qed.

Lemma nodeToString_starts (n : node) :
  unsigned n = true ->
  exists c rest, str (nodeToString n) = c :: rest /\ isWhiteSpace c = false.
Proof.
  induction n as [v|x|op a IHa|f a IHa|op l IHl r IHr]; intros P;
    cbn [unsigned] in P.
  - destruct (unsignedLiteral_text v P) as [whole [fraction [E [N [W _]]]]].
    cbn [nodeToString]. rewrite E. unfold decimalUnits.
    destruct whole as [|c whole]; [contradiction (N eq_refl)|].
    exists c. eexists. split; [reflexivity|].
    cbn [forallb] in W. apply andb_true_iff in W. apply digit_not_white, W.
  - apply orb_true_iff in P.
    destruct P as [P|P]; apply String.eqb_eq in P; subst x;
      eexists; eexists; (split; reflexivity).
  - apply andb_true_iff in P. destruct P as [Po _].
    apply String.eqb_eq in Po. subst op. cbn [nodeToString].
    rewrite String.eqb_refl. eexists. eexists. split; reflexivity.
  - apply andb_true_iff in P. destruct P as [F _].
    unfold isFunctionName, FUNCTIONS in F. cbn [existsb] in F.
    repeat (apply orb_true_iff in F; destruct F as [F|F]);
      try discriminate F; apply String.eqb_eq in F; subst f;
      eexists; eexists; (split; reflexivity).
  - apply andb_true_iff in P. destruct P as [Pl _].
    cbn [nodeToString]. cbv zeta.
    destruct (shouldWrap l _ _ _).
    + eexists. eexists. split; reflexivity.
    + destruct (IHl Pl) as [c [rest [E W]]].
      exists c. eexists. split; [|exact W].
      rewrite str_app, E. reflexivity.
Qed.

Section PrintAndParse.
Context {ML : MathLib}.

Lemma parseExpression_nodeToString_helper (n : node) :
  unsigned n = true -> distinctShape n = true ->
  parseExpression (str (nodeToString n)) = Ok (simplifyNode n).
Proof.
  intros P D. unfold parseExpression.
  destruct (nodeToString_starts n P) as [c [rest [E W]]].
  assert (T : trim (str (nodeToString n)) <> []).
  { intros B. apply trim_blank in B. rewrite E in B. cbn [forallb] in B.
    units. rewrite W in B. discriminate B. }
  destruct (trim (str (nodeToString n))); [contradiction (T eq_refl)|].
  rewrite replaceMinusSign_str, (tokenize_nodeToString n P). cbn [bind].
  rewrite (toRPN_infix_helper n D). cbn [bind].
  unfold buildAST.
  rewrite <- (app_nil_r (postfix n)).
  rewrite (buildASTLoop_postfix n [] [] (unsigned_negationsOnly n P)).
  reflexivity.
Qed.

End PrintAndParse.

(** ** Literals with a sign *)

(** A literal that its text gives back: a number of magnitude [2^53] at
    most, with six digits at most after the point. *)
Definition decimalLiteral (value : num) : bool :=
  match value with
  | Fin q =>
      Qle_bool (Qabs q) (inject_Z (2 ^ 53)) && Qis_int (q * 1000000) &&
      lowestTerms q
  | _ => false
  end.

(** The nodes whose text is read back: exact literals, the variables [x]
    and [y], the functions of the lexer and the unary minus. *)
Fixpoint printable (n : node) : bool :=
  match n with
  | NNumber value => decimalLiteral value
  | NVariable name => String.eqb name "x" || String.eqb name "y"
  | NUnary op a => String.eqb op "u-" && printable a
  | NFunction name a => isFunctionName name && printable a
  | NBinary _ l r => printable l && printable r
  end.

(** The node that the text of a node is read as, before the
    simplification: a negative literal is the negation of a literal. *)
Fixpoint asRead (n : node) : node :=
  match n with
  | NNumber (Fin q) =>
      if Qlt_bool q 0 then NUnary "u-" (NNumber (Fin (- q))) else n
  | NNumber _ | NVariable _ => n
  | NUnary op a => NUnary op (asRead a)
  | NFunction name a => NFunction name (asRead a)
  | NBinary op l r => NBinary op (asRead l) (asRead r)
  end.

Lemma Qis_int_opp (q : Q) : Qis_int q = true -> Qis_int (- q) = true.
Proof.
  intros H. apply Qis_int_spec in H.
  rewrite (Qis_int_comp (- q) (inject_Z (- Qfloor q))).
  - apply Qis_int_inject_Z.
  - rewrite inject_Z_opp, H. reflexivity.
Qed.

Lemma roundMicro_opp (q : Q) : roundMicro (- q) = roundMicro q.
Proof. unfold roundMicro. apply Qfloor_comp. rewrite Qabs_opp. reflexivity. Qed.

Lemma roundMicro_exact (q : Q) :
  Qis_int (q * 1000000) = true -> q < 0 -> (0 < roundMicro q)%Z.
Proof.
  intros X Neg. apply Qis_int_spec in X. set (m := Qfloor (q * 1000000)) in *.
  assert (M : (m < 0)%Z).
  { rewrite Zlt_Qlt, X. change (inject_Z 0) with 0. lra. }
  assert (E : Qabs q * 1000000 + (1 # 2) == inject_Z (- m) + (1 # 2)).
  { rewrite Qabs_neg by lra. rewrite inject_Z_opp, X. ring. }
  unfold roundMicro. rewrite (Qfloor_comp _ _ E), Qfloor_half. lia.
Qed.

Lemma formatNumber_opp (q : Q) :
  Qis_int (q * 1000000) = true -> q < 0 ->
  formatNumber (Fin q) = ("-" ++ formatNumber (Fin (- q)))%string.
Proof.
  intros X Neg. cbn [formatNumber]. destruct (Qis_int q) eqn:Hq.
  - rewrite (Qis_int_opp q Hq). apply Qis_int_spec in Hq.
    set (z := Qfloor q) in *.
    assert (Z : (z < 0)%Z).
    { rewrite Zlt_Qlt, Hq. exact Neg. }
    assert (F : Qfloor (- q) = (- z)%Z).
    { rewrite <- (Qfloor_Z (- z)). apply Qfloor_comp.
      rewrite inject_Z_opp, Hq. reflexivity. }
    rewrite F, <- (Z.opp_involutive z) at 1.
    apply integerToString_opp. lia.
  - assert (Ho : Qis_int (- q) = false).
    { destruct (Qis_int (- q)) eqn:E; [|reflexivity].
      apply Qis_int_opp in E. rewrite (Qis_int_comp _ q) in E by ring.
      rewrite E in Hq. discriminate Hq. }
    rewrite Ho. unfold fixed6ToString. rewrite roundMicro_opp.
    pose proof (roundMicro_exact q X Neg) as Pos.
    assert (S1 : Qlt_bool q 0 = true) by (apply Qlt_bool_iff; exact Neg).
    assert (S2 : Qlt_bool (- q) 0 = false) by (apply Qlt_bool_false_iff; lra).
    rewrite S1, S2. cbv zeta.
    destruct (roundMicro q =? 0)%Z eqn:N0; [apply Z.eqb_eq in N0; lia|].
    destruct (roundMicro q mod 1000000 =? 0)%Z; reflexivity.
Qed.

Lemma needsParens_asRead (n : node) : needsParens (asRead n) = needsParens n.
Proof.
  destruct n as [[q| | |]|x|op a|f a|op l r]; try reflexivity.
  cbn [asRead]. destruct (Qlt_bool q 0); reflexivity.
Qed.

Lemma shouldWrap_asRead (n : node) (parentPrec : nat) (position : side)
    (parentOp : binop) :
  shouldWrap (asRead n) parentPrec position parentOp =
  shouldWrap n parentPrec position parentOp.
Proof.
  destruct n as [[q| | |]|x|op a|f a|op l r]; try reflexivity.
  cbn [asRead]. destruct (Qlt_bool q 0); reflexivity.
Qed.

Lemma distinctShape_asRead (n : node) : distinctShape (asRead n) = distinctShape n.
Proof.
  induction n as [[q| | |]|x|op a IHa|f a IHa|op l IHl r IHr];
    cbn [asRead distinctShape]; try reflexivity; try assumption.
  - destruct (Qlt_bool q 0); reflexivity.
  - rewrite IHl, IHr. f_equal; [f_equal|].
    + destruct op; try reflexivity.
      destruct l as [[q| | |]|x|op' a|f a|op' l1 l2]; try reflexivity.
      cbn [asRead]. destruct (Qlt_bool q 0); reflexivity.
    + destruct op; try reflexivity;
        destruct r as [[q| | |]|x|op' a|f a|op' r1 r2]; try reflexivity;
        cbn [asRead]; destruct (Qlt_bool q 0); reflexivity.
Qed.

Lemma nodeToString_asRead (n : node) :
  printable n = true -> nodeToString (asRead n) = nodeToString n.
Proof.
  induction n as [[q| | |]|x|op a IHa|f a IHa|op l IHl r IHr]; intros P;
    cbn [printable] in P; try reflexivity.
  - cbn [asRead]. destruct (Qlt_bool q 0) eqn:S; [|reflexivity].
    apply Qlt_bool_iff in S. cbn [decimalLiteral] in P.
    apply andb_true_iff in P. destruct P as [P _].
    apply andb_true_iff in P. destruct P as [_ X].
    cbn [nodeToString needsParens]. rewrite String.eqb_refl.
    symmetry. apply formatNumber_opp; assumption.
  - apply andb_true_iff in P. destruct P as [_ Pa].
    cbn [asRead nodeToString]. rewrite needsParens_asRead, (IHa Pa). reflexivity.
  - apply andb_true_iff in P. destruct P as [_ Pa].
    cbn [asRead nodeToString]. rewrite (IHa Pa). reflexivity.
  - apply andb_true_iff in P. destruct P as [Pl Pr].
    cbn [asRead nodeToString getPrecedence]. cbv zeta.
    rewrite !shouldWrap_asRead, (IHl Pl), (IHr Pr). reflexivity.
Qed.

Lemma lowestTerms_opp (q : Q) : lowestTerms q = true -> lowestTerms (- q) = true.
Proof.
  intros H. apply lowestTerms_spec in H. unfold lowestTerms.
  rewrite Qred_opp, H. rewrite Z.eqb_refl, Pos.eqb_refl. reflexivity.
Qed.

Lemma unsigned_asRead (n : node) : printable n = true -> unsigned (asRead n) = true.
Proof.
  induction n as [[q| | |]|x|op a IHa|f a IHa|op l IHl r IHr]; intros P;
    cbn [printable] in P; try discriminate P; cbn [asRead unsigned].
  - cbn [decimalLiteral] in P.
    apply andb_true_iff in P. destruct P as [P L].
    apply andb_true_iff in P. destruct P as [B X].
    apply Qle_bool_iff in B.
    destruct (Qlt_bool q 0) eqn:S; cbn [unsigned unsignedLiteral].
    + apply Qlt_bool_iff in S. rewrite Qabs_neg in B by lra.
      rewrite String.eqb_refl, (lowestTerms_opp q L). cbn [andb].
      rewrite andb_true_r. apply andb_true_iff. split.
      * apply andb_true_iff. split; apply Qle_bool_iff; [lra|exact B].
      * rewrite (Qis_int_comp _ (- (q * 1000000))) by ring.
        apply Qis_int_opp. exact X.
    + apply Qlt_bool_false_iff in S. rewrite Qabs_pos in B by exact S.
      rewrite L, X, andb_true_r, andb_true_r.
      apply andb_true_iff. split; apply Qle_bool_iff; assumption.
  - exact P.
  - apply andb_true_iff in P. destruct P as [-> Pa]. exact (IHa Pa).
  - apply andb_true_iff in P. destruct P as [-> Pa]. exact (IHa Pa).
  - apply andb_true_iff in P. destruct P as [Pl Pr].
    rewrite (IHl Pl), (IHr Pr). reflexivity.
Qed.

Section PrintedAndRead.
Context {ML : MathLib}.

Lemma simplifyNode_asRead (n : node) :
  printable n = true -> simplifyNode (asRead n) = simplifyNode n.
Proof.
  induction n as [[q| | |]|x|op a IHa|f a IHa|op l IHl r IHr]; intros P;
    cbn [printable] in P; try reflexivity.
  - cbn [asRead]. destruct (Qlt_bool q 0); [|reflexivity].
    cbn [decimalLiteral] in P. apply andb_true_iff in P. destruct P as [_ L].
    apply lowestTerms_spec in L.
    cbn [simplifyNode]. rewrite String.eqb_refl.
    unfold createNumber. cbn [nneg]. unfold fin. do 2 f_equal.
    rewrite <- L at 2. apply Qred_complete. ring.
  - apply andb_true_iff in P. destruct P as [_ Pa].
    cbn [asRead simplifyNode]. rewrite (IHa Pa). reflexivity.
  - apply andb_true_iff in P. destruct P as [_ Pa].
    cbn [asRead simplifyNode]. rewrite (IHa Pa). reflexivity.
  - apply andb_true_iff in P. destruct P as [Pl Pr].
    cbn [asRead simplifyNode]. rewrite (IHl Pl), (IHr Pr). reflexivity.
Qed.

(** X24: The parser reads the text of a node as the node, simplified, and so
    a simplified node as itself: for the nodes with exact literals and the
    names of the lexer, in which no sum or product is the right operand of
    an operator [+] or [*] of its precedence and no power is the base of a
    power. *)
Theorem parseExpression_nodeToString (n : node) :
  printable n = true -> distinctShape n = true ->
  parseExpression (str (nodeToString n)) = Ok (simplifyNode n) /\
  (reduced n = true -> parseExpression (str (nodeToString n)) = Ok n).
Proof.
  intros P D.
  assert (R : parseExpression (str (nodeToString n)) = Ok (simplifyNode n)).
  { rewrite <- (nodeToString_asRead n P), <- (simplifyNode_asRead n P).
    apply parseExpression_nodeToString_helper.
    - apply unsigned_asRead. exact P.
    - rewrite distinctShape_asRead. exact D. }
  split; [exact R|]. intros S. rewrite R, (reduced_simplifyNode n S). reflexivity.
Qed.

End PrintedAndRead.

(** X25: [toRPN] on the tokens of a node in the infix order, with the
    parentheses that [nodeToString] writes, gives the tokens of the node in
    the postfix order. *)
Theorem toRPN_infix (n : node) :
  distinctShape n = true -> toRPN (infix n) = Ok (postfix n).
Proof. exact (toRPN_infix_helper n). Qed.

Local Open Scope string_scope.

(** The node [-2 * (x + sin(y)) ^ -0.5]. *)
Lemma parseExpression_nodeToString_witness :
  parseExpression (ML := rationalMath) (str "-2 * (x + sin(y)) ^ -0.5") =
  Ok (NBinary Mul (NNumber (Fin (-2)))
        (NBinary Pow
           (NBinary Add (NVariable "x") (NFunction "sin" (NVariable "y")))
           (NNumber (Fin (- (1 # 2)))))).
Proof.
  exact (proj2 (parseExpression_nodeToString (ML := rationalMath)
           (NBinary Mul (NNumber (Fin (-2)))
              (NBinary Pow
                 (NBinary Add (NVariable "x") (NFunction "sin" (NVariable "y")))
                 (NNumber (Fin (- (1 # 2))))))
           eq_refl eq_refl) eq_refl).
Defined.

(** The tokens of [(x + y) * -x]. *)
Lemma toRPN_infix_witness :
  toRPN [TLparen; TVariable "x"; TOperator (OpBinary Add); TVariable "y"; TRparen;
         TOperator (OpBinary Mul); TOperator OpNegate; TVariable "x"] =
  Ok [TVariable "x"; TVariable "y"; TOperator (OpBinary Add); TVariable "x";
      TOperator OpNegate; TOperator (OpBinary Mul)].
Proof.
  exact (toRPN_infix
           (NBinary Mul (NBinary Add (NVariable "x") (NVariable "y"))
              (NUnary "u-" (NVariable "x")))
           eq_refl).
Defined.
